(** * dash-dao: notification fan-out, e-mail delivery and audit log

    A shallow embedding of the server-side core of the repository:

    - [Email]      : [src/backend-express/utils/email.ts]
    - [Audit]      : [services/autoUserAudit.ts]
    - [Progress]   : [computeDaoProgress] of [services/txEmail.ts]
    - [Store]      : [services/notificationService.ts]
    - [TxEmail]    : the delivery engine of [services/txEmail.ts]

    JavaScript strings are modelled as [string]s of 7-bit characters;
    [trim] and [toLowerCase] act on the ASCII white space and the ASCII
    letters.  Asynchronous code is modelled sequentially: a promise is
    run to completion where it is awaited, [sleep] and the logger have no
    effect on the modelled state, and wall-clock readings are arguments. *)

From Stdlib Require Import ZArith QArith Qround Lqa List Bool Ascii String Lia DecimalString.
From stdpp Require Import base option list strings gmap.
Import ListNotations.

Local Open Scope string_scope.

(** ** JavaScript primitives used by the sources *)

Module Js.

(** [String.prototype.trim] white space, restricted to ASCII:
    TAB, LF, VT, FF, CR and SPACE. *)
Definition isSpace (c : ascii) : bool :=
  let n := nat_of_ascii c in
  (Nat.leb 9 n && Nat.leb n 13) || Nat.eqb n 32.

Fixpoint trimStart (s : string) : string :=
  match s with
  | EmptyString => EmptyString
  | String c s' => if isSpace c then trimStart s' else s
  end.

Fixpoint trimEnd (s : string) : string :=
  match s with
  | EmptyString => EmptyString
  | String c s' =>
      match trimEnd s' with
      | EmptyString => if isSpace c then EmptyString else String c EmptyString
      | r => String c r
      end
  end.

Definition trim (s : string) : string := trimEnd (trimStart s).

Definition isUpper (c : ascii) : bool :=
  let n := nat_of_ascii c in Nat.leb 65 n && Nat.leb n 90.

Definition isLower (c : ascii) : bool :=
  let n := nat_of_ascii c in Nat.leb 97 n && Nat.leb n 122.

Definition isDigit (c : ascii) : bool :=
  let n := nat_of_ascii c in Nat.leb 48 n && Nat.leb n 57.

Definition lowerChar (c : ascii) : ascii :=
  if isUpper c then ascii_of_nat (nat_of_ascii c + 32) else c.

Definition upperChar (c : ascii) : ascii :=
  if isLower c then ascii_of_nat (nat_of_ascii c - 32) else c.

Fixpoint mapString (f : ascii -> ascii) (s : string) : string :=
  match s with
  | EmptyString => EmptyString
  | String c s' => String (f c) (mapString f s')
  end.

Definition toLowerCase : string -> string := mapString lowerChar.
Definition toUpperCase : string -> string := mapString upperChar.

(** Truthiness of a string: only the empty string is falsy. *)
Definition truthy (s : string) : bool :=
  match s with EmptyString => false | _ => true end.

(** Truthiness of a [string | null | undefined]. *)
Definition truthyOpt (v : option string) : bool :=
  match v with Some s => truthy s | None => false end.

(** [a || b] on possibly missing strings: the first truthy operand. *)
Definition orElse (a : option string) (b : string) : string :=
  match a with
  | Some s => if truthy s then s else b
  | None => b
  end.

(** [Array.from(new Set(xs))]: duplicates removed, first occurrences
    kept in order. *)
Fixpoint dedupe (seen xs : list string) : list string :=
  match xs with
  | [] => []
  | x :: xs' =>
      if bool_decide (x ∈ seen) then dedupe seen xs'
      else x :: dedupe (x :: seen) xs'
  end.

Definition uniq (xs : list string) : list string := dedupe [] xs.

(** [Array.prototype.unshift] followed by a cap on [length]. *)
Definition unshiftCapped {A} (cap : nat) (x : A) (xs : list A) : list A :=
  firstn cap (x :: xs).

End Js.

(** ** Regular expressions

    The patterns of the sources are kept as syntax and run by a
    derivative matcher.  A character class is a predicate; the [i] flag is
    folded into the classes. *)

Module Re.

Inductive regex : Type :=
| Void : regex
| Eps : regex
| Cls : (ascii -> bool) -> regex
| Cat : regex -> regex -> regex
| Alt : regex -> regex -> regex
| Star : regex -> regex.

Fixpoint nullable (r : regex) : bool :=
  match r with
  | Void => false
  | Eps => true
  | Cls _ => false
  | Cat a b => nullable a && nullable b
  | Alt a b => nullable a || nullable b
  | Star _ => true
  end.

Definition cat (a b : regex) : regex :=
  match a, b with
  | Void, _ => Void
  | _, Void => Void
  | Eps, _ => b
  | _, _ => Cat a b
  end.

Definition alt (a b : regex) : regex :=
  match a, b with
  | Void, _ => b
  | _, Void => a
  | _, _ => Alt a b
  end.

Fixpoint deriv (c : ascii) (r : regex) : regex :=
  match r with
  | Void => Void
  | Eps => Void
  | Cls p => if p c then Eps else Void
  | Cat a b =>
      if nullable a then alt (cat (deriv c a) b) (deriv c b)
      else cat (deriv c a) b
  | Alt a b => alt (deriv c a) (deriv c b)
  | Star a => cat (deriv c a) (Star a)
  end.

(** The whole of [s] is a word of [r]: the pattern [^r$]. *)
Fixpoint matches (r : regex) (s : string) : bool :=
  match s with
  | EmptyString => nullable r
  | String c s' => matches (deriv c r) s'
  end.

Definition any : regex := Cls (fun _ => true).
Definition plus (r : regex) : regex := Cat r (Star r).
Definition opt (r : regex) : regex := Alt Eps r.

(** [r{0,n}] *)
Fixpoint upto (n : nat) (r : regex) : regex :=
  match n with
  | O => Eps
  | S n' => opt (Cat r (upto n' r))
  end.

Definition chr (c : ascii) : regex := Cls (Ascii.eqb c).

(** A literal under the [i] flag. *)
Fixpoint lit_i (s : string) : regex :=
  match s with
  | EmptyString => Eps
  | String c s' =>
      Cat (Cls (fun d => Ascii.eqb (Js.lowerChar d) (Js.lowerChar c)))
          (lit_i s')
  end.

Fixpoint lit (s : string) : regex :=
  match s with
  | EmptyString => Eps
  | String c s' => Cat (chr c) (lit s')
  end.

(** [RegExp.prototype.test] for a pattern without anchors: some
    substring of [s] is a word of [r]. *)
Definition search (r : regex) (s : string) : bool :=
  matches (Cat (Star any) (Cat r (Star any))) s.

Fixpoint alts (rs : list regex) : regex :=
  match rs with
  | [] => Void
  | [r] => r
  | r :: rs' => Alt r (alts rs')
  end.

End Re.

(** ** [utils/email.ts] *)

Module Email.

Definition inString (c : ascii) (s : string) : bool :=
  existsb (Ascii.eqb c) (list_ascii_of_string s).

(** [[a-z0-9]] under the [i] flag. *)
Definition alnum (c : ascii) : bool :=
  Js.isLower c || Js.isUpper c || Js.isDigit c.

(** [[a-z0-9.!#$%&'*+/=?^_`{|}~-]] under the [i] flag. *)
Definition localChar (c : ascii) : bool :=
  alnum c || inString c ".!#$%&'*+/=?^_`{|}~-".

(** [[a-z0-9-]] under the [i] flag. *)
Definition labelChar (c : ascii) : bool :=
  alnum c || Ascii.eqb c "-".

(** [[a-z0-9](?:[a-z0-9-]{0,61}[a-z0-9])?] *)
Definition label : Re.regex :=
  Re.Cat (Re.Cls alnum)
         (Re.opt (Re.Cat (Re.upto 61 (Re.Cls labelChar)) (Re.Cls alnum))).

(** [/^[a-z0-9.!#$%&'*+/=?^_`{|}~-]+@[a-z0-9](?:[a-z0-9-]{0,61}[a-z0-9])?(?:\.[a-z0-9](?:[a-z0-9-]{0,61}[a-z0-9])?)+$/i] *)
Definition EMAIL_REGEX : Re.regex :=
  Re.Cat (Re.plus (Re.Cls localChar))
    (Re.Cat (Re.chr "@")
      (Re.Cat label (Re.plus (Re.Cat (Re.chr ".") label)))).

(** A [string | null | undefined]; [None] stands for both [null] and
    [undefined]. *)
Definition raw : Type := option string.

Definition normalizeEmail (value : raw) : option string :=
  match value with
  | None => None
  | Some v =>
      let trimmed := Js.trim v in
      if Js.truthy trimmed then Some (Js.toLowerCase trimmed) else None
  end.

Definition isValidEmail (value : raw) : bool :=
  match normalizeEmail value with
  | None => false
  | Some normalized => Re.matches EMAIL_REGEX normalized
  end.

Record partition : Type := { valid : list string; invalid : list string }.

(** One turn of the [for ... of] loop of [partitionEmails]; both
    accumulators are pushed at their end. *)
Definition partitionStep (acc : partition) (value : raw) : partition :=
  match normalizeEmail value with
  | None =>
      match value with
      | Some v =>
          if Js.truthy v
          then {| valid := valid acc; invalid := invalid acc ++ [Js.trim v] |}
          else acc
      | None => acc
      end
  | Some normalized =>
      if Re.matches EMAIL_REGEX normalized
      then {| valid := valid acc ++ [normalized]; invalid := invalid acc |}
      else {| valid := valid acc; invalid := invalid acc ++ [normalized] |}
  end.

Definition partitionEmails (inputs : list raw) : partition :=
  fold_left partitionStep inputs {| valid := []; invalid := [] |}.

End Email.

(** ** [services/autoUserAudit.ts] *)

Module Audit.

Inductive AuditAction : Type :=
| created | reactivated | already_active | error.

Record AutoUserAuditEntry : Type := {
  ts : string;
  action : AuditAction;
  emailMasked : string;
  daoId : option string;
  memberName : option string;
  message : option string
}.

(** The argument of [recordAutoUserEvent]. *)
Record event : Type := {
  ev_action : AuditAction;
  ev_email : option string;
  ev_daoId : option string;
  ev_memberName : option string;
  ev_message : option string
}.

(** Length of the match of [/^[^@]+/] at the start of [s] (the
    quantifier is greedy and cannot backtrack past an [@]); [0] when
    the pattern does not match. *)
Fixpoint matchNotAt (s : string) : nat :=
  match s with
  | EmptyString => 0
  | String c s' => if Ascii.eqb c "@" then 0 else S (matchNotAt s')
  end.

Fixpoint drop (n : nat) (s : string) : string :=
  match n, s with
  | S n', String _ s' => drop n' s'
  | _, _ => s
  end.

(** [s.replace(/^[^@]+/, "***")] *)
Definition replaceLocal (s : string) : string :=
  match matchNotAt s with
  | O => s
  | n => "***" +:+ drop n s
  end.

Definition maskEmail (e : option string) : string :=
  match e with
  | None => "***@***"
  | Some v => if Js.truthy v then replaceLocal (Js.trim v) else "***@***"
  end.

(** [x || null] *)
Definition orNull (x : option string) : option string :=
  match x with
  | Some s => if Js.truthy s then Some s else None
  | None => None
  end.

Definition CAPACITY : nat := 200.

(** [now] is the reading of [new Date().toISOString()]. *)
Definition recordAutoUserEvent (now : string) (entry : event)
    (store : list AutoUserAuditEntry) : list AutoUserAuditEntry :=
  let rec := {| ts := now;
                action := ev_action entry;
                emailMasked := maskEmail (ev_email entry);
                daoId := orNull (ev_daoId entry);
                memberName := orNull (ev_memberName entry);
                message := orNull (ev_message entry) |} in
  let store' := rec :: store in
  if Nat.ltb CAPACITY (length store') then firstn CAPACITY store' else store'.

Definition listAutoUserEvents (limit : nat) (store : list AutoUserAuditEntry)
    : list AutoUserAuditEntry :=
  firstn (Nat.max 1 (Nat.min limit 200)) store.

Definition clearAutoUserEvents (store : list AutoUserAuditEntry)
    : list AutoUserAuditEntry := [].

(** A sequence of calls, each with its clock reading. *)
Definition run (calls : list (string * event))
    (store : list AutoUserAuditEntry) : list AutoUserAuditEntry :=
  fold_left (fun st c => recordAutoUserEvent (fst c) (snd c) st) calls store.

End Audit.

(** ** [computeDaoProgress] of [services/txEmail.ts] *)

Module Progress.

(** The fields of [DaoTask] and [Dao] (declared in [@shared/dao]) that
    the function reads, with the task's identity.  [progress] is a
    whole percentage; [None] is [null] or [undefined]. *)
Record DaoTask : Type := {
  id : Z;
  name : string;
  progress : option Z;
  isApplicable : bool
}.

Record Dao : Type := {
  numeroListe : string;
  tasks : option (list DaoTask)
}.

(** [Math.round]: the nearest integer, a tie going up. *)
Definition Math_round (q : Q) : Z := Qfloor (q + (1 # 2))%Q.

(** [t.progress ?? 0] *)
Definition progressOrZero (t : DaoTask) : Z :=
  match progress t with Some p => p | None => 0%Z end.

Definition computeDaoProgress (dao : Dao) : Z :=
  let applicable :=
    List.filter isApplicable (match tasks dao with Some ts => ts | None => [] end) in
  if Nat.eqb (length applicable) 0 then 0%Z
  else
    let sum := fold_left (fun acc t => (acc + progressOrZero t)%Z) applicable 0%Z in
    Math_round (inject_Z sum / inject_Z (Z.of_nat (length applicable)))%Q.

End Progress.

(** ** The delivery engine of [services/txEmail.ts]

    The module-level variables of the file form [State].  Four fields
    are devices of the model: [nextJobId] is the identifier that the
    next [randomUUID()] draws, [settled] keeps what each job's promise
    was settled with ([job.resolve] / [job.reject]), [journal] is a
    history of the operations on the two queues, and [mailLog] lists the
    calls made to [transport.sendMail].  The answers of the transport to
    come are a list, the wire, consumed one answer per call.  The
    persisted queue stands for the snapshot file written from it.  Event
    time stamps and [enqueuedAt] are left out. *)

Module TxEmail.

Inductive MailType : Type :=
| USER_CREATED | USER_DELETED_USER | USER_DELETED_ADMIN
| DAO_CREATED | DAO_UPDATED
| TASK_CREATED | TASK_UPDATED | TASK_DELETED | TASK_ASSIGNED
| TASK_REASSIGNED | TASK_COMMENTED
| AUTH_PASSWORD_RESET | AUTH_PASSWORD_CHANGED | SYSTEM_TEST.

Record EmailBatchFailure : Type := {
  code : string;
  message : string;
  recipients : list string
}.

Record EmailDeliverySummary : Type := {
  subject : string;
  attempted : nat;
  sent : nat;
  failed : nat;
  errors : list EmailBatchFailure
}.

(** [class EmailSendError] *)
Record EmailSendError : Type := {
  e_message : string;
  e_code : option string;
  permanent : bool;
  summary : option EmailDeliverySummary
}.

(** [EmailJob] without its two callbacks, and [SerializedEmailJob]
    without [enqueuedAt]. *)
Record EmailJob : Type := {
  id : nat;
  j_recipients : list string;
  j_subject : string;
  body : string;
  type : option MailType
}.

Record EmailEvent : Type := {
  ev_subject : string;
  toCount : nat;
  success : bool;
  error : option string
}.

(** What the transport threw: [responseCode], [code] and [message]. *)
Record SmtpError : Type := {
  responseCode : option nat;
  smtpCode : option string;
  smtpMessage : string
}.

Inductive SendResult : Type :=
| Accepted
| Rejected (e : SmtpError).

Record MailCall : Type := { via : string; bcc : list string }.

Inductive QueueOp : Type :=
| Persisted (id : nat)      (* persistedQueue.push *)
| Pushed (id : nat)         (* emailQueue.push *)
| Claimed (id : nat)        (* emailQueue.splice by the drainer *)
| Unpersisted (id : nat).   (* persistedQueue.splice *)

Record State : Type := {
  emailQueue : list EmailJob;
  isProcessingQueue : bool;
  persistedQueue : list EmailJob;
  totalSent : nat;
  totalFailed : nat;
  emailEvents : list EmailEvent;
  lastTransportError : option string;
  nextJobId : nat;
  settled : list (nat * (EmailDeliverySummary + EmailSendError));
  journal : list QueueOp;
  mailLog : list MailCall
}.

(** One candidate of [getTransport]. *)
Record Candidate : Type := {
  name : string;
  host : option string;
  user : option string;
  pass : option string
}.

Record TransportMeta : Type := { t_host : string; t_name : string }.

(** The environment: the variables read from [process.env] and the
    connectivity probe [transport.verify()], which answers [None] on
    success and the text of the error otherwise.  [candidates] is the
    list that [getTransport] assembles: the primary provider, then the
    fallbacks of [SMTP_FALLBACK_ORDER]. *)
Record Env : Type := {
  NODE_ENV : option string;
  SMTP_DRY_RUN : option string;
  SMTP_DISABLE : option string;
  SMTP_MAX_CONCURRENT : option nat;
  SMTP_MAX_RETRY : option nat;
  SMTP_BATCH_SIZE : option nat;
  candidates : list Candidate;
  verify : string -> option string
}.

Definition MAX_CONCURRENT (env : Env) : nat :=
  Nat.max 1 (default 3 (SMTP_MAX_CONCURRENT env)).
Definition MAX_RETRY (env : Env) : nat :=
  Nat.max 1 (default 3 (SMTP_MAX_RETRY env)).
Definition BATCH_SIZE (env : Env) : nat :=
  Nat.max 1 (default 25 (SMTP_BATCH_SIZE env)).

(** [String(x || "false").toLowerCase() === "true"] *)
Definition flag (x : option string) : bool :=
  String.eqb (Js.toLowerCase (Js.orElse x "false")) "true".

Definition isDryRunEnabled (env : Env) : bool :=
  if String.eqb (Js.toLowerCase (Js.orElse (NODE_ENV env) "")) "test"
  then true
  else flag (SMTP_DRY_RUN env).

(** *** State updates *)

Definition withQueue (q : list EmailJob) (st : State) : State :=
  {| emailQueue := q; isProcessingQueue := isProcessingQueue st;
     persistedQueue := persistedQueue st; totalSent := totalSent st;
     totalFailed := totalFailed st; emailEvents := emailEvents st;
     lastTransportError := lastTransportError st; nextJobId := nextJobId st;
     settled := settled st; journal := journal st; mailLog := mailLog st |}.

Definition withProcessing (b : bool) (st : State) : State :=
  {| emailQueue := emailQueue st; isProcessingQueue := b;
     persistedQueue := persistedQueue st; totalSent := totalSent st;
     totalFailed := totalFailed st; emailEvents := emailEvents st;
     lastTransportError := lastTransportError st; nextJobId := nextJobId st;
     settled := settled st; journal := journal st; mailLog := mailLog st |}.

Definition withPersisted (q : list EmailJob) (st : State) : State :=
  {| emailQueue := emailQueue st; isProcessingQueue := isProcessingQueue st;
     persistedQueue := q; totalSent := totalSent st;
     totalFailed := totalFailed st; emailEvents := emailEvents st;
     lastTransportError := lastTransportError st; nextJobId := nextJobId st;
     settled := settled st; journal := journal st; mailLog := mailLog st |}.

Definition addStats (s f : nat) (st : State) : State :=
  {| emailQueue := emailQueue st; isProcessingQueue := isProcessingQueue st;
     persistedQueue := persistedQueue st; totalSent := totalSent st + s;
     totalFailed := totalFailed st + f; emailEvents := emailEvents st;
     lastTransportError := lastTransportError st; nextJobId := nextJobId st;
     settled := settled st; journal := journal st; mailLog := mailLog st |}.

(** [emailEvents.unshift(ev); if (emailEvents.length > 50) emailEvents.length = 50] *)
Definition logEvent (ev : EmailEvent) (st : State) : State :=
  {| emailQueue := emailQueue st; isProcessingQueue := isProcessingQueue st;
     persistedQueue := persistedQueue st; totalSent := totalSent st;
     totalFailed := totalFailed st;
     emailEvents := Js.unshiftCapped 50 ev (emailEvents st);
     lastTransportError := lastTransportError st; nextJobId := nextJobId st;
     settled := settled st; journal := journal st; mailLog := mailLog st |}.

Definition withTransportError (e : option string) (st : State) : State :=
  {| emailQueue := emailQueue st; isProcessingQueue := isProcessingQueue st;
     persistedQueue := persistedQueue st; totalSent := totalSent st;
     totalFailed := totalFailed st; emailEvents := emailEvents st;
     lastTransportError := e; nextJobId := nextJobId st;
     settled := settled st; journal := journal st; mailLog := mailLog st |}.

Definition freshJobId (st : State) : State :=
  {| emailQueue := emailQueue st; isProcessingQueue := isProcessingQueue st;
     persistedQueue := persistedQueue st; totalSent := totalSent st;
     totalFailed := totalFailed st; emailEvents := emailEvents st;
     lastTransportError := lastTransportError st; nextJobId := S (nextJobId st);
     settled := settled st; journal := journal st; mailLog := mailLog st |}.

Definition settle (jobId : nat) (r : EmailDeliverySummary + EmailSendError)
    (st : State) : State :=
  {| emailQueue := emailQueue st; isProcessingQueue := isProcessingQueue st;
     persistedQueue := persistedQueue st; totalSent := totalSent st;
     totalFailed := totalFailed st; emailEvents := emailEvents st;
     lastTransportError := lastTransportError st; nextJobId := nextJobId st;
     settled := settled st ++ [(jobId, r)]; journal := journal st;
     mailLog := mailLog st |}.

Definition record (ops : list QueueOp) (st : State) : State :=
  {| emailQueue := emailQueue st; isProcessingQueue := isProcessingQueue st;
     persistedQueue := persistedQueue st; totalSent := totalSent st;
     totalFailed := totalFailed st; emailEvents := emailEvents st;
     lastTransportError := lastTransportError st; nextJobId := nextJobId st;
     settled := settled st; journal := journal st ++ ops;
     mailLog := mailLog st |}.

Definition logCall (c : MailCall) (st : State) : State :=
  {| emailQueue := emailQueue st; isProcessingQueue := isProcessingQueue st;
     persistedQueue := persistedQueue st; totalSent := totalSent st;
     totalFailed := totalFailed st; emailEvents := emailEvents st;
     lastTransportError := lastTransportError st; nextJobId := nextJobId st;
     settled := settled st; journal := journal st;
     mailLog := mailLog st ++ [c] |}.

(** *** Classification of transport errors *)

(** [String(n)] for a natural number. *)
Definition decimal (n : nat) : string :=
  NilEmpty.string_of_uint (Nat.to_uint n).

(** [String(err?.responseCode || err?.code || "unknown")] *)
Definition errorCode (err : SmtpError) : string :=
  match responseCode err with
  | Some (S n) => decimal (S n)
  | _ => Js.orElse (smtpCode err) "unknown"
  end.

(** [String(error?.message || error)]; an [Error] without message
    prints as ["Error"]. *)
Definition errorMessage (err : SmtpError) : string :=
  if Js.truthy (smtpMessage err) then smtpMessage err else "Error".

Definition temporaryCodes : list string :=
  [ "ETIMEDOUT"; "ESOCKETTIMEDOUT"; "ECONNRESET"; "ECONNREFUSED";
    "ECONNABORTED"; "EPIPE"; "EHOSTUNREACH"; "ENETUNREACH"; "EAI_AGAIN";
    "ETIMEOUT"; "ETEMPFAIL"; "ECONNECTION" ].

(** [/timeout|temporar|retry/i] *)
Definition RE_NO_CODE : Re.regex :=
  Re.alts [Re.lit_i "timeout"; Re.lit_i "temporar"; Re.lit_i "retry"].

(** [/^4\d\d$/] *)
Definition RE_4XX : Re.regex :=
  Re.Cat (Re.chr "4") (Re.Cat (Re.Cls Js.isDigit) (Re.Cls Js.isDigit)).

(** [/temporary|timeout|try again|later|rate limit/i] *)
Definition RE_TEMPORARY : Re.regex :=
  Re.alts [Re.lit_i "temporary"; Re.lit_i "timeout"; Re.lit_i "try again";
           Re.lit_i "later"; Re.lit_i "rate limit"].

Definition isTemporarySmtpError (code message : string) : bool :=
  let normalizedCode := Js.toUpperCase (Js.trim code) in
  if negb (Js.truthy normalizedCode) then Re.search RE_NO_CODE message
  else if bool_decide (normalizedCode ∈ temporaryCodes) then true
  else if Re.matches RE_4XX normalizedCode then true
  else if String.eqb normalizedCode "421" then true
  else Re.search RE_TEMPORARY message.

(** *** [getTransport] *)

Definition complete (cfg : Candidate) : bool :=
  Js.truthyOpt (host cfg) && Js.truthyOpt (user cfg) && Js.truthyOpt (pass cfg).

Definition metaOf (cfg : Candidate) : TransportMeta :=
  {| t_host := default "" (host cfg); t_name := name cfg |}.

(** [tryTransport]: [inl] is the message of the error thrown. *)
Definition tryTransport (env : Env) (excludeHosts : list string)
    (cfg : Candidate) : string + TransportMeta :=
  if negb (complete cfg) then inl ("incomplete-config:" +:+ name cfg)
  else if bool_decide (default "" (host cfg) ∈ excludeHosts)
  then inl ("excluded-host:" +:+ name cfg)
  else match verify env (default "" (host cfg)) with
       | Some msg => inl msg
       | None => inr (metaOf cfg)
       end.

(** The [for (const cfg of candidates)] loop: [inl] when a candidate
    was verified, otherwise the errors and [firstTransport]. *)
Fixpoint tryCandidates (env : Env) (excludeHosts : list string)
    (cands : list Candidate) (errs : list string)
    (firstTransport : option TransportMeta)
    : TransportMeta + (list string * option TransportMeta) :=
  match cands with
  | [] => inr (errs, firstTransport)
  | cfg :: rest =>
      let firstTransport' :=
        match firstTransport with
        | None => if complete cfg then Some (metaOf cfg) else None
        | Some _ => firstTransport
        end in
      if negb (complete cfg)
      then tryCandidates env excludeHosts rest
             (errs ++ [name cfg +:+ ": incomplete"]) firstTransport'
      else match tryTransport env excludeHosts cfg with
           | inr verified => inl verified
           | inl msg =>
               tryCandidates env excludeHosts rest
                 (errs ++ [name cfg +:+ ": " +:+ msg]) firstTransport'
           end
  end.

Definition getTransport (env : Env) (excludeHosts : list string)
    (st : State) : option TransportMeta * State :=
  if flag (SMTP_DISABLE env) then (None, st)
  else match tryCandidates env excludeHosts (candidates env) [] None with
       | inl verified => (Some verified, withTransportError None st)
       | inr (errs, Some firstTransport) =>
           (Some firstTransport,
            withTransportError (Some (String.concat " | " errs)) st)
       | inr (errs, None) =>
           (None, withTransportError (Some (String.concat " | " errs)) st)
       end.

(** *** [deliverEmailJob] *)

(** The local variables of the batch loop. *)
Record Loop : Type := {
  index : nat;
  acc : EmailDeliverySummary;
  hasErrors : bool;
  hasPermanentFailure : bool;
  excludedHosts : list string;
  currentTransportMeta : TransportMeta
}.

Definition batchSent (n eff : nat) (l : Loop) : Loop :=
  {| index := index l + eff;
     acc := {| subject := subject (acc l); attempted := attempted (acc l);
               sent := sent (acc l) + n; failed := failed (acc l);
               errors := errors (acc l) |};
     hasErrors := hasErrors l; hasPermanentFailure := hasPermanentFailure l;
     excludedHosts := excludedHosts l;
     currentTransportMeta := currentTransportMeta l |}.

(** The common part of the [catch] block: the failure is counted and
    recorded before it is known whether the batch will be retried. *)
Definition batchFailed (f : EmailBatchFailure) (perm : bool) (l : Loop) : Loop :=
  {| index := index l;
     acc := {| subject := subject (acc l); attempted := attempted (acc l);
               sent := sent (acc l);
               failed := failed (acc l) + length (recipients f);
               errors := errors (acc l) ++ [f] |};
     hasErrors := true;
     hasPermanentFailure := hasPermanentFailure l || perm;
     excludedHosts := excludedHosts l;
     currentTransportMeta := currentTransportMeta l |}.

Definition retryWith (excl : list string) (t : TransportMeta) (l : Loop) : Loop :=
  {| index := index l; acc := acc l; hasErrors := hasErrors l;
     hasPermanentFailure := hasPermanentFailure l;
     excludedHosts := excl; currentTransportMeta := t |}.

Definition skipBatch (eff : nat) (l : Loop) : Loop :=
  {| index := index l + eff; acc := acc l; hasErrors := hasErrors l;
     hasPermanentFailure := hasPermanentFailure l;
     excludedHosts := excludedHosts l;
     currentTransportMeta := currentTransportMeta l |}.

(** [for (let index = 0; index < recipients.length; ) { ... }].  Every
    turn calls [sendMail] once and takes its answer from the wire; the
    result is [None] when the wire ends before the loop does. *)
Fixpoint sendBatches (env : Env) (rcpts : list string) (subj : string)
    (wire : list SendResult) (l : Loop) (st : State)
    : option (Loop * list SendResult * State) :=
  if Nat.ltb (index l) (length rcpts) then
    match wire with
    | [] => None
    | answer :: wire' =>
        let effectiveBatchSize :=
          Nat.min (BATCH_SIZE env) (length rcpts - index l) in
        let batch := firstn effectiveBatchSize (skipn (index l) rcpts) in
        let cur := currentTransportMeta l in
        let st0 := logCall {| via := t_host cur; bcc := batch |} st in
        match answer with
        | Accepted =>
            sendBatches env rcpts subj wire'
              (batchSent (length batch) effectiveBatchSize l)
              (logEvent {| ev_subject := subj; toCount := length batch;
                           success := true; error := None |} st0)
        | Rejected err =>
            let code := errorCode err in
            let message := errorMessage err in
            let temporary := isTemporarySmtpError code message in
            let l1 := batchFailed {| code := code; message := message;
                                     recipients := batch |}
                                  (negb temporary) l in
            let st1 :=
              logEvent {| ev_subject := subj; toCount := length batch;
                          success := false;
                          error := Some (code +:+ ": " +:+ message) |}
                       (withTransportError (Some message) st0) in
            if temporary then
              let excl := (excludedHosts l1 ++ [t_host cur])%list in
              let '(next, st2) := getTransport env excl st1 in
              let cur' :=
                match next with
                | Some n =>
                    if negb (String.eqb (t_host n) (t_host cur)) then n else cur
                | None => cur
                end in
              sendBatches env rcpts subj wire' (retryWith excl cur' l1) st2
            else
              sendBatches env rcpts subj wire'
                (skipBatch effectiveBatchSize l1) st1
        end
    end
  else Some (l, wire, st).

Definition PARTIAL_FAILURE : string := "Échec partiel de l'envoi SMTP".

Definition deliverEmailJob (env : Env) (rcpts : list string) (subj : string)
    (ty : option MailType) (wire : list SendResult) (st : State)
    : option ((EmailDeliverySummary + EmailSendError) * list SendResult * State) :=
  let summary0 := {| subject := subj; attempted := length rcpts; sent := 0;
                     failed := 0; errors := [] |} in
  if isDryRunEnabled env then
    let summary1 := {| subject := subj; attempted := length rcpts;
                       sent := length rcpts; failed := 0; errors := [] |} in
    Some (inl summary1, wire,
          logEvent {| ev_subject := subj; toCount := length rcpts;
                      success := true; error := None |}
                   (addStats (sent summary1) 0 st))
  else
    let '(currentTransportMeta0, st1) := getTransport env [] st in
    match currentTransportMeta0 with
    | None =>
        let message :=
          Js.orElse (lastTransportError st1) "SMTP transport unavailable" in
        let summary1 :=
          {| subject := subj; attempted := length rcpts; sent := 0;
             failed := length rcpts;
             errors := [ {| code := "transport_unavailable";
                            message := message; recipients := rcpts |} ] |} in
        Some (inr {| e_message := message; e_code := None; permanent := true;
                     summary := Some summary1 |},
              wire,
              logEvent {| ev_subject := subj; toCount := length rcpts;
                          success := false; error := Some message |}
                       (addStats 0 (failed summary1) st1))
    | Some meta =>
        match sendBatches env rcpts subj wire
                {| index := 0; acc := summary0; hasErrors := false;
                   hasPermanentFailure := false; excludedHosts := [];
                   currentTransportMeta := meta |} st1 with
        | None => None
        | Some (l, wire', st2) =>
            let st3 := addStats (sent (acc l)) (failed (acc l)) st2 in
            match hasErrors l, errors (acc l) with
            | true, primary :: _ =>
                Some (inr {| e_message :=
                               if Js.truthy (message primary)
                               then message primary else PARTIAL_FAILURE;
                             e_code := Some (code primary);
                             permanent := hasPermanentFailure l;
                             summary := Some (acc l) |},
                      wire', st3)
            | _, _ => Some (inl (acc l), wire', withTransportError None st3)
            end
        end
    end.

(** *** The queue *)

(** [deliverWithRetry].  [fuel] bounds the recursion; [MAX_RETRY env]
    is always enough, since a retry needs [attempt < MAX_RETRY]. *)
Fixpoint deliverWithRetry (fuel : nat) (env : Env) (job : EmailJob)
    (attempt : nat) (wire : list SendResult) (st : State)
    : option ((EmailDeliverySummary + EmailSendError) * list SendResult * State) :=
  match deliverEmailJob env (j_recipients job) (j_subject job) (type job)
          wire st with
  | None => None
  | Some (inl s, wire', st') => Some (inl s, wire', st')
  | Some (inr err, wire', st') =>
      if Nat.ltb attempt (MAX_RETRY env) && negb (permanent err) then
        match fuel with
        | O => None
        | S fuel' => deliverWithRetry fuel' env job (S attempt) wire' st'
        end
      else Some (inr err, wire', st')
  end.

Definition addPersistedJob (job : EmailJob) (st : State) : State :=
  record [Persisted (id job)]
    (withPersisted (persistedQueue st ++ [job]) st).

Definition removePersistedJob (jobId : nat) (st : State) : State :=
  match list_find (fun item => id item = jobId) (persistedQueue st) with
  | Some (idx, _) =>
      record [Unpersisted jobId]
        (withPersisted (delete idx (persistedQueue st)) st)
  | None => st
  end.

(** One element of [executions]: deliver, settle the promise, and
    [finally] drop the job from the persisted queue. *)
Definition runJob (env : Env) (job : EmailJob) (wire : list SendResult)
    (st : State) : option (list SendResult * State) :=
  match deliverWithRetry (MAX_RETRY env) env job 1 wire st with
  | None => None
  | Some (r, wire', st') =>
      Some (wire', removePersistedJob (id job) (settle (id job) r st'))
  end.

(** The jobs of one round, run one after the other. *)
Fixpoint runJobs (env : Env) (jobs : list EmailJob)
    (wire : list SendResult) (st : State)
    : option (list SendResult * State) :=
  match jobs with
  | [] => Some (wire, st)
  | job :: rest =>
      match runJob env job wire st with
      | None => None
      | Some (wire', st') => runJobs env rest wire' st'
      end
  end.

(** [while (emailQueue.length > 0) { ... }]: one round per unit of
    fuel. *)
Fixpoint drain (fuel : nat) (env : Env) (wire : list SendResult)
    (st : State) : option (list SendResult * State) :=
  match emailQueue st with
  | [] => Some (wire, st)
  | _ :: _ =>
      match fuel with
      | O => None
      | S fuel' =>
          let jobs := firstn (MAX_CONCURRENT env) (emailQueue st) in
          let st1 :=
            record (map (fun j => Claimed (id j)) jobs)
              (withQueue (skipn (MAX_CONCURRENT env) (emailQueue st)) st) in
          match runJobs env jobs wire st1 with
          | None => None
          | Some (wire', st2) => drain fuel' env wire' st2
          end
      end
  end.

(** [processQueue]; a round takes at least one job, so the length of
    the queue is fuel enough. *)
Definition processQueue (env : Env) (wire : list SendResult) (st : State)
    : option (list SendResult * State) :=
  if isProcessingQueue st then Some (wire, st)
  else
    match drain (length (emailQueue st)) env wire (withProcessing true st) with
    | None => None
    | Some (wire', st') => Some (wire', withProcessing false st')
    end.

(** The body of [enqueueEmailJob] up to the call of [processQueue]. *)
Definition pushEmailJob (rcpts : list string) (subj bod : string)
    (ty : option MailType) (st : State) : State :=
  let job := {| id := nextJobId st; j_recipients := rcpts; j_subject := subj;
                body := bod; type := ty |} in
  let st1 := addPersistedJob job (freshJobId st) in
  record [Pushed (id job)] (withQueue (emailQueue st1 ++ [job]) st1).

Fixpoint settlement (jobId : nat)
    (l : list (nat * (EmailDeliverySummary + EmailSendError)))
    : option (EmailDeliverySummary + EmailSendError) :=
  match l with
  | [] => None
  | (i, r) :: l' => if Nat.eqb i jobId then Some r else settlement jobId l'
  end.

(** [enqueueEmailJob] awaited: the settlement of the promise, [None]
    when it is still pending once [processQueue] returns (the drainer
    was already running) or when the wire ended. *)
Definition enqueueEmailJob (env : Env) (rcpts : list string)
    (subj bod : string) (ty : option MailType)
    (wire : list SendResult) (st : State)
    : option ((EmailDeliverySummary + EmailSendError) * list SendResult * State) :=
  let jobId := nextJobId st in
  match processQueue env wire (pushEmailJob rcpts subj bod ty st) with
  | None => None
  | Some (wire', st') =>
      match settlement jobId (settled st') with
      | None => None
      | Some r => Some (r, wire', st')
      end
  end.

(** *** [sendEmail] *)

(** The argument [to : string | string[]]. *)
Inductive To : Type :=
| One (s : string)
| Many (l : list Email.raw).

Definition toArray (x : To) : list Email.raw :=
  match x with
  | One s => if Js.truthy s then [Some s] else []
  | Many l => l
  end.

Inductive Outcome : Type :=
| Returned
| Raised (e : EmailSendError).

Definition DEFAULT_SUBJECT : string := "Gestion des DAOs 2SND".

(** The recipients that [sendEmail] keeps. *)
Definition recipientsOf (to : To) : list string :=
  Js.uniq (Email.valid (Email.partitionEmails (toArray to))).

Definition sendEmail (env : Env) (to : To) (subj bod : string)
    (ty : option MailType) (wire : list SendResult) (st : State)
    : option (Outcome * list SendResult * State) :=
  let rcpts := recipientsOf to in
  if Nat.eqb (length rcpts) 0 then Some (Returned, wire, st)
  else
    let smtpSubject :=
      if Js.truthy (Js.trim subj) then Js.trim subj else DEFAULT_SUBJECT in
    let normalizedBody := bod in
    let noSummary :=
      {| subject := smtpSubject; attempted := length rcpts; sent := 0;
         failed := length rcpts; errors := [] |} in
    match enqueueEmailJob env rcpts smtpSubject normalizedBody ty wire st with
    | None => None
    | Some (inl summary, wire', st') =>
        if Nat.eqb (failed summary) 0 then Some (Returned, wire', st')
        else if Nat.eqb (sent summary) 0 then
          let e :=
            match errors summary with
            | firstError :: _ =>
                {| e_message := Js.orElse (Some (message firstError)) "SMTP send failed";
                   e_code := Some (code firstError);
                   permanent := String.eqb (code firstError) "transport_unavailable";
                   summary := Some summary |}
            | [] =>
                {| e_message := "SMTP send failed"; e_code := None;
                   permanent := false; summary := Some summary |}
            end in
          Some (Raised e, wire', st')
        else Some (Returned, wire', st')
    | Some (inr error, wire', st') =>
        let error' :=
          match summary error with
          | Some _ => error
          | None => {| e_message := e_message error; e_code := e_code error;
                       permanent := permanent error;
                       summary := Some noSummary |}
          end in
        Some (Raised error', wire', st')
    end.

End TxEmail.

(** ** [services/notificationService.ts] *)

Module Store.

Inductive NotificationType : Type :=
| role_update | task_notification | dao_created | dao_updated
| dao_deleted | user_created | system.

(** [recipients: "all" | string[]] *)
Inductive Recipients : Type :=
| All
| Ids (ids : list string).

(** The values held by [data: Record<string, any>] in this file. *)
Inductive DataValue : Type :=
| DBool (b : bool)
| DStr (s : string)
| DNum (n : nat).

Record ServerNotification : Type := {
  id : string;
  type : NotificationType;
  title : string;
  message : string;
  data : option (list (string * DataValue));
  recipients : Recipients;
  readBy : gset string;
  createdAt : string
}.

(** The argument of [add]: a notification without [id], [readBy] and
    [createdAt]. *)
Record draft : Type := {
  d_type : NotificationType;
  d_title : string;
  d_message : string;
  d_data : option (list (string * DataValue));
  d_recipients : Recipients
}.

(** The list of [InMemoryNotificationService] and the two module-level
    variables of the cool-down. *)
Record State : Type := {
  notifications : list ServerNotification;
  lastEmailErrorNotificationAt : Z;
  lastEmailErrorNotificationCode : option string
}.

Definition MAX_ITEMS : nat := 1000.

(** [Math.max(5 * 60 * 1000, Number(process.env.EMAIL_ERROR_NOTIFY_INTERVAL_MS || 10 * 60 * 1000))] *)
Definition EMAIL_ERROR_NOTIFY_INTERVAL_MS (env : option Z) : Z :=
  Z.max (5 * 60 * 1000) (default (10 * 60 * 1000)%Z env).

(** [shouldNotifyEmailError]; [now] is the reading of [Date.now()]. *)
Definition shouldNotifyEmailError (interval : Z) (now : Z) (code : string)
    (st : State) : bool * State :=
  if bool_decide (lastEmailErrorNotificationCode st = Some code)
     && (now - lastEmailErrorNotificationAt st <? interval)%Z
  then (false, st)
  else (true, {| notifications := notifications st;
                 lastEmailErrorNotificationAt := now;
                 lastEmailErrorNotificationCode := Some code |}).

Definition isRecipient (userId : string) (n : ServerNotification) : bool :=
  match recipients n with
  | All => true
  | Ids ids => bool_decide (userId ∈ ids)
  end.

(** [n.readBy.add(userId)] *)
Definition addReader (userId : string) (n : ServerNotification)
    : ServerNotification :=
  {| id := id n; type := type n; title := title n; message := message n;
     data := data n; recipients := recipients n;
     readBy := {[ userId ]} ∪ readBy n; createdAt := createdAt n |}.

(** [add], up to the launch of the asynchronous persistence and
    mirroring.  [broadcastAll] is the flag [EMAIL_BROADCAST_ALL]; the
    identifier and the time stamp drawn by the call are arguments. *)
Definition add (broadcastAll : bool) (newId now : string) (n : draft)
    (st : State) : ServerNotification * State :=
  let item := {| id := newId; type := d_type n; title := d_title n;
                 message := d_message n; data := d_data n;
                 recipients := if broadcastAll then All else d_recipients n;
                 readBy := ∅; createdAt := now |} in
  let l := item :: notifications st in
  (item,
   {| notifications := if Nat.ltb MAX_ITEMS (length l) then firstn MAX_ITEMS l else l;
      lastEmailErrorNotificationAt := lastEmailErrorNotificationAt st;
      lastEmailErrorNotificationCode := lastEmailErrorNotificationCode st |}).

Definition withNotifications (l : list ServerNotification) (st : State) : State :=
  {| notifications := l;
     lastEmailErrorNotificationAt := lastEmailErrorNotificationAt st;
     lastEmailErrorNotificationCode := lastEmailErrorNotificationCode st |}.

(** [markRead].  The object returned by [find] is the element at the
    first index whose [id] matches; it is updated in place. *)
Definition markRead (userId notifId : string) (st : State) : bool * State :=
  match list_find (fun n => id n = notifId) (notifications st) with
  | None => (false, st)
  | Some (i, n) =>
      if negb (isRecipient userId n) then (false, st)
      else (true, withNotifications (<[ i := addReader userId n ]> (notifications st)) st)
  end.

(** The [for ... of] loop of [markAllRead]. *)
Fixpoint markAllReadLoop (userId : string) (l : list ServerNotification)
    (count : nat) : nat * list ServerNotification :=
  match l with
  | [] => (count, [])
  | n :: rest =>
      if isRecipient userId n && negb (bool_decide (userId ∈ readBy n)) then
        let '(c, rest') := markAllReadLoop userId rest (S count) in
        (c, addReader userId n :: rest')
      else
        let '(c, rest') := markAllReadLoop userId rest count in
        (c, n :: rest')
  end.

Definition markAllRead (userId : string) (st : State) : nat * State :=
  let '(count, l) := markAllReadLoop userId (notifications st) 0 in
  (count, withNotifications l st).

Definition clearAll (st : State) : State := withNotifications [] st.

(** *** The [catch] block of [mirrorEmail] *)

(** [err?.responseCode || err?.code || "unknown"], on the
    [EmailSendError] that [sendEmail] raises. *)
Definition codeOf (err : TxEmail.EmailSendError) : string :=
  Js.orElse (TxEmail.e_code err) "unknown".

Definition nonWord (c : ascii) : bool :=
  negb (Email.alnum c || Ascii.eqb c "_").

(** [/\b504\b/], as a pattern for the whole message. *)
Definition RE_504 : Re.regex :=
  Re.Cat (Re.opt (Re.Cat (Re.Star Re.any) (Re.Cls nonWord)))
    (Re.Cat (Re.lit "504")
       (Re.opt (Re.Cat (Re.Cls nonWord) (Re.Star Re.any)))).

(** [/limit on the number of allowed outgoing messages/i] *)
Definition RE_QUOTA : Re.regex :=
  Re.lit_i "limit on the number of allowed outgoing messages".

Definition MSG_QUOTA : string :=
  "Envoi d'e-mails temporairement bloqué (quota atteint). Réessayez plus tard.".
Definition MSG_504 : string :=
  "Erreur d'envoi d'email (504 Gateway Timeout). Réessayer plus tard.".
Definition MSG_OTHER : string :=
  "Erreur d'envoi d'email. Réessayer plus tard.".

Definition safeMsg (err : TxEmail.EmailSendError) : string :=
  let code := codeOf err in
  let message := TxEmail.e_message err in
  let is504 := String.eqb code "504" || Re.matches RE_504 message in
  let isQuota := String.eqb code "554" || Re.search RE_QUOTA message in
  if isQuota then MSG_QUOTA else if is504 then MSG_504 else MSG_OTHER.

Definition errorData (err : TxEmail.EmailSendError)
    : list (string * DataValue) :=
  [("skipEmailMirror", DBool true); ("emailError", DBool true);
   ("code", DStr (codeOf err))]
  ++ match TxEmail.summary err with
     | Some s => [("attempted", DNum (TxEmail.attempted s));
                  ("failed", DNum (TxEmail.failed s))]
     | None => []
     end.

(** A failure of the mirroring: the error caught, and the readings
    and draws of the handler. *)
Record failure : Type := {
  f_error : TxEmail.EmailSendError;
  f_now : Z;
  f_newId : string;
  f_stamp : string
}.

(** The [catch] block: [Some] notification when one was emitted. *)
Definition onMirrorFailure (interval : Z) (broadcastAll : bool)
    (f : failure) (st : State) : option ServerNotification * State :=
  let notifyCode := codeOf (f_error f) in
  let '(go, st1) := shouldNotifyEmailError interval (f_now f) notifyCode st in
  if negb go then (None, st1)
  else
    let '(item, st2) :=
      add broadcastAll (f_newId f) (f_stamp f)
        {| d_type := system; d_title := "Erreur d'envoi d'email";
           d_message := safeMsg (f_error f);
           d_data := Some (errorData (f_error f));
           d_recipients := All |} st1 in
    (Some item, st2).

(** A sequence of failures: the notifications emitted, one entry per
    failure. *)
Fixpoint mirrorFailures (interval : Z) (broadcastAll : bool)
    (fs : list failure) (st : State)
    : list (option ServerNotification) * State :=
  match fs with
  | [] => ([], st)
  | f :: rest =>
      let '(o, st1) := onMirrorFailure interval broadcastAll f st in
      let '(os, st2) := mirrorFailures interval broadcastAll rest st1 in
      (o :: os, st2)
  end.

End Store.

(** ** Notions of the specification *)

Module Spec.

(** The local part of an address: what stands before its first [@],
    the whole text when there is none. *)
Fixpoint localPart (s : string) : string :=
  match s with
  | EmptyString => EmptyString
  | String c s' =>
      if Ascii.eqb c "@" then EmptyString else String c (localPart s')
  end.

(** What follows the local part: empty, or starting with [@]. *)
Fixpoint afterLocal (s : string) : string :=
  match s with
  | EmptyString => EmptyString
  | String c s' => if Ascii.eqb c "@" then s else afterLocal s'
  end.

Definition MASK : string := "***".

(** A local part replaced by the mask; an empty one stays empty. *)
Definition masked (s : string) : string :=
  (if Js.truthy (localPart s) then MASK else "") +:+ afterLocal s.

(** The applicable tasks of a record, and the arithmetic mean of their
    progress. *)
Definition applicable (dao : Progress.Dao) : list Progress.DaoTask :=
  List.filter Progress.isApplicable (default [] (Progress.tasks dao)).



(** A notification that [userId] may see and has not read. *)
Definition unreadBy (userId : string) (n : Store.ServerNotification) : bool :=
  Store.isRecipient userId n && negb (bool_decide (userId ∈ Store.readBy n)).

(** The engine at rest: no drainer running, nothing queued, and the
    identifier that the next job will draw is in use nowhere. *)
Definition atRest (st : TxEmail.State) : Prop :=
  TxEmail.isProcessingQueue st = false
  ∧ TxEmail.emailQueue st = []
  ∧ TxEmail.settlement (TxEmail.nextJobId st) (TxEmail.settled st) = None
  ∧ Forall (fun j => TxEmail.id j ≠ TxEmail.nextJobId st) (TxEmail.persistedQueue st).

End Spec.

(** ** Notions used to state the properties of [Email] *)

Section EmailNotions.
Import Email.

(** What one turn of the loop appends to each list. *)
Definition validOf (v : raw) : list string :=
  match normalizeEmail v with
  | Some n => if Re.matches EMAIL_REGEX n then [n] else []
  | None => []
  end.

Definition invalidOf (v : raw) : list string :=
  match normalizeEmail v with
  | Some n => if Re.matches EMAIL_REGEX n then [] else [n]
  | None => match v with
            | Some s => if Js.truthy s then [Js.trim s] else []
            | None => []
            end
  end.

End EmailNotions.

(** ** Notions used to state the properties of [Store] *)

Section StoreNotions.
Import Store.

Definition markIfUnread (u : string) (n : ServerNotification) : ServerNotification :=
  if Spec.unreadBy u n then addReader u n else n.

(** [addReader] changes [readBy] alone. *)
Definition sameButReadBy (n n' : ServerNotification) : Prop :=
  id n' = id n ∧ type n' = type n ∧ title n' = title n
  ∧ message n' = message n ∧ data n' = data n
  ∧ recipients n' = recipients n ∧ createdAt n' = createdAt n.

End StoreNotions.

(** ** Notions used to state the properties of [TxEmail] *)

Section EngineNotions.
Import TxEmail.

(** The part of the state that a delivery attempt leaves alone. *)
Definition queues (st : State) :=
  (emailQueue st, isProcessingQueue st, persistedQueue st, nextJobId st,
   settled st, journal st).

(** The invariant of the batch loop over [n] recipients. *)
Definition loopInv (n : nat) (l : Loop) : Prop :=
  (index l ≤ n)%nat
  ∧ attempted (acc l) = n
  ∧ (hasErrors l = false →
       failed (acc l) = 0%nat ∧ errors (acc l) = [] ∧ sent (acc l) = index l)
  ∧ (hasErrors l = true → (0 < failed (acc l))%nat ∧ errors (acc l) ≠ []).

(** What a delivery attempt over [n] recipients can answer: a summary
    without failure in which all are sent, or an error that carries a
    summary with a failure. *)
Definition jobResult (n : nat) (r : EmailDeliverySummary + EmailSendError) : Prop :=
  match r with
  | inl s => failed s = 0%nat ∧ sent s = n ∧ attempted s = n
  | inr e => ∃ s, summary e = Some s ∧ (0 < failed s)%nat ∧ attempted s = n
  end.

(** The job that [sendEmail] makes of its arguments, and the state in
    which the drainer takes it up. *)
Definition jobOf (rcpts : list string) (subj bod : string)
    (ty : option MailType) (st : State) : EmailJob :=
  {| id := nextJobId st; j_recipients := rcpts; j_subject := subj;
     body := bod; type := ty |}.

Definition claimed (rcpts : list string) (subj bod : string)
    (ty : option MailType) (st : State) : State :=
  record [Claimed (nextJobId st)]
    (withQueue [] (withProcessing true (pushEmailJob rcpts subj bod ty st))).

(** The state once the job is settled with [r] in [st']. *)
Definition released (jobId : nat) (r : EmailDeliverySummary + EmailSendError)
    (st' : State) : State :=
  withProcessing false (removePersistedJob jobId (settle jobId r st')).

(** The life of the job in the journal. *)
Definition lifecycle (jobId : nat) : list QueueOp :=
  [Persisted jobId; Pushed jobId; Claimed jobId; Unpersisted jobId].

End EngineNotions.

(** ** Sample records, stores and environments *)


Definition audit_call (e : option string) : string * Audit.event :=
  ("2025-01-01T00:00:00.000Z",
   {| Audit.ev_action := Audit.created; Audit.ev_email := e;
      Audit.ev_daoId := Some "d1"; Audit.ev_memberName := Some "John";
      Audit.ev_message := None |}).

Definition note (i : string) (r : Store.Recipients) (readers : gset string)
    : Store.ServerNotification :=
  {| Store.id := i; Store.type := Store.dao_created; Store.title := "Nouveau DAO";
     Store.message := "DAO-2025-001"; Store.data := None; Store.recipients := r;
     Store.readBy := readers; Store.createdAt := "2025-01-01T00:00:00.000Z" |}.

Definition store_of (l : list Store.ServerNotification) : Store.State :=
  {| Store.notifications := l;
     Store.lastEmailErrorNotificationAt := 0;
     Store.lastEmailErrorNotificationCode := None |}.

Definition three_notes : Store.State :=
  store_of [ note "n3" Store.All ∅;
             note "n2" (Store.Ids ["bob"]) ∅;
             note "n1" (Store.Ids ["alice"; "bob"]) {[ "bob" ]} ].

Definition mirror_failure (code : string) (now : Z) : Store.failure :=
  {| Store.f_error := {| TxEmail.e_message := "Message failed";
                         TxEmail.e_code := Some code;
                         TxEmail.permanent := false;
                         TxEmail.summary := None |};
     Store.f_now := now;
     Store.f_newId := "srv_notif_1700000000000_k3x9qa";
     Store.f_stamp := "2023-11-14T22:13:20.000Z" |}.

Definition smtp_primary : TxEmail.Candidate :=
  {| TxEmail.name := "primary"; TxEmail.host := Some "smtp.example.com";
     TxEmail.user := Some "mailer"; TxEmail.pass := Some "secret" |}.

(** A primary provider that answers the probe; the batch size is the
    argument, everything else is left to its default. *)
Definition smtp_env (batch : option nat) : TxEmail.Env :=
  {| TxEmail.NODE_ENV := Some "production"; TxEmail.SMTP_DRY_RUN := None;
     TxEmail.SMTP_DISABLE := None; TxEmail.SMTP_MAX_CONCURRENT := None;
     TxEmail.SMTP_MAX_RETRY := None; TxEmail.SMTP_BATCH_SIZE := batch;
     TxEmail.candidates := [smtp_primary];
     TxEmail.verify := fun _ => None |}.

(** No provider is configured: the primary has neither host nor
    credentials and no fallback has a password. *)
Definition no_smtp_env : TxEmail.Env :=
  {| TxEmail.NODE_ENV := Some "production"; TxEmail.SMTP_DRY_RUN := None;
     TxEmail.SMTP_DISABLE := None; TxEmail.SMTP_MAX_CONCURRENT := None;
     TxEmail.SMTP_MAX_RETRY := None; TxEmail.SMTP_BATCH_SIZE := None;
     TxEmail.candidates :=
       [ {| TxEmail.name := "primary"; TxEmail.host := None;
            TxEmail.user := None; TxEmail.pass := None |};
         {| TxEmail.name := "sendgrid"; TxEmail.host := Some "smtp.sendgrid.net";
            TxEmail.user := Some "apikey"; TxEmail.pass := None |} ];
     TxEmail.verify := fun _ => Some "connect ECONNREFUSED" |}.

Definition engine_at_rest : TxEmail.State :=
  {| TxEmail.emailQueue := []; TxEmail.isProcessingQueue := false;
     TxEmail.persistedQueue := []; TxEmail.totalSent := 0; TxEmail.totalFailed := 0;
     TxEmail.emailEvents := []; TxEmail.lastTransportError := None;
     TxEmail.nextJobId := 0; TxEmail.settled := []; TxEmail.journal := [];
     TxEmail.mailLog := [] |}.

Definition mailbox_unavailable : TxEmail.SmtpError :=
  {| TxEmail.responseCode := Some 550; TxEmail.smtpCode := Some "EENVELOPE";
     TxEmail.smtpMessage := "550 5.1.1 mailbox unavailable" |}.

Definition timed_out : TxEmail.SmtpError :=
  {| TxEmail.responseCode := None; TxEmail.smtpCode := Some "ETIMEDOUT";
     TxEmail.smtpMessage := "Connection timeout" |}.

Definition two_recipients : TxEmail.To :=
  TxEmail.Many [Some "a@x.com"; Some "not-an-email"; Some "b@x.com"].

(** ** More of [services/txEmail.ts] *)

Module Html.

(** [s.replace(/c/g, by)] for a single character [c]. *)
Fixpoint replaceAll (c : ascii) (by_ : string) (s : string) : string :=
  match s with
  | EmptyString => EmptyString
  | String d s' =>
      if Ascii.eqb d c then by_ +:+ replaceAll c by_ s'
      else String d (replaceAll c by_ s')
  end.

(** The local [safeText] of [buildEmailHtml]:
    [(body || "").replace(/&/g, "&amp;").replace(/</g, "&lt;").replace(/>/g, "&gt;")] *)
Definition safeText (body : string) : string :=
  replaceAll ">" "&gt;" (replaceAll "<" "&lt;" (replaceAll "&" "&amp;" body)).

End Html.

Module Bulk.

(** [getAllUserEmails], on the e-mail fields of the users that
    [AuthService.getAllUsers()] answers ([None] when it throws). *)
Definition getAllUserEmails (users : option (list Email.raw)) : list string :=
  match users with
  | Some emails => Js.uniq (Email.valid (Email.partitionEmails emails))
  | None => []
  end.

(** The list that [emailAllUsers] hands to [sendEmail]; [adminEnv] is
    [process.env.ADMIN_EMAIL]. *)
Definition emailAllUsersList (users : option (list Email.raw))
    (adminEnv : option string) : list string :=
  let recipients := getAllUserEmails users in
  match Email.normalizeEmail (Some (Js.orElse adminEnv "")) with
  | Some admin => (recipients ++ [admin])%list
  | None => recipients
  end.

End Bulk.

(** ** More of [services/notificationService.ts] *)

Module Mirror.

(** Truthiness of a value of [data]. *)
Definition truthyValue (v : Store.DataValue) : bool :=
  match v with
  | Store.DBool b => b
  | Store.DStr s => Js.truthy s
  | Store.DNum n => negb (Nat.eqb n 0)
  end.

(** [data[key]]; in an object literal the last binding of a key wins. *)
Fixpoint get (key : string) (d : list (string * Store.DataValue))
    : option Store.DataValue :=
  match d with
  | [] => None
  | (k, v) :: d' =>
      match get key d' with
      | Some w => Some w
      | None => if String.eqb k key then Some v else None
      end
  end.

(** [item?.data && item.data?.skipEmailMirror]: the test on which
    [mirrorEmail] returns at once. *)
Definition skipEmailMirror (item : Store.ServerNotification) : bool :=
  match Store.data item with
  | Some d => match get "skipEmailMirror" d with
              | Some v => truthyValue v
              | None => false
              end
  | None => false
  end.

(** One call of the function retried by [retryAsync]. *)
Inductive attempt : Type :=
| Succeeds
| Fails (e : TxEmail.EmailSendError).

Inductive settled : Type :=
| Resolved
| Threw (e : option TxEmail.EmailSendError).

(** [Math.min(200 * Math.pow(2, i), 2000)] *)
Definition backoff (i : nat) : nat := Nat.min (200 * 2 ^ i) 2000.

(** [retryAsync(fn, attempts)] from the turn [i] of its loop on: the
    settlement, the number of calls of [fn] and the waits between them.
    The answers of [fn] are a script; [None] when it ends too early. *)
Fixpoint retryFrom (attempts i : nat) (script : list attempt)
    : option (settled * nat * list nat) :=
  if Nat.ltb i attempts then
    match script with
    | [] => None
    | Succeeds :: _ => Some (Resolved, 1, [])
    | Fails e :: rest =>
        if TxEmail.permanent e || Nat.eqb i (attempts - 1)
        then Some (Threw (Some e), 1, [])
        else match retryFrom attempts (S i) rest with
             | Some (r, calls, waits) => Some (r, S calls, backoff i :: waits)
             | None => None
             end
    end
  else Some (Threw None, 0, []).

Definition retryAsync (attempts : nat) (script : list attempt)
    : option (settled * nat * list nat) :=
  retryFrom attempts 0 script.

(** The answer of [AuthService.getUserById]: a user with its [email]
    field, no user, or an exception. *)
Inductive lookup : Type :=
| Found (email : Email.raw)
| NotFound
| Throws.

Record resolution : Type := {
  emails : list string;
  invalid : list Email.raw;
  missing : list string
}.

(** [emails.add(x)] on a [Set] kept in insertion order. *)
Definition setAdd (x : string) (l : list string) : list string :=
  if bool_decide (x ∈ l) then l else (l ++ [x])%list.

(** One turn of the loop of [resolveRecipientEmails]. *)
Definition resolveStep (getUserById : string -> lookup)
    (acc : resolution) (id : string) : resolution :=
  if negb (Js.truthy id) then acc
  else
    match getUserById id with
    | Throws => acc
    | NotFound =>
        {| emails := emails acc; invalid := invalid acc;
           missing := (missing acc ++ [id])%list |}
    | Found email =>
        match Email.normalizeEmail email with
        | Some normalized =>
            if Email.isValidEmail (Some normalized)
            then {| emails := setAdd normalized (emails acc);
                    invalid := invalid acc; missing := missing acc |}
            else {| emails := emails acc;
                    invalid := (invalid acc ++ [email])%list;
                    missing := missing acc |}
        | None =>
            {| emails := emails acc; invalid := (invalid acc ++ [email])%list;
               missing := missing acc |}
        end
    end.

Definition resolveRecipientEmails (getUserById : string -> lookup)
    (recipientIds : list string) : resolution :=
  fold_left (resolveStep getUserById) recipientIds
    {| emails := []; invalid := []; missing := [] |}.

(** [xs.map(normalizeEmail).filter(e => Boolean(e) && isValidEmail(e))] *)
Definition validEmails (xs : list Email.raw) : list string :=
  flat_map (fun x => match Email.normalizeEmail x with
                     | Some e => if Email.isValidEmail (Some e) then [e] else []
                     | None => []
                     end) xs.

(** [collectTeamEmails]; [None] when the notification names no record,
    the record is not found or has no team, or the lookup throws. *)
Definition collectTeamEmails (team : option (list Email.raw)) : list string :=
  match team with
  | Some members => Js.uniq (validEmails members)
  | None => []
  end.

(** The recipients of the mirror of a notification for ["all"]. *)
Definition broadcastRecipients (users : list Email.raw)
    (team : option (list Email.raw)) (adminEnv : option string) : list string :=
  let combined := Js.uniq (validEmails users ++ collectTeamEmails team) in
  match Email.normalizeEmail (Some (Js.orElse adminEnv "")) with
  | Some admin =>
      if Email.isValidEmail (Some admin) then setAdd admin combined else combined
  | None => combined
  end.

(** The recipients of the mirror of a notification for a list of
    users. *)
Definition targetedRecipients (getUserById : string -> lookup)
    (recipientIds : list string) (team : option (list Email.raw)) : list string :=
  let r := resolveRecipientEmails getUserById recipientIds in
  let merged := Js.uniq (emails r ++ collectTeamEmails team) in
  Email.valid (Email.partitionEmails (map Some merged)).

End Mirror.

Module Listing.

Record ClientNotification : Type := {
  id : string;
  type : Store.NotificationType;
  title : string;
  message : string;
  data : option (list (string * Store.DataValue));
  createdAt : string;
  read : bool
}.

Definition toClient (userId : string) (n : Store.ServerNotification)
    : ClientNotification :=
  {| id := Store.id n; type := Store.type n; title := Store.title n;
     message := Store.message n; data := Store.data n;
     createdAt := Store.createdAt n;
     read := bool_decide (userId ∈ Store.readBy n) |}.

(** [listForUser].  [sort] stands for [Array.prototype.sort] with the
    comparator [(a, b) => (a.createdAt < b.createdAt ? 1 : -1)], which
    answers [-1] on equal stamps: the order it leaves is the engine's. *)
Definition listForUser (sort : list Store.ServerNotification -> list Store.ServerNotification)
    (userId : string) (st : Store.State) : list ClientNotification :=
  map (toClient userId)
    (firstn 200 (sort (List.filter (Store.isRecipient userId) (Store.notifications st)))).

(** [broadcast] *)
Definition broadcast (broadcastAll : bool) (newId now : string)
    (ty : Store.NotificationType) (title message : string)
    (data : option (list (string * Store.DataValue))) (st : Store.State)
    : Store.ServerNotification * Store.State :=
  Store.add broadcastAll newId now
    {| Store.d_type := ty; Store.d_title := title; Store.d_message := message;
       Store.d_data := data; Store.d_recipients := Store.All |} st.

End Listing.

(** ** Notions used to state further properties *)

Section MoreNotions.

(** The entry that a call of [recordAutoUserEvent] stores. *)
Definition entryOf (c : string * Audit.event) : Audit.AutoUserAuditEntry :=
  {| Audit.ts := fst c;
     Audit.action := Audit.ev_action (snd c);
     Audit.emailMasked := Audit.maskEmail (Audit.ev_email (snd c));
     Audit.daoId := Audit.orNull (Audit.ev_daoId (snd c));
     Audit.memberName := Audit.orNull (Audit.ev_memberName (snd c));
     Audit.message := Audit.orNull (Audit.ev_message (snd c)) |}.

(** An address in normal form that passes the grammar. *)
Definition accepted (x : string) : Prop :=
  Email.normalizeEmail (Some x) = Some x
  ∧ Re.matches Email.EMAIL_REGEX x = true.

(** The transport rejects for good. *)
Definition permanentError (err : TxEmail.SmtpError) : Prop :=
  TxEmail.isTemporarySmtpError (TxEmail.errorCode err) (TxEmail.errorMessage err)
  = false.

(** A batch of a job: a slice of its recipients of the size that the
    loop takes at the index [i]. *)
Definition isBatchOf (env : TxEmail.Env) (rcpts : list string)
    (c : TxEmail.MailCall) : Prop :=
  ∃ i, (i < length rcpts)%nat
    ∧ TxEmail.bcc c
      = firstn (Nat.min (TxEmail.BATCH_SIZE env) (length rcpts - i)) (skipn i rcpts).

(** The summary carried by the answer of a delivery attempt. *)
Definition summaryOf (r : TxEmail.EmailDeliverySummary + TxEmail.EmailSendError)
    : option TxEmail.EmailDeliverySummary :=
  match r with
  | inl s => Some s
  | inr e => TxEmail.summary e
  end.

(** The recipients listed by the failures of a summary. *)
Definition listedFailed (s : TxEmail.EmailDeliverySummary) : nat :=
  fold_right Nat.add 0%nat (map (fun f => length (TxEmail.recipients f)) (TxEmail.errors s)).

(** The summary with which a dry run resolves a job. *)
Definition drySummary (job : TxEmail.EmailJob) : TxEmail.EmailDeliverySummary :=
  {| TxEmail.subject := TxEmail.j_subject job;
     TxEmail.attempted := length (TxEmail.j_recipients job);
     TxEmail.sent := length (TxEmail.j_recipients job);
     TxEmail.failed := 0; TxEmail.errors := [] |}.

(** The part of the classification that the code alone decides. *)
Definition codeIsTemporary (code : string) : bool :=
  let normalizedCode := Js.toUpperCase (Js.trim code) in
  bool_decide (normalizedCode ∈ TxEmail.temporaryCodes)
  || Re.matches TxEmail.RE_4XX normalizedCode
  || String.eqb normalizedCode "421".

(** A text that does not start with white space. *)
Definition startsClean (s : string) : Prop :=
  match s with
  | EmptyString => True
  | String c _ => Js.isSpace c = false
  end.

(** The character [c] occurs in [s]. *)
Fixpoint occurs (c : ascii) (s : string) : bool :=
  match s with
  | EmptyString => false
  | String d s' => Ascii.eqb d c || occurs c s'
  end.

(** The reply code [n] is of the class 4xx. *)
Definition is4xx (n : nat) : bool := Nat.leb 400 n && Nat.leb n 499.

(** What the drainer settles a queue with in a dry run, in order. *)
Definition drySettlements (q : list TxEmail.EmailJob)
    : list (nat * (TxEmail.EmailDeliverySummary + TxEmail.EmailSendError)) :=
  map (fun j => (TxEmail.id j, inl (drySummary j))) q.

Definition dryTotal (q : list TxEmail.EmailJob) : nat :=
  fold_right Nat.add 0%nat (map (fun j => length (TxEmail.j_recipients j)) q).

(** A candidate that [tryTransport] accepts. *)
Definition usable (env : TxEmail.Env) (excludeHosts : list string)
    (cfg : TxEmail.Candidate) : bool :=
  TxEmail.complete cfg
  && negb (bool_decide (default "" (TxEmail.host cfg) ∈ excludeHosts))
  && match TxEmail.verify env (default "" (TxEmail.host cfg)) with
     | None => true
     | Some _ => false
     end.

(** The check of one reply code. *)
Definition replyCodeChecked (n : nat) : bool :=
  Js.truthy (Js.toUpperCase (Js.trim (TxEmail.decimal n)))
  && Bool.eqb (codeIsTemporary (TxEmail.decimal n)) (is4xx n).

(** What a recipient id contributes to [resolveRecipientEmails]. *)
Definition isNotFound (l : Mirror.lookup) : bool :=
  match l with Mirror.NotFound => true | _ => false end.

End MoreNotions.

(** ** Notions used to state the properties of the mirroring and of
    the runs of the store *)

(** Where [resolveRecipientEmails] puts an id that is not empty. *)
Definition placed (getUserById : string -> Mirror.lookup) (id : string)
    (r : Mirror.resolution) : Prop :=
  match getUserById id with
  | Mirror.Found email =>
      match Email.normalizeEmail email with
      | Some e => if Email.isValidEmail (Some e) then In e (Mirror.emails r)
                  else In email (Mirror.invalid r)
      | None => In email (Mirror.invalid r)
      end
  | Mirror.NotFound => In id (Mirror.missing r)
  | Mirror.Throws => True
  end.

(** The calls that change the store. *)
Inductive storeCall : Type :=
| CallAdd (broadcastAll : bool) (newId now : string) (n : Store.draft)
| CallMarkRead (userId notifId : string)
| CallMarkAllRead (userId : string)
| CallClearAll
| CallMirrorFailure (interval : Z) (broadcastAll : bool) (f : Store.failure).

Definition call (c : storeCall) (st : Store.State) : Store.State :=
  match c with
  | CallAdd b i t n => snd (Store.add b i t n st)
  | CallMarkRead u i => snd (Store.markRead u i st)
  | CallMarkAllRead u => snd (Store.markAllRead u st)
  | CallClearAll => Store.clearAll st
  | CallMirrorFailure iv b f => snd (Store.onMirrorFailure iv b f st)
  end.

Definition calls (cs : list storeCall) (st : Store.State) : Store.State :=
  fold_left (fun s c => call c s) cs st.

(** Whoever has read a notification is one of its recipients. *)
Definition readersAreRecipients (st : Store.State) : Prop :=
  ∀ n u, In n (Store.notifications st) → u ∈ Store.readBy n →
    Store.isRecipient u n = true.

(** ** More sample data *)

Definition directory (id : string) : Mirror.lookup :=
  if String.eqb id "u1" then Mirror.Found (Some " Alice@Example.com ")
  else if String.eqb id "u2" then Mirror.Found (Some "bob-at-example")
  else if String.eqb id "u3" then Mirror.Throws
  else Mirror.NotFound.

Definition temporary_error : TxEmail.EmailSendError :=
  {| TxEmail.e_message := "Connection timeout"; TxEmail.e_code := Some "ETIMEDOUT";
     TxEmail.permanent := false; TxEmail.summary := None |}.

Definition dry_run_env : TxEmail.Env :=
  {| TxEmail.NODE_ENV := Some "production"; TxEmail.SMTP_DRY_RUN := Some "TRUE";
     TxEmail.SMTP_DISABLE := None; TxEmail.SMTP_MAX_CONCURRENT := Some 2;
     TxEmail.SMTP_MAX_RETRY := None; TxEmail.SMTP_BATCH_SIZE := None;
     TxEmail.candidates := []; TxEmail.verify := fun _ => None |}.

Definition queued (i : nat) (rcpts : list string) : TxEmail.EmailJob :=
  {| TxEmail.id := i; TxEmail.j_recipients := rcpts;
     TxEmail.j_subject := "Sujet"; TxEmail.body := "Contenu";
     TxEmail.type := None |}.

Definition three_queued : TxEmail.State :=
  TxEmail.withQueue
    [queued 0 ["a@x.com"; "b@x.com"]; queued 1 ["c@x.com"]; queued 2 ["d@x.com"]]
    engine_at_rest.

Definition welcome : Store.draft :=
  {| Store.d_type := Store.user_created; Store.d_title := "Bienvenue";
     Store.d_message := "Compte créé"; Store.d_data := None;
     Store.d_recipients := Store.Ids ["alice"] |}.


(** * Properties *)

(** ** Addresses *)

Section EmailFacts.
Import Email.

Lemma truthy_trim s : Js.truthy (Js.trim s) = true → Js.truthy s = true.
Proof. destruct s; [discriminate | reflexivity]. Qed.

Lemma normalizeEmail_Some v n :
  normalizeEmail v = Some n →
  ∃ s, v = Some s ∧ Js.truthy s = true ∧ n = Js.toLowerCase (Js.trim s).
Proof.
  destruct v as [s|]; simpl; [|discriminate].
  destruct (Js.truthy (Js.trim s)) eqn:Ht; [|discriminate].
  intros [= <-]. exists s. split; [reflexivity|]. split; [|reflexivity].
  by apply truthy_trim.
Qed.

Lemma normalizeEmail_None s :
  normalizeEmail (Some s) = None → Js.trim s = "".
Proof.
  simpl. destruct (Js.trim s); simpl; [reflexivity | discriminate].
Qed.

Lemma partitionStep_app acc v :
  partitionStep acc v =
  {| valid := (valid acc ++ validOf v)%list;
     invalid := (invalid acc ++ invalidOf v)%list |}.
Proof.
  unfold partitionStep, validOf, invalidOf.
  destruct (normalizeEmail v) as [n|].
  - destruct (Re.matches EMAIL_REGEX n); simpl; by rewrite app_nil_r.
  - destruct v as [s|]; [destruct (Js.truthy s)|]; destruct acc; simpl;
      by rewrite !app_nil_r.
Qed.

Lemma partition_fold inputs acc :
  fold_left partitionStep inputs acc =
  {| valid := (valid acc ++ flat_map validOf inputs)%list;
     invalid := (invalid acc ++ flat_map invalidOf inputs)%list |}.
Proof.
  revert acc. induction inputs as [|v inputs IH]; intros acc; simpl.
  - destruct acc; simpl; by rewrite !app_nil_r.
  - rewrite IH, partitionStep_app. simpl. by rewrite <- !app_assoc.
Qed.

Lemma partitionEmails_lists inputs :
  valid (partitionEmails inputs) = flat_map validOf inputs
  ∧ invalid (partitionEmails inputs) = flat_map invalidOf inputs.
Proof. unfold partitionEmails. rewrite partition_fold. done. Qed.

Lemma validOf_matches v x : In x (validOf v) → Re.matches EMAIL_REGEX x = true.
Proof.
  unfold validOf. destruct (normalizeEmail v) as [n|]; [|intros []].
  destruct (Re.matches EMAIL_REGEX n) eqn:Hm; [|intros []].
  intros [<-|[]]. exact Hm.
Qed.

Lemma invalidOf_matches v x : In x (invalidOf v) → Re.matches EMAIL_REGEX x = false.
Proof.
  unfold invalidOf. destruct (normalizeEmail v) as [n|] eqn:Hn.
  - destruct (Re.matches EMAIL_REGEX n) eqn:Hm; [intros []|].
    intros [<-|[]]. exact Hm.
  - destruct v as [s|]; [|intros []].
    destruct (Js.truthy s); [|intros []].
    intros [<-|[]]. by rewrite (normalizeEmail_None s Hn).
Qed.

Lemma validOf_invalidOf_length v :
  length (validOf v) + length (invalidOf v) = if Js.truthyOpt v then 1 else 0.
Proof.
  unfold validOf, invalidOf. destruct (normalizeEmail v) as [n|] eqn:Hn.
  - destruct (normalizeEmail_Some _ _ Hn) as (s & -> & Ht & _). simpl. rewrite Ht.
    by destruct (Re.matches EMAIL_REGEX n).
  - destruct v as [s|]; simpl; [|reflexivity]. by destruct (Js.truthy s).
Qed.

Lemma partition_count inputs :
  length (flat_map validOf inputs) + length (flat_map invalidOf inputs)
  = length (List.filter Js.truthyOpt inputs).
Proof.
  induction inputs as [|v inputs IH]; simpl; [reflexivity|].
  rewrite !length_app.
  pose proof (validOf_invalidOf_length v) as Hv.
  destruct (Js.truthyOpt v); simpl; lia.
Qed.

End EmailFacts.

(** C6. [partitionEmails] never puts a value in both lists: what is in
    [valid] passes the address grammar and what is in [invalid] fails
    it.  A truthy input is accounted for: when it normalises, its
    normal form is in [valid] if it passes the grammar and in [invalid]
    otherwise; when it does not, its trimmed echo is in [invalid].  The
    two lists hold one entry per truthy input, so that only [null],
    [undefined] and the empty string are dropped. *)
Theorem partitionEmails_accounts inputs :
  let p := Email.partitionEmails inputs in
  (∀ x, In x (Email.valid p) → ¬ In x (Email.invalid p))
  ∧ (∀ v, In v inputs → Js.truthyOpt v = true →
       match Email.normalizeEmail v with
       | Some n => if Re.matches Email.EMAIL_REGEX n
                   then In n (Email.valid p) else In n (Email.invalid p)
       | None => ∃ s, v = Some s ∧ In (Js.trim s) (Email.invalid p)
       end)
  ∧ length (Email.valid p) + length (Email.invalid p)
    = length (List.filter Js.truthyOpt inputs).
Proof.
  intros p. destruct (partitionEmails_lists inputs) as [Hv Hi].
  subst p. rewrite Hv, Hi. split; [|split].
  - intros x Hx Hx'.
    apply in_flat_map in Hx as (v & _ & Hx).
    apply in_flat_map in Hx' as (v' & _ & Hx').
    apply validOf_matches in Hx. apply invalidOf_matches in Hx'. congruence.
  - intros v Hin Ht.
    destruct (Email.normalizeEmail v) as [n|] eqn:Hn.
    + destruct (Re.matches Email.EMAIL_REGEX n) eqn:Hm;
        apply in_flat_map; exists v; (split; [exact Hin|]).
      * unfold validOf. rewrite Hn, Hm. by left.
      * unfold invalidOf. rewrite Hn, Hm. by left.
    + destruct v as [s|]; [|discriminate]. exists s. split; [reflexivity|].
      apply in_flat_map. exists (Some s). split; [exact Hin|].
      unfold invalidOf. rewrite Hn. simpl in Ht. rewrite Ht. by left.
  - apply partition_count.
Qed.

Lemma partitionEmails_accounts_witness :
  let inputs := [Some "a@x.com"; Some "not-an-email"; None; Some "  "; Some ""; Some "B@x.com"] in
  let p := Email.partitionEmails inputs in
  (In "a@x.com" (Email.valid p) → ¬ In "a@x.com" (Email.invalid p))
  ∧ match Email.normalizeEmail (Some "  ") with
    | Some n => if Re.matches Email.EMAIL_REGEX n
                then In n (Email.valid p) else In n (Email.invalid p)
    | None => ∃ s, Some "  " = Some s ∧ In (Js.trim s) (Email.invalid p)
    end
  ∧ length (Email.valid p) + length (Email.invalid p) = 4.
Proof.
  intros inputs p.
  destruct (partitionEmails_accounts inputs) as (Hd & Hc & Hl).
  split; [exact (Hd "a@x.com")|]. split; [|exact Hl].
  apply (Hc (Some "  ")); [|reflexivity].
  simpl. right. right. right. by left.
Defined.

(** ** Progress of a record *)

Section ProgressFacts.
Import Progress.




End ProgressFacts.



(** ** The audit log *)

Section AuditFacts.
Import Audit.

Lemma matchNotAt_localPart s :
  matchNotAt s = String.length (Spec.localPart s).
Proof.
  induction s as [|c s IH]; simpl; [reflexivity|].
  destruct (Ascii.eqb c "@"); simpl; congruence.
Qed.

Lemma drop_afterLocal s : drop (matchNotAt s) s = Spec.afterLocal s.
Proof.
  induction s as [|c s IH]; simpl; [reflexivity|].
  destruct (Ascii.eqb c "@"); simpl; congruence.
Qed.

Lemma localPart_afterLocal s : Spec.localPart (Spec.afterLocal s) = "".
Proof.
  induction s as [|c s IH]; simpl; [reflexivity|].
  destruct (Ascii.eqb c "@") eqn:E; simpl; [by rewrite E | exact IH].
Qed.

Lemma afterLocal_afterLocal s : Spec.afterLocal (Spec.afterLocal s) = Spec.afterLocal s.
Proof.
  induction s as [|c s IH]; simpl; [reflexivity|].
  destruct (Ascii.eqb c "@") eqn:E; simpl; [by rewrite E | exact IH].
Qed.

(** The replacement by the pattern is the masking of the local part. *)
Lemma replaceLocal_masked s : replaceLocal s = Spec.masked s.
Proof.
  unfold replaceLocal, Spec.masked.
  rewrite <- (drop_afterLocal s), matchNotAt_localPart.
  destruct (Spec.localPart s); reflexivity.
Qed.

Lemma masked_localPart s :
  Spec.localPart (Spec.masked s)
  = if Js.truthy (Spec.localPart s) then Spec.MASK else "".
Proof.
  unfold Spec.masked, Spec.MASK.
  destruct (Js.truthy (Spec.localPart s)).
  - change (String "*" (String "*" (String "*"
              (Spec.localPart (Spec.afterLocal s)))) = "***").
    by rewrite localPart_afterLocal.
  - change (Spec.localPart (Spec.afterLocal s) = "").
    apply localPart_afterLocal.
Qed.

Lemma masked_afterLocal s :
  Spec.afterLocal (Spec.masked s) = Spec.afterLocal s.
Proof.
  unfold Spec.masked, Spec.MASK.
  destruct (Js.truthy (Spec.localPart s));
    change (Spec.afterLocal (Spec.afterLocal s) = Spec.afterLocal s);
    apply afterLocal_afterLocal.
Qed.

Lemma recordAutoUserEvent_In now entry store rec :
  In rec (recordAutoUserEvent now entry store) →
  emailMasked rec = maskEmail (ev_email entry) ∨ In rec store.
Proof.
  unfold recordAutoUserEvent.
  set (r := {| ts := now; action := _ |}).
  intros H.
  assert (In rec (r :: store)) as [<-|Hin].
  { destruct (Nat.ltb CAPACITY (length (r :: store))); [|exact H].
    apply list_elem_of_In. apply list_elem_of_In in H.
    eapply (subseteq_take CAPACITY); exact H. }
  - left. reflexivity.
  - right. exact Hin.
Qed.

Lemma recordAutoUserEvent_length now entry store :
  (length (recordAutoUserEvent now entry store) ≤ CAPACITY)%nat.
Proof.
  unfold recordAutoUserEvent.
  destruct (Nat.ltb CAPACITY _) eqn:E.
  - rewrite length_take. lia.
  - apply Nat.ltb_ge in E. exact E.
Qed.

Lemma run_In calls : ∀ store rec,
  In rec (run calls store) →
  (∃ c, In c calls ∧ emailMasked rec = maskEmail (ev_email (snd c)))
  ∨ In rec store.
Proof.
  unfold run. induction calls as [|c calls IH]; intros store rec H; simpl in *.
  - by right.
  - destruct (IH _ _ H) as [(c' & Hc' & Hm)|Hin].
    + left. exists c'. split; [by right | exact Hm].
    + apply recordAutoUserEvent_In in Hin as [Hm|Hin]; [|by right].
      left. exists c. split; [by left | exact Hm].
Qed.

Lemma run_length calls : ∀ store,
  (length store ≤ CAPACITY)%nat → (length (run calls store) ≤ CAPACITY)%nat.
Proof.
  unfold run. induction calls as [|c calls IH]; intros store H; simpl.
  - exact H.
  - apply IH, recordAutoUserEvent_length.
Qed.

End AuditFacts.

(** C9. After any sequence of calls of [recordAutoUserEvent] on an
    empty log, the log holds at most 200 entries and every entry comes
    from a call whose address was masked before it was stored: the
    stored text is ["***@***"] for a missing or empty address, and
    otherwise the trimmed address with its local part, when it has one,
    replaced by ["***"], what follows the local part being kept.  So the
    local part of a stored text is the mask or is empty, whatever the
    local part supplied. *)
Theorem audit_entries_masked calls rec :
  In rec (Audit.run calls []) →
  (length (Audit.run calls []) ≤ 200)%nat
  ∧ ∃ c, In c calls
      ∧ match Audit.ev_email (snd c) with
        | Some v =>
            if Js.truthy v then
              Audit.emailMasked rec = Spec.masked (Js.trim v)
              ∧ Spec.localPart (Audit.emailMasked rec)
                = (if Js.truthy (Spec.localPart (Js.trim v)) then "***" else "")
              ∧ Spec.afterLocal (Audit.emailMasked rec)
                = Spec.afterLocal (Js.trim v)
            else Audit.emailMasked rec = "***@***"
        | None => Audit.emailMasked rec = "***@***"
        end.
Proof.
  intros Hin. split.
  - apply run_length. simpl. unfold Audit.CAPACITY. lia.
  - apply run_In in Hin as [(c & Hc & Hm)|[]].
    exists c. split; [exact Hc|].
    rewrite Hm. unfold Audit.maskEmail.
    destruct (Audit.ev_email (snd c)) as [v|]; [|reflexivity].
    destruct (Js.truthy v); [|reflexivity].
    rewrite replaceLocal_masked.
    split; [reflexivity|]. split; [apply masked_localPart | apply masked_afterLocal].
Qed.

Lemma audit_entries_masked_witness :
  let calls := [audit_call (Some " John.Doe@example.com "); audit_call None] in
  let rec := {| Audit.ts := "2025-01-01T00:00:00.000Z";
                Audit.action := Audit.created;
                Audit.emailMasked := "***@example.com";
                Audit.daoId := Some "d1";
                Audit.memberName := Some "John";
                Audit.message := None |} in
  (length (Audit.run calls []) ≤ 200)%nat
  ∧ ∃ c, In c calls
      ∧ match Audit.ev_email (snd c) with
        | Some v =>
            if Js.truthy v then
              Audit.emailMasked rec = Spec.masked (Js.trim v)
              ∧ Spec.localPart (Audit.emailMasked rec)
                = (if Js.truthy (Spec.localPart (Js.trim v)) then "***" else "")
              ∧ Spec.afterLocal (Audit.emailMasked rec)
                = Spec.afterLocal (Js.trim v)
            else Audit.emailMasked rec = "***@***"
        | None => Audit.emailMasked rec = "***@***"
        end.
Proof.
  intros calls rec.
  apply (audit_entries_masked calls rec).
  vm_compute. right. by left.
Defined.

(** ** The notification store *)

Section StoreFacts.
Import Store.

Lemma markAllReadLoop_spec u l : ∀ c,
  markAllReadLoop u l c
  = (c + length (List.filter (Spec.unreadBy u) l), map (markIfUnread u) l).
Proof.
  induction l as [|n l IH]; intros c; simpl.
  - f_equal. lia.
  - unfold markIfUnread at 1. fold (Spec.unreadBy u n).
    destruct (Spec.unreadBy u n); rewrite IH; simpl; f_equal; lia.
Qed.

Lemma unreadBy_markIfUnread u n : Spec.unreadBy u (markIfUnread u n) = false.
Proof.
  unfold markIfUnread. destruct (Spec.unreadBy u n) eqn:E; [|exact E].
  unfold Spec.unreadBy, isRecipient in *. simpl.
  apply andb_false_iff. right. apply negb_false_iff.
  apply bool_decide_eq_true. set_solver.
Qed.

Lemma filter_unread_marked u l :
  List.filter (Spec.unreadBy u) (map (markIfUnread u) l) = [].
Proof.
  induction l as [|n l IH]; simpl; [reflexivity|].
  by rewrite unreadBy_markIfUnread.
Qed.

Lemma map_marked_marked u l :
  map (markIfUnread u) (map (markIfUnread u) l) = map (markIfUnread u) l.
Proof.
  induction l as [|n l IH]; simpl; [reflexivity|]. rewrite IH. f_equal.
  unfold markIfUnread at 1. by rewrite unreadBy_markIfUnread.
Qed.

Lemma markAllRead_spec u st :
  markAllRead u st
  = (length (List.filter (Spec.unreadBy u) (notifications st)),
     withNotifications (map (markIfUnread u) (notifications st)) st).
Proof. unfold markAllRead. rewrite markAllReadLoop_spec. reflexivity. Qed.

Lemma filter_nonempty {A} (P : A → bool) l x :
  In x l → P x = true → (0 < length (List.filter P l))%nat.
Proof.
  intros Hin HP. assert (In x (List.filter P l)) as H by (by apply filter_In).
  destruct (List.filter P l); [destruct H | simpl; lia].
Qed.

End StoreFacts.

(** C7. When some notification visible to [u] is unread by [u], a first
    [markAllRead u] returns a positive count and a second one, with no
    change to the store in between, returns [0] and leaves the store as
    it is.  The first call adds [u] to [readBy] of the notifications
    that [u] may see and had not read, touches no other, and returns
    their number; after it none is unread by [u]. *)
Theorem markAllRead_twice u st :
  (∃ n, In n (Store.notifications st) ∧ Spec.unreadBy u n = true) →
  let first := Store.markAllRead u st in
  let second := Store.markAllRead u (snd first) in
  (0 < fst first)%nat
  ∧ fst second = 0%nat
  ∧ snd second = snd first
  ∧ fst first = length (List.filter (Spec.unreadBy u) (Store.notifications st))
  ∧ Store.notifications (snd first)
    = map (fun n => if Spec.unreadBy u n then Store.addReader u n else n)
          (Store.notifications st)
  ∧ (∀ n, In n (Store.notifications (snd first)) → Spec.unreadBy u n = false).
Proof.
  intros (n & Hin & Hn). intros first second. subst first second.
  rewrite !markAllRead_spec. simpl.
  rewrite filter_unread_marked, map_marked_marked. simpl.
  split; [by eapply filter_nonempty|]. split; [reflexivity|].
  split; [reflexivity|]. split; [reflexivity|]. split; [reflexivity|].
  intros m Hm. apply in_map_iff in Hm as (m' & <- & _).
  apply unreadBy_markIfUnread.
Qed.

Lemma markAllRead_twice_witness :
  let first := Store.markAllRead "alice" three_notes in
  let second := Store.markAllRead "alice" (snd first) in
  fst first = 2%nat ∧ (0 < fst first)%nat ∧ fst second = 0%nat
  ∧ snd second = snd first.
Proof.
  assert (∃ n, In n (Store.notifications three_notes)
               ∧ Spec.unreadBy "alice" n = true) as H.
  { exists (note "n3" Store.All ∅). split; [by left | reflexivity]. }
  destruct (markAllRead_twice "alice" three_notes H) as (H1 & H2 & H3 & H4 & _).
  split; [|split; [exact H1 | split; [exact H2 | exact H3]]].
  rewrite H4. reflexivity.
Defined.

Section MarkReadFacts.
Import Store.

Lemma sameButReadBy_refl n : sameButReadBy n n.
Proof. by repeat split. Qed.

Lemma sameButReadBy_addReader u n : sameButReadBy n (addReader u n).
Proof. by repeat split. Qed.

Lemma markRead_cases u nid st :
  (markRead u nid st = (false, st))
  ∨ (∃ k n, notifications st !! k = Some n ∧ id n = nid
            ∧ isRecipient u n = true
            ∧ (∀ j m, notifications st !! j = Some m → (j < k)%nat → id m ≠ nid)
            ∧ markRead u nid st
              = (true, withNotifications (<[k := addReader u n]> (notifications st)) st)).
Proof.
  unfold markRead.
  destruct (list_find (fun n => id n = nid) (notifications st)) as [[k n]|] eqn:E;
    [|by left].
  apply list_find_Some in E as (Hk & Hid & Hfirst).
  destruct (isRecipient u n) eqn:Hr; simpl; [|by left].
  right. exists k, n. repeat split; try done.
Qed.

End MarkReadFacts.

(** C10. [markRead u id] keeps the length and the order of the list and
    the cool-down variables.  When it returns [false] the store is
    unchanged.  When it returns [true] the list differs from the former
    one at one index only, the first whose notification bears [id]:
    there [u] is added to [readBy].  In both cases every notification
    keeps its [id], [type], [title], [message], [data], [recipients] and
    [createdAt], and is left as it was unless it is the one marked. *)
Theorem markRead_frame u nid st :
  let r := Store.markRead u nid st in
  length (Store.notifications (snd r)) = length (Store.notifications st)
  ∧ Store.lastEmailErrorNotificationAt (snd r) = Store.lastEmailErrorNotificationAt st
  ∧ Store.lastEmailErrorNotificationCode (snd r) = Store.lastEmailErrorNotificationCode st
  ∧ (fst r = false → snd r = st)
  ∧ (fst r = true →
       ∃ k n, Store.notifications st !! k = Some n
         ∧ Store.id n = nid
         ∧ Store.isRecipient u n = true
         ∧ (∀ j m, Store.notifications st !! j = Some m → (j < k)%nat → Store.id m ≠ nid)
         ∧ Store.notifications (snd r) = <[k := Store.addReader u n]> (Store.notifications st))
  ∧ (∀ i n, Store.notifications st !! i = Some n →
       ∃ n', Store.notifications (snd r) !! i = Some n'
         ∧ sameButReadBy n n'
         ∧ (n' = n
            ∨ (fst r = true ∧ Store.id n = nid
               ∧ Store.readBy n' = {[ u ]} ∪ Store.readBy n))).
Proof.
  intros r. subst r.
  destruct (markRead_cases u nid st) as [->|(k & n & Hk & Hid & Hr & Hfirst & ->)]; simpl.
  - repeat split; try done.
    intros i n Hn. exists n. split; [exact Hn|].
    split; [apply sameButReadBy_refl | by left].
  - split; [apply length_insert|]. repeat split; try done.
    + exists k, n. by repeat split.
    + intros i m Hm. destruct (decide (i = k)) as [->|Hne].
      * assert (m = n) as -> by congruence.
        exists (Store.addReader u n). split.
        { apply list_lookup_insert_eq. by eapply lookup_lt_Some. }
        split; [apply sameButReadBy_addReader|]. right. by repeat split.
      * exists m. split; [by rewrite list_lookup_insert_ne|].
        split; [apply sameButReadBy_refl | by left].
Qed.

Lemma markRead_frame_witness :
  let r := Store.markRead "alice" "n1" three_notes in
  fst r = true
  ∧ snd (Store.markRead "alice" "n2" three_notes) = three_notes
  ∧ (∃ k n, Store.notifications three_notes !! k = Some n
        ∧ Store.id n = "n1"
        ∧ Store.isRecipient "alice" n = true
        ∧ (∀ j m, Store.notifications three_notes !! j = Some m → (j < k)%nat
                  → Store.id m ≠ "n1")
        ∧ Store.notifications (snd r)
          = <[k := Store.addReader "alice" n]> (Store.notifications three_notes))
  ∧ ∃ n', Store.notifications (snd r) !! 0%nat = Some n'
        ∧ sameButReadBy (note "n3" Store.All ∅) n'
        ∧ (n' = note "n3" Store.All ∅
           ∨ (fst r = true ∧ Store.id (note "n3" Store.All ∅) = "n1"
              ∧ Store.readBy n' = {[ "alice" ]} ∪ Store.readBy (note "n3" Store.All ∅))).
Proof.
  intros r.
  destruct (markRead_frame "alice" "n1" three_notes) as (_ & _ & _ & _ & Ht & Hall).
  destruct (markRead_frame "alice" "n2" three_notes) as (_ & _ & _ & Hf & _).
  split; [reflexivity|]. split; [apply Hf; reflexivity|].
  split; [apply Ht; reflexivity|].
  apply (Hall 0%nat (note "n3" Store.All ∅)). reflexivity.
Defined.

Section CooldownFacts.
Import Store.

Lemma interval_positive env : (5 * 60 * 1000 ≤ EMAIL_ERROR_NOTIFY_INTERVAL_MS env)%Z.
Proof. unfold EMAIL_ERROR_NOTIFY_INTERVAL_MS. lia. Qed.

Lemma add_cooldown bc i now d st :
  lastEmailErrorNotificationAt (snd (add bc i now d st)) = lastEmailErrorNotificationAt st
  ∧ lastEmailErrorNotificationCode (snd (add bc i now d st)) = lastEmailErrorNotificationCode st
  ∧ type (fst (add bc i now d st)) = d_type d
  ∧ data (fst (add bc i now d st)) = d_data d.
Proof. by repeat split. Qed.

(** The two ways of the [catch] block. *)
Lemma onMirrorFailure_cases interval bc f st :
  let c := codeOf (f_error f) in
  (lastEmailErrorNotificationCode st = Some c
   ∧ (f_now f - lastEmailErrorNotificationAt st < interval)%Z
   ∧ onMirrorFailure interval bc f st = (None, st))
  ∨ ((lastEmailErrorNotificationCode st ≠ Some c
      ∨ (interval ≤ f_now f - lastEmailErrorNotificationAt st)%Z)
     ∧ ∃ item st', onMirrorFailure interval bc f st = (Some item, st')
         ∧ lastEmailErrorNotificationAt st' = f_now f
         ∧ lastEmailErrorNotificationCode st' = Some c
         ∧ type item = system
         ∧ data item = Some (errorData (f_error f))).
Proof.
  intros c. unfold onMirrorFailure, shouldNotifyEmailError. fold c.
  destruct (bool_decide (lastEmailErrorNotificationCode st = Some c)) eqn:Hc;
    [destruct (f_now f - lastEmailErrorNotificationAt st <? interval)%Z eqn:Ht|];
    simpl.
  - left. apply bool_decide_eq_true in Hc. apply Z.ltb_lt in Ht. done.
  - right. apply Z.ltb_ge in Ht. split; [by right|].
    eexists _, _. split; [reflexivity|]. by repeat split.
  - right. apply bool_decide_eq_false in Hc. split; [by left|].
    eexists _, _. split; [reflexivity|]. by repeat split.
Qed.

(** After a notification for [c] at time [t], a run of failures with
    the code [c] notifies again only from [t + interval] on. *)
Lemma run_after_notification interval bc c fs :
  (0 < interval)%Z →
  (∀ f, In f fs → codeOf (f_error f) = c) →
  ∀ st j fj nj,
    lastEmailErrorNotificationCode st = Some c →
    fs !! j = Some fj →
    fst (mirrorFailures interval bc fs st) !! j = Some (Some nj) →
    (lastEmailErrorNotificationAt st + interval ≤ f_now fj)%Z.
Proof.
  intros Hpos. induction fs as [|f fs IH]; intros Hc st j fj nj Hst Hj Hout;
    [done|].
  assert (codeOf (f_error f) = c) as Hf by (apply Hc; by left).
  assert (∀ g, In g fs → codeOf (f_error g) = c) as Hc' by (intros; apply Hc; by right).
  simpl in Hout.
  destruct (onMirrorFailure_cases interval bc f st)
    as [(_ & Hlt & E)|([Hne|Hge] & item & st' & E & Hat & Hcode & _)];
    rewrite E in Hout;
    destruct (mirrorFailures interval bc fs _) as [os st2] eqn:Erest;
    simpl in Hout.
  - destruct j as [|j]; [done|]. simpl in Hj, Hout.
    eapply (IH Hc' st j fj nj); try done. by rewrite Erest.
  - congruence.
  - destruct j as [|j]; simpl in Hj, Hout.
    + injection Hj as <-. lia.
    + assert (lastEmailErrorNotificationAt st' + interval ≤ f_now fj)%Z.
      { eapply (IH Hc' st' j fj nj); try done; [congruence | by rewrite Erest]. }
      lia.
Qed.

End CooldownFacts.

(** C3, as the code has it.  The cool-down remembers the code of the
    last notification only.  In a sequence of mirroring failures that
    all carry the same code, two failures that both produce a system
    notification are at least the interval apart, so that a window
    holds one notification at most.  A failure with the code of the last
    notification, less than the interval after it, produces none and
    leaves the state as it is; a failure with another code always
    produces one (of type [system], exempt from mirroring) and starts
    the window of its own code. *)
Theorem cooldown_same_code_window env bc fs st :
  let interval := Store.EMAIL_ERROR_NOTIFY_INTERVAL_MS env in
  let out := fst (Store.mirrorFailures interval bc fs st) in
  (∀ c i j fi fj ni nj,
     (∀ f, In f fs → Store.codeOf (Store.f_error f) = c) →
     (i < j)%nat → fs !! i = Some fi → fs !! j = Some fj →
     out !! i = Some (Some ni) → out !! j = Some (Some nj) →
     (Store.f_now fi + interval ≤ Store.f_now fj)%Z)
  ∧ (∀ f s,
       Store.lastEmailErrorNotificationCode s = Some (Store.codeOf (Store.f_error f)) →
       (Store.f_now f - Store.lastEmailErrorNotificationAt s < interval)%Z →
       Store.onMirrorFailure interval bc f s = (None, s))
  ∧ (∀ f s,
       Store.lastEmailErrorNotificationCode s ≠ Some (Store.codeOf (Store.f_error f)) →
       ∃ item s', Store.onMirrorFailure interval bc f s = (Some item, s')
         ∧ Store.type item = Store.system
         ∧ In ("skipEmailMirror", Store.DBool true) (default [] (Store.data item))
         ∧ Store.lastEmailErrorNotificationAt s' = Store.f_now f
         ∧ Store.lastEmailErrorNotificationCode s'
           = Some (Store.codeOf (Store.f_error f))).
Proof.
  intros interval out.
  assert (0 < interval)%Z as Hpos
    by (pose proof (interval_positive env); subst interval; lia).
  split; [|split].
  - subst out. revert st. induction fs as [|f fs IH];
      intros st c i j fi fj ni nj Hc Hij Hi Hj Hoi Hoj; [done|].
    assert (∀ g, In g fs → Store.codeOf (Store.f_error g) = c) as Hc'
      by (intros; apply Hc; by right).
    destruct j as [|j]; [lia|].
    simpl in Hoi, Hoj.
    destruct (Store.onMirrorFailure interval bc f st) as [o st1] eqn:E.
    destruct (Store.mirrorFailures interval bc fs st1) as [os st2] eqn:Erest.
    simpl in Hoi, Hoj, Hj.
    destruct i as [|i]; simpl in Hi, Hoi.
    + injection Hi as <-. injection Hoi as ->.
      destruct (onMirrorFailure_cases interval bc f st)
        as [(_ & _ & E')|(_ & item & st' & E' & Hat & Hcode & _)];
        rewrite E' in E; [congruence|].
      injection E as _ <-.
      rewrite <- Hat.
      eapply (run_after_notification interval bc c fs Hpos Hc' st' j fj nj);
        [rewrite Hcode; f_equal; apply Hc; by left | exact Hj | by rewrite Erest].
    + eapply (IH st1 c i j fi fj ni nj); try done; [lia | by rewrite Erest..].
  - intros f s Hcode Hlt.
    destruct (onMirrorFailure_cases interval bc f s)
      as [(_ & _ & E)|([Hne|Hge] & _)]; [exact E | done | lia].
  - intros f s Hne.
    destruct (onMirrorFailure_cases interval bc f s)
      as [(Hc & _)|(_ & item & s' & E & Hat & Hcode & Hty & Hdata)]; [done|].
    exists item, s'. repeat split; try done.
    rewrite Hdata. simpl. by left.
Qed.

Lemma cooldown_same_code_window_witness :
  let interval := Store.EMAIL_ERROR_NOTIFY_INTERVAL_MS None in
  let f0 := mirror_failure "554" 1700000000000 in
  let f1 := mirror_failure "554" 1700000001000 in
  let f2 := mirror_failure "554" 1700000700000 in
  let g := mirror_failure "421" 1700000001000 in
  let s := snd (Store.onMirrorFailure interval false f0 (store_of [])) in
  (Store.f_now f0 + interval ≤ Store.f_now f2)%Z
  ∧ Store.onMirrorFailure interval false f1 s = (None, s)
  ∧ ∃ item s', Store.onMirrorFailure interval false g s = (Some item, s')
      ∧ Store.type item = Store.system
      ∧ In ("skipEmailMirror", Store.DBool true) (default [] (Store.data item))
      ∧ Store.lastEmailErrorNotificationAt s' = Store.f_now g
      ∧ Store.lastEmailErrorNotificationCode s' = Some (Store.codeOf (Store.f_error g)).
Proof.
  intros interval f0 f1 f2 g s.
  destruct (cooldown_same_code_window None false [f0; f1; f2] (store_of []))
    as (Hwin & Hsup & Hnew).
  split; [|split].
  - eapply (Hwin "554" 0%nat 2%nat f0 f2); try reflexivity.
    + intros f [<-|[<-|[<-|[]]]]; reflexivity.
    + lia.
  - apply Hsup; [reflexivity | vm_compute; reflexivity].
  - apply Hnew. discriminate.
Defined.

(** C3, as stated, fails: the failures carry the codes 554, 421, 554 at
    one second from one another; the third has the code of the first
    and comes well within its window, and yet both are notified. *)
Lemma cooldown_interleaved_counterexample :
  let interval := Store.EMAIL_ERROR_NOTIFY_INTERVAL_MS None in
  let f0 := mirror_failure "554" 1700000000000 in
  let f1 := mirror_failure "421" 1700000001000 in
  let f2 := mirror_failure "554" 1700000002000 in
  let out := fst (Store.mirrorFailures interval false [f0; f1; f2] (store_of [])) in
  Store.codeOf (Store.f_error f0) = Store.codeOf (Store.f_error f2)
  ∧ (Store.f_now f2 - Store.f_now f0 < interval)%Z
  ∧ ∃ n0 n2, out !! 0%nat = Some (Some n0) ∧ out !! 2%nat = Some (Some n2).
Proof.
  split; [reflexivity|]. split; [vm_compute; reflexivity|].
  eexists _, _. split; reflexivity.
Qed.

(** ** The delivery engine *)

Section EngineFacts.
Import TxEmail.

Lemma BATCH_SIZE_pos env : (1 ≤ BATCH_SIZE env)%nat.
Proof. unfold BATCH_SIZE. lia. Qed.

Lemma MAX_CONCURRENT_pos env : ∃ k, MAX_CONCURRENT env = S k.
Proof.
  unfold MAX_CONCURRENT. destruct (Nat.max 1 _) eqn:E; [lia | by eexists].
Qed.

Lemma getTransport_queues env excl st :
  queues (snd (getTransport env excl st)) = queues st
  ∧ mailLog (snd (getTransport env excl st)) = mailLog st.
Proof.
  unfold getTransport. destruct (flag (SMTP_DISABLE env)); [done|].
  destruct (tryCandidates env excl (candidates env) [] None) as [?|[? [?|]]]; done.
Qed.

Lemma getTransport_fst env excl st st' :
  fst (getTransport env excl st) = fst (getTransport env excl st').
Proof.
  unfold getTransport. destruct (flag (SMTP_DISABLE env)); [done|].
  destruct (tryCandidates env excl (candidates env) [] None) as [?|[? [?|]]]; done.
Qed.

Lemma batch_length (rcpts : list string) b i :
  (1 ≤ b)%nat → (i < length rcpts)%nat →
  let eff := Nat.min b (length rcpts - i) in
  length (firstn eff (skipn i rcpts)) = eff ∧ (1 ≤ eff)%nat ∧ (i + eff ≤ length rcpts)%nat.
Proof.
  intros Hb Hi eff. subst eff.
  rewrite length_take, length_drop. lia.
Qed.

Lemma sendBatches_inv env rcpts subj : ∀ wire l st l' wire' st',
  loopInv (length rcpts) l →
  sendBatches env rcpts subj wire l st = Some (l', wire', st') →
  loopInv (length rcpts) l' ∧ (length rcpts ≤ index l')%nat
  ∧ queues st' = queues st.
Proof.
  induction wire as [|answer wire IH]; intros l st l' wire' st' Hinv H;
    cbn [sendBatches] in H;
    destruct (Nat.ltb (index l) (length rcpts)) eqn:Hlt.
  - discriminate.
  - apply Nat.ltb_ge in Hlt. by injection H as <- <- <-.
  - apply Nat.ltb_lt in Hlt.
    destruct (batch_length rcpts (BATCH_SIZE env) (index l) (BATCH_SIZE_pos env) Hlt)
      as (Hlen & Heff & Hle).
    destruct Hinv as (Hidx & Hatt & Hok & Hko).
    destruct answer as [|err].
    + apply IH in H as (? & ? & Hq); [done|].
      unfold loopInv, batchSent; simpl. rewrite Hlen.
      split; [lia|]. split; [done|]. split.
      * intros He. destruct (Hok He) as (? & ? & ?). repeat split; try done. lia.
      * intros He. destruct (Hko He). done.
    + destruct (isTemporarySmtpError (errorCode err) (errorMessage err)).
      * destruct (getTransport env _ _) as [next st2] eqn:Eg.
        apply IH in H as (? & ? & Hq).
        { split; [done|]. split; [done|]. rewrite Hq.
          pose proof (getTransport_queues env
            (excludedHosts l ++ [t_host (currentTransportMeta l)])%list
            (logEvent {| ev_subject := subj;
                         toCount := length (firstn (Nat.min (BATCH_SIZE env) (length rcpts - index l)) (skipn (index l) rcpts));
                         success := false;
                         error := Some (errorCode err +:+ ": " +:+ errorMessage err) |}
               (withTransportError (Some (errorMessage err))
                  (logCall {| via := t_host (currentTransportMeta l);
                              bcc := firstn (Nat.min (BATCH_SIZE env) (length rcpts - index l)) (skipn (index l) rcpts) |} st)))) as [Hg _].
          simpl in Eg. rewrite Eg in Hg. simpl in Hg. exact Hg. }
        unfold loopInv, retryWith, batchFailed; simpl. rewrite Hlen.
        split; [lia|]. split; [done|]. split; [done|].
        intros _. split; [lia|]. by destruct (errors (acc l)).
      * apply IH in H as (? & ? & Hq); [done|].
        unfold loopInv, skipBatch, batchFailed; simpl. rewrite Hlen.
        split; [lia|]. split; [done|]. split; [done|].
        intros _. split; [lia|]. by destruct (errors (acc l)).
  - apply Nat.ltb_ge in Hlt. by injection H as <- <- <-.
Qed.

Lemma deliverEmailJob_result env rcpts subj ty wire st r wire' st' :
  deliverEmailJob env rcpts subj ty wire st = Some (r, wire', st') →
  (rcpts ≠ [] → jobResult (length rcpts) r) ∧ queues st' = queues st.
Proof.
  intros H. unfold deliverEmailJob in H.
  destruct (isDryRunEnabled env).
  { injection H as <- <- <-. by repeat split. }
  pose proof (getTransport_queues env [] st) as [Hg _].
  destruct (getTransport env [] st) as [[meta|] st1]; simpl in Hg.
  - destruct (sendBatches env rcpts subj wire _ st1) as [[[l w] st2]|] eqn:Es;
      [|discriminate].
    apply sendBatches_inv in Es as ((Hidx & Hatt & Hok & Hko) & Hend & Hq).
    2:{ split; [simpl; lia|]. split; [done|]. split; [done|]. discriminate. }
    destruct (hasErrors l) eqn:He.
    + destruct (Hko eq_refl) as (Hf & Herr).
      destruct (errors (acc l)) as [|primary rest] eqn:Eerr; [done|].
      injection H as <- <- <-. split; [|by rewrite <- Hg, <- Hq].
      intros _. simpl. exists (acc l). done.
    + destruct (Hok eq_refl) as (Hf & Herr & Hs).
      injection H as <- <- <-. split; [|by rewrite <- Hg, <- Hq].
      intros _. simpl. repeat split; try done. lia.
  - injection H as <- <- <-. split; [|by rewrite <- Hg].
    intros Hne. simpl. eexists. split; [reflexivity|]. simpl. split; [|done].
    destruct rcpts; [done | simpl; lia].
Qed.

Lemma deliverWithRetry_result env job : ∀ fuel attempt wire st r wire' st',
  deliverWithRetry fuel env job attempt wire st = Some (r, wire', st') →
  (j_recipients job ≠ [] → jobResult (length (j_recipients job)) r)
  ∧ queues st' = queues st.
Proof.
  induction fuel as [|fuel IH]; intros attempt wire st r wire' st' H;
    cbn [deliverWithRetry] in H;
    destruct (deliverEmailJob env (j_recipients job) (j_subject job) (type job) wire st)
      as [[[[s|err] w1] st1]|] eqn:Ed; try discriminate;
    pose proof (deliverEmailJob_result _ _ _ _ _ _ _ _ _ Ed) as [Hr Hq].
  - by injection H as <- <- <-.
  - destruct (Nat.ltb attempt (MAX_RETRY env) && negb (permanent err));
      [discriminate|]. by injection H as <- <- <-.
  - by injection H as <- <- <-.
  - destruct (Nat.ltb attempt (MAX_RETRY env) && negb (permanent err)).
    + apply IH in H as [? Hq']. split; [done|]. by rewrite Hq'.
    + by injection H as <- <- <-.
Qed.

(** A retry needs [attempt < MAX_RETRY], so that [MAX_RETRY - attempt]
    units of fuel are never used up. *)
Lemma deliverWithRetry_fuel env job : ∀ fuel attempt wire st,
  (MAX_RETRY env ≤ attempt + fuel)%nat →
  deliverWithRetry fuel env job attempt wire st = None →
  ∃ w s,
    deliverEmailJob env (j_recipients job) (j_subject job) (type job) w s = None.
Proof.
  induction fuel as [|fuel IH]; intros attempt wire st Hfuel H;
    cbn [deliverWithRetry] in H;
    destruct (deliverEmailJob env (j_recipients job) (j_subject job) (type job) wire st)
      as [[[[s|err] w1] st1]|] eqn:Ed; try discriminate.
  - destruct (Nat.ltb attempt (MAX_RETRY env)) eqn:Hlt; simpl in H; [|discriminate].
    apply Nat.ltb_lt in Hlt. lia.
  - by exists wire, st.
  - destruct (Nat.ltb attempt (MAX_RETRY env) && negb (permanent err));
      [|discriminate].
    apply IH in H; [exact H | lia].
  - by exists wire, st.
Qed.

Lemma settlement_app jobId r l :
  settlement jobId l = None → settlement jobId (l ++ [(jobId, r)]) = Some r.
Proof.
  induction l as [|[i x] l IH]; simpl.
  - by rewrite Nat.eqb_refl.
  - destruct (Nat.eqb i jobId); [discriminate | exact IH].
Qed.

Lemma list_find_fresh (job : EmailJob) pq :
  Forall (fun j => id j ≠ id job) pq →
  list_find (fun item => id item = id job) (pq ++ [job])%list = Some (length pq, job)
  ∧ delete (length pq) (pq ++ [job])%list = pq.
Proof.
  intros Hfresh. split.
  - apply list_find_Some. split; [|split].
    + rewrite lookup_app_r by lia. by rewrite Nat.sub_diag.
    + done.
    + intros j y Hy Hlt. rewrite lookup_app_l in Hy by done.
      rewrite Forall_forall in Hfresh. apply Hfresh.
      by eapply list_elem_of_lookup_2.
  - induction pq as [|x pq IH]; simpl; [done|].
    f_equal. apply IH. by inversion Hfresh.
Qed.

Lemma enqueueEmailJob_atRest env rcpts subj bod ty wire st :
  Spec.atRest st →
  enqueueEmailJob env rcpts subj bod ty wire st =
  match deliverWithRetry (MAX_RETRY env) env (jobOf rcpts subj bod ty st) 1 wire
          (claimed rcpts subj bod ty st) with
  | None => None
  | Some (r, wire', st') => Some (r, wire', released (nextJobId st) r st')
  end.
Proof.
  intros (Hidle & Hq & Hset & Hfresh).
  unfold enqueueEmailJob, processQueue.
  assert (isProcessingQueue (pushEmailJob rcpts subj bod ty st) = false) as ->
    by exact Hidle.
  assert (emailQueue (pushEmailJob rcpts subj bod ty st)
          = [jobOf rcpts subj bod ty st]) as Hpq.
  { unfold pushEmailJob. simpl. by rewrite Hq. }
  rewrite Hpq. cbn [length drain].
  assert (emailQueue (withProcessing true (pushEmailJob rcpts subj bod ty st))
          = [jobOf rcpts subj bod ty st]) as -> by exact Hpq.
  destruct (MAX_CONCURRENT_pos env) as [k ->].
  cbn [firstn skipn]. rewrite take_nil, drop_nil.
  cbn [map runJobs]. unfold runJob.
  change (id (jobOf rcpts subj bod ty st)) with (nextJobId st).
  fold (claimed rcpts subj bod ty st).
  destruct (deliverWithRetry (MAX_RETRY env) env (jobOf rcpts subj bod ty st) 1 wire
              (claimed rcpts subj bod ty st)) as [[[r w] st1]|] eqn:Ed;
    [|reflexivity].
  assert (queues st1 = queues (claimed rcpts subj bod ty st)) as Hqs
    by (by apply deliverWithRetry_result in Ed as [_ ?]).
  unfold queues in Hqs. injection Hqs as Hq1 Hp1 Hpe1 Hn1 Hs1 Hj1.
  assert (emailQueue (removePersistedJob (nextJobId st) (settle (nextJobId st) r st1)) = [])
    as Hempty.
  { unfold removePersistedJob.
    destruct (list_find _ _) as [[? ?]|]; simpl; exact Hq1. }
  rewrite Hempty.
  assert (settled (withProcessing false
            (removePersistedJob (nextJobId st) (settle (nextJobId st) r st1)))
          = (settled st ++ [(nextJobId st, r)])%list) as ->.
  { unfold removePersistedJob.
    destruct (list_find _ _) as [[? ?]|]; simpl; by rewrite Hs1. }
  rewrite (settlement_app _ _ _ Hset). reflexivity.
Qed.

Lemma released_state rcpts subj bod ty st r st1 :
  Spec.atRest st →
  queues st1 = queues (claimed rcpts subj bod ty st) →
  let st' := released (nextJobId st) r st1 in
  emailQueue st' = []
  ∧ isProcessingQueue st' = false
  ∧ persistedQueue st' = persistedQueue st
  ∧ journal st' = (journal st ++ lifecycle (nextJobId st))%list
  ∧ settlement (nextJobId st) (settled st') = Some r
  ∧ mailLog st' = mailLog st1
  ∧ totalSent st' = totalSent st1
  ∧ totalFailed st' = totalFailed st1.
Proof.
  intros (Hidle & Hq & Hset & Hfresh) Hqs st'. subst st'.
  unfold queues in Hqs. injection Hqs as Hq1 Hp1 Hpe1 Hn1 Hs1 Hj1.
  change (persistedQueue (claimed rcpts subj bod ty st))
    with (persistedQueue st ++ [jobOf rcpts subj bod ty st])%list in Hpe1.
  simpl in Hq1, Hs1, Hj1.
  destruct (list_find_fresh (jobOf rcpts subj bod ty st) (persistedQueue st) Hfresh)
    as [Hfind Hdel].
  change (id (jobOf rcpts subj bod ty st)) with (nextJobId st) in Hfind.
  unfold released, removePersistedJob.
  change (persistedQueue (settle (nextJobId st) r st1)) with (persistedQueue st1).
  rewrite Hpe1. fold (jobOf rcpts subj bod ty st). rewrite Hfind. simpl.
  rewrite Hdel, Hq1, Hj1, Hs1, (settlement_app _ _ _ Hset).
  repeat split; try done.
  unfold lifecycle. by rewrite <- !app_assoc.
Qed.

Lemma sendEmail_atRest env to subj bod ty wire st out wire' st' :
  Spec.atRest st → recipientsOf to ≠ [] →
  sendEmail env to subj bod ty wire st = Some (out, wire', st') →
  ∃ r, settlement (nextJobId st) (settled st') = Some r
    ∧ jobResult (length (recipientsOf to)) r
    ∧ out = match r with inl _ => Returned | inr e => Raised e end
    ∧ emailQueue st' = []
    ∧ isProcessingQueue st' = false
    ∧ persistedQueue st' = persistedQueue st
    ∧ journal st' = (journal st ++ lifecycle (nextJobId st))%list.
Proof.
  intros Hrest Hne H. unfold sendEmail in H.
  destruct (Nat.eqb (length (recipientsOf to)) 0) eqn:E.
  { apply Nat.eqb_eq in E. by destruct (recipientsOf to). }
  rewrite (enqueueEmailJob_atRest _ _ _ _ _ _ _ Hrest) in H.
  destruct (deliverWithRetry _ _ _ _ _ _) as [[[r w] st1]|] eqn:Ed; [|discriminate].
  apply deliverWithRetry_result in Ed as [Hr Hqs].
  specialize (Hr Hne). simpl in Hr.
  destruct (released_state _ _ _ _ _ r _ Hrest Hqs)
    as (H1 & H2 & H3 & H4 & H5 & _).
  exists r. destruct r as [s|e].
  - destruct Hr as (Hf & Hs & Ha). rewrite Hf in H. simpl in H.
    injection H as <- <- <-. by repeat split.
  - destruct Hr as (s & Hs & Hf & Ha). rewrite Hs in H.
    injection H as <- <- <-. repeat split; try done. by exists s.
Qed.

Lemma deliverEmailJob_no_transport env rcpts subj ty wire st :
  isDryRunEnabled env = false →
  fst (getTransport env [] st) = None →
  ∃ e s st', deliverEmailJob env rcpts subj ty wire st = Some (inr e, wire, st')
    ∧ permanent e = true ∧ e_code e = None ∧ summary e = Some s
    ∧ attempted s = length rcpts ∧ sent s = 0%nat ∧ failed s = length rcpts
    ∧ map code (errors s) = ["transport_unavailable"]
    ∧ map recipients (errors s) = [rcpts]
    ∧ queues st' = queues st ∧ mailLog st' = mailLog st
    ∧ totalSent st' = totalSent st
    ∧ totalFailed st' = (totalFailed st + length rcpts)%nat.
Proof.
  intros Hdry Hnone. unfold deliverEmailJob. rewrite Hdry.
  pose proof (getTransport_queues env [] st) as [Hg Hm].
  assert (totalSent (snd (getTransport env [] st)) = totalSent st
          ∧ totalFailed (snd (getTransport env [] st)) = totalFailed st) as [Hts Htf].
  { unfold getTransport. destruct (flag (SMTP_DISABLE env)); [done|].
    destruct (tryCandidates env [] (candidates env) [] None) as [?|[? [?|]]]; done. }
  destruct (getTransport env [] st) as [[meta|] st1]; simpl in *; [discriminate|].
  eexists _, _, _. split; [reflexivity|]. simpl.
  repeat split; try done; lia.
Qed.

Lemma deliverWithRetry_permanent env job fuel attempt wire st e wire' st' :
  deliverEmailJob env (j_recipients job) (j_subject job) (type job) wire st
    = Some (inr e, wire', st') →
  permanent e = true →
  deliverWithRetry fuel env job attempt wire st = Some (inr e, wire', st').
Proof.
  intros H Hp. destruct fuel; cbn [deliverWithRetry]; rewrite H, Hp;
    by rewrite andb_false_r.
Qed.

Lemma dedupe_In seen xs x :
  In x (Js.dedupe seen xs) → In x xs ∧ ¬ In x seen.
Proof.
  revert seen. induction xs as [|y xs IH]; intros seen; simpl; [done|].
  destruct (bool_decide (y ∈ seen)) eqn:E.
  - intros H. apply IH in H as [? ?]. split; [by right | done].
  - apply bool_decide_eq_false in E. intros [<-|H].
    + split; [by left|]. by rewrite <- list_elem_of_In.
    + apply IH in H as [? Hn]. split; [by right|].
      intros Hs. apply Hn. by right.
Qed.

Lemma dedupe_NoDup seen xs : List.NoDup (Js.dedupe seen xs).
Proof.
  revert seen. induction xs as [|y xs IH]; intros seen; simpl; [constructor|].
  destruct (bool_decide (y ∈ seen)); [apply IH|].
  constructor; [|apply IH].
  intros H. apply dedupe_In in H as [_ Hn]. apply Hn. by left.
Qed.

(** The loop ends: when the transport accepts every batch, as many
    answers as there are recipients left are enough. *)
Lemma sendBatches_accepted env rcpts subj : ∀ k l st rest,
  (length rcpts - index l ≤ k)%nat →
  ∃ l' wire' st',
    sendBatches env rcpts subj (repeat Accepted k ++ rest)%list l st
    = Some (l', wire', st')
    ∧ hasErrors l' = hasErrors l.
Proof.
  induction k as [|k IH]; intros l st rest Hk.
  - assert (Nat.ltb (index l) (length rcpts) = false) as Hlt
      by (apply Nat.ltb_ge; lia).
    exists l, rest, st. split; [|done].
    simpl. destruct rest; cbn [sendBatches]; by rewrite Hlt.
  - cbn [repeat app sendBatches].
    destruct (Nat.ltb (index l) (length rcpts)) eqn:Hlt.
    + apply Nat.ltb_lt in Hlt.
      destruct (batch_length rcpts (BATCH_SIZE env) (index l) (BATCH_SIZE_pos env) Hlt)
        as (_ & Heff & _).
      match goal with
      | |- context [sendBatches _ _ _ _ ?l1 ?s1] =>
          destruct (IH l1 s1 rest) as (l' & w' & st' & E & He); [simpl; lia|]
      end.
      exists l', w', st'. split; [exact E | exact He].
    + by eexists _, _, _.
Qed.

Lemma sendEmail_accepted env to subj bod ty st rest :
  Spec.atRest st →
  isDryRunEnabled env = false →
  fst (getTransport env [] st) ≠ None →
  ∃ wire' st',
    sendEmail env to subj bod ty
      (repeat Accepted (length (recipientsOf to)) ++ rest)%list st
    = Some (Returned, wire', st').
Proof.
  intros Hrest Hdry Ht. unfold sendEmail.
  destruct (Nat.eqb (length (recipientsOf to)) 0) eqn:E; [by eexists _, _|].
  set (rcpts := recipientsOf to) in *.
  set (subj' := if Js.truthy (Js.trim subj) then Js.trim subj else DEFAULT_SUBJECT).
  rewrite (enqueueEmailJob_atRest _ _ _ _ _ _ _ Hrest).
  assert (∃ s w st1,
            deliverEmailJob env rcpts subj' ty
              (repeat Accepted (length rcpts) ++ rest)%list (claimed rcpts subj' bod ty st)
            = Some (inl s, w, st1) ∧ failed s = 0%nat) as (s & w & st1 & Hd & Hf).
  { unfold deliverEmailJob. rewrite Hdry.
    destruct (getTransport env [] (claimed rcpts subj' bod ty st)) as [[meta|] st0] eqn:Eg.
    2:{ exfalso. apply Ht.
        rewrite (getTransport_fst env [] st (claimed rcpts subj' bod ty st)).
        by rewrite Eg. }
    edestruct (sendBatches_accepted env rcpts subj' (length rcpts)
                 {| index := 0; acc := {| subject := subj'; attempted := length rcpts;
                                          sent := 0; failed := 0; errors := [] |};
                    hasErrors := false; hasPermanentFailure := false;
                    excludedHosts := []; currentTransportMeta := meta |} st0 rest)
      as (l' & w' & st' & Es & He); [simpl; lia|].
    rewrite Es. simpl in He. rewrite He.
    apply sendBatches_inv in Es as ((_ & _ & Hok & _) & _ & _).
    2:{ split; [simpl; lia|]. split; [done|]. split; [done|]. discriminate. }
    destruct (Hok He) as (Hf & _).
    by eexists _, _, _. }
  assert (deliverWithRetry (MAX_RETRY env) env (jobOf rcpts subj' bod ty st) 1
            (repeat Accepted (length rcpts) ++ rest)%list (claimed rcpts subj' bod ty st)
          = Some (inl s, w, st1)) as ->.
  { destruct (MAX_RETRY env); cbn [deliverWithRetry];
      change (j_recipients (jobOf rcpts subj' bod ty st)) with rcpts;
      change (j_subject (jobOf rcpts subj' bod ty st)) with subj';
      change (type (jobOf rcpts subj' bod ty st)) with ty;
      by rewrite Hd. }
  rewrite Hf. simpl. by eexists _, _.
Qed.

End EngineFacts.

(** C1, as the code has it.  For a call of [sendEmail] with at least
    one valid recipient on an engine at rest: when the call returns,
    the job was resolved with a summary in which [failed] is [0] and
    every recipient is sent; when it raises, the job was rejected with
    the error raised, which carries the summary of the job, and
    [failed] is positive there.  So a summary with a failed batch makes
    the call raise, also when other recipients were sent. *)
Theorem sendEmail_raises_on_any_failure env to subj bod ty wire st out wire' st' :
  Spec.atRest st →
  TxEmail.recipientsOf to ≠ [] →
  TxEmail.sendEmail env to subj bod ty wire st = Some (out, wire', st') →
  match out with
  | TxEmail.Returned =>
      ∃ s, TxEmail.settlement (TxEmail.nextJobId st) (TxEmail.settled st') = Some (inl s)
        ∧ TxEmail.failed s = 0%nat
        ∧ TxEmail.sent s = length (TxEmail.recipientsOf to)
        ∧ TxEmail.attempted s = length (TxEmail.recipientsOf to)
  | TxEmail.Raised e =>
      TxEmail.settlement (TxEmail.nextJobId st) (TxEmail.settled st') = Some (inr e)
      ∧ ∃ s, TxEmail.summary e = Some s
          ∧ (0 < TxEmail.failed s)%nat
          ∧ TxEmail.attempted s = length (TxEmail.recipientsOf to)
  end.
Proof.
  intros Hrest Hne H.
  destruct (sendEmail_atRest _ _ _ _ _ _ _ _ _ _ Hrest Hne H)
    as (r & Hset & Hr & -> & _).
  destruct r as [s|e]; simpl in Hr.
  - exists s. by destruct Hr as (? & ? & ?).
  - split; [done|]. exact Hr.
Qed.

(** C4, as the code has it.  When the dry run is off and no transport
    can be resolved, a call of [sendEmail] with at least one valid
    recipient on an engine at rest first puts the job in the persisted
    queue and in the in-memory queue; the drainer takes it, the only
    delivery attempt fails without a call to the transport, and the job
    leaves the persisted queue.  The call then raises a permanent error
    whose summary counts every recipient as failed under the code
    [transport_unavailable]. *)
Theorem sendEmail_no_transport env to subj bod ty wire st :
  Spec.atRest st →
  TxEmail.recipientsOf to ≠ [] →
  TxEmail.isDryRunEnabled env = false →
  fst (TxEmail.getTransport env [] st) = None →
  ∃ e s st',
    TxEmail.sendEmail env to subj bod ty wire st = Some (TxEmail.Raised e, wire, st')
    ∧ TxEmail.permanent e = true
    ∧ TxEmail.summary e = Some s
    ∧ TxEmail.attempted s = length (TxEmail.recipientsOf to)
    ∧ TxEmail.sent s = 0%nat
    ∧ TxEmail.failed s = length (TxEmail.recipientsOf to)
    ∧ map TxEmail.code (TxEmail.errors s) = ["transport_unavailable"]
    ∧ TxEmail.journal st'
      = (TxEmail.journal st ++ lifecycle (TxEmail.nextJobId st))%list
    ∧ TxEmail.emailQueue st' = []
    ∧ TxEmail.persistedQueue st' = TxEmail.persistedQueue st
    ∧ TxEmail.mailLog st' = TxEmail.mailLog st
    ∧ TxEmail.totalFailed st'
      = (TxEmail.totalFailed st + length (TxEmail.recipientsOf to))%nat.
Proof.
  intros Hrest Hne Hdry Hnone.
  set (rcpts := TxEmail.recipientsOf to) in *.
  set (subj' := if Js.truthy (Js.trim subj) then Js.trim subj else TxEmail.DEFAULT_SUBJECT).
  assert (fst (TxEmail.getTransport env [] (claimed rcpts subj' bod ty st)) = None)
    as Hnone' by (by rewrite (getTransport_fst env [] _ st)).
  destruct (deliverEmailJob_no_transport env rcpts subj' ty wire
              (claimed rcpts subj' bod ty st) Hdry Hnone')
    as (e & s & st1 & Hd & Hp & _ & Hs & Ha & Hsent & Hf & Hc & _ & Hq & Hm & _ & Htf).
  pose proof (deliverWithRetry_permanent env (jobOf rcpts subj' bod ty st)
                (TxEmail.MAX_RETRY env) 1 wire _ e wire st1 Hd Hp) as Hretry.
  destruct (released_state rcpts subj' bod ty st (inr e) st1 Hrest Hq)
    as (H1 & H2 & H3 & H4 & H5 & H6 & _ & H8).
  exists e, s, (released (TxEmail.nextJobId st) (inr e) st1).
  split.
  - unfold TxEmail.sendEmail. fold rcpts. fold subj'.
    destruct (Nat.eqb (length rcpts) 0) eqn:E.
    { apply Nat.eqb_eq in E. by destruct rcpts. }
    rewrite (enqueueEmailJob_atRest _ _ _ _ _ _ _ Hrest), Hretry, Hs.
    reflexivity.
  - repeat split; try done.
    + by rewrite H6, Hm.
    + by rewrite H8, Htf.
Qed.

Lemma engine_at_rest_atRest : Spec.atRest engine_at_rest.
Proof. repeat split. constructor. Qed.

(** C1, as stated, fails: with batches of one recipient, the first
    batch is accepted and the second is rejected for good; the summary
    has one recipient sent and one failed, and the call raises. *)
Lemma partial_failure_raises_counterexample :
  ∃ e s st',
    TxEmail.sendEmail (smtp_env (Some 1)) two_recipients "Sujet" "Contenu" None
      [TxEmail.Accepted; TxEmail.Rejected mailbox_unavailable] engine_at_rest
    = Some (TxEmail.Raised e, [], st')
    ∧ TxEmail.summary e = Some s
    ∧ TxEmail.attempted s = 2%nat
    ∧ TxEmail.sent s = 1%nat
    ∧ TxEmail.failed s = 1%nat.
Proof.
  eexists _, _, _. split; [vm_compute; reflexivity|].
  split; [reflexivity|]. by repeat split.
Qed.

Lemma sendEmail_raises_on_any_failure_witness :
  ∃ out wire' st',
    TxEmail.sendEmail (smtp_env (Some 1)) two_recipients "Sujet" "Contenu" None
      [TxEmail.Accepted; TxEmail.Rejected mailbox_unavailable] engine_at_rest
    = Some (out, wire', st')
    ∧ match out with
      | TxEmail.Returned =>
          ∃ s, TxEmail.settlement 0 (TxEmail.settled st') = Some (inl s)
            ∧ TxEmail.failed s = 0%nat
            ∧ TxEmail.sent s = length (TxEmail.recipientsOf two_recipients)
            ∧ TxEmail.attempted s = length (TxEmail.recipientsOf two_recipients)
      | TxEmail.Raised e =>
          TxEmail.settlement 0 (TxEmail.settled st') = Some (inr e)
          ∧ ∃ s, TxEmail.summary e = Some s
              ∧ (0 < TxEmail.failed s)%nat
              ∧ TxEmail.attempted s = length (TxEmail.recipientsOf two_recipients)
      end.
Proof.
  eexists _, _, _.
  eassert (TxEmail.sendEmail (smtp_env (Some 1)) two_recipients "Sujet" "Contenu" None
             [TxEmail.Accepted; TxEmail.Rejected mailbox_unavailable] engine_at_rest
           = Some (_, _, _)) as H by (vm_compute; reflexivity).
  split; [exact H|].
  apply (sendEmail_raises_on_any_failure _ _ _ _ _ _ _ _ _ _
           engine_at_rest_atRest) in H; [exact H|].
  vm_compute. discriminate.
Defined.

(** C2 on the code.  A job of two recipients in one batch; the
    transport times out on the first call and accepts the second.  The
    attempt calls the transport twice and sends to both recipients, but
    the failed call stays counted: the summary has [sent = 2] and
    [failed = 2], and the attempt raises an error that is not permanent.
    The job is therefore run again as a whole: [sendEmail] calls the
    transport a third time, for recipients already served, before it
    returns. *)
Theorem temporary_failure_stays_counted :
  let rcpts := ["a@x.com"; "b@x.com"] in
  TxEmail.isTemporarySmtpError (TxEmail.errorCode timed_out)
    (TxEmail.errorMessage timed_out) = true
  ∧ (∃ e s st',
       TxEmail.deliverEmailJob (smtp_env None) rcpts "Sujet" None
         [TxEmail.Rejected timed_out; TxEmail.Accepted] engine_at_rest
       = Some (inr e, [], st')
       ∧ TxEmail.permanent e = false
       ∧ TxEmail.summary e = Some s
       ∧ TxEmail.attempted s = 2%nat
       ∧ TxEmail.sent s = 2%nat
       ∧ TxEmail.failed s = 2%nat
       ∧ TxEmail.mailLog st'
         = [ {| TxEmail.via := "smtp.example.com"; TxEmail.bcc := rcpts |};
             {| TxEmail.via := "smtp.example.com"; TxEmail.bcc := rcpts |} ])
  ∧ (∃ st',
       TxEmail.sendEmail (smtp_env None) (TxEmail.Many [Some "a@x.com"; Some "b@x.com"])
         "Sujet" "Contenu" None
         [TxEmail.Rejected timed_out; TxEmail.Accepted; TxEmail.Accepted]
         engine_at_rest
       = Some (TxEmail.Returned, [], st')
       ∧ length (TxEmail.mailLog st') = 3%nat
       ∧ TxEmail.totalSent st' = 4%nat
       ∧ TxEmail.totalFailed st' = 2%nat).
Proof.
  intros rcpts. split; [vm_compute; reflexivity|]. split.
  - eexists _, _, _. split; [vm_compute; reflexivity|]. by repeat split.
  - eexists. split; [vm_compute; reflexivity|]. by repeat split.
Qed.

(** C4, as stated, fails: no provider is configured, and the job is
    put in the persisted queue and in the in-memory queue all the same,
    before the transport is looked for; the call raises afterwards. *)
Lemma no_transport_enqueues_counterexample :
  let job := {| TxEmail.id := 0; TxEmail.j_recipients := ["a@x.com"];
                TxEmail.j_subject := "Sujet"; TxEmail.body := "Contenu";
                TxEmail.type := None |} in
  fst (TxEmail.getTransport no_smtp_env [] engine_at_rest) = None
  ∧ TxEmail.emailQueue
      (TxEmail.pushEmailJob ["a@x.com"] "Sujet" "Contenu" None engine_at_rest) = [job]
  ∧ TxEmail.persistedQueue
      (TxEmail.pushEmailJob ["a@x.com"] "Sujet" "Contenu" None engine_at_rest) = [job]
  ∧ ∃ e st',
      TxEmail.sendEmail no_smtp_env (TxEmail.One "a@x.com") "Sujet" "Contenu" None
        [] engine_at_rest
      = Some (TxEmail.Raised e, [], st')
      ∧ TxEmail.journal st'
        = [TxEmail.Persisted 0; TxEmail.Pushed 0; TxEmail.Claimed 0;
           TxEmail.Unpersisted 0].
Proof.
  intros job. split; [vm_compute; reflexivity|].
  split; [reflexivity|]. split; [reflexivity|].
  eexists _, _. split; [vm_compute; reflexivity | reflexivity].
Qed.

Lemma sendEmail_no_transport_witness :
  ∃ e s st',
    TxEmail.sendEmail no_smtp_env (TxEmail.One "a@x.com") "Sujet" "Contenu" None
      [TxEmail.Accepted] engine_at_rest
    = Some (TxEmail.Raised e, [TxEmail.Accepted], st')
    ∧ TxEmail.permanent e = true
    ∧ TxEmail.summary e = Some s
    ∧ TxEmail.attempted s = length (TxEmail.recipientsOf (TxEmail.One "a@x.com"))
    ∧ TxEmail.sent s = 0%nat
    ∧ TxEmail.failed s = length (TxEmail.recipientsOf (TxEmail.One "a@x.com"))
    ∧ map TxEmail.code (TxEmail.errors s) = ["transport_unavailable"]
    ∧ TxEmail.journal st'
      = (TxEmail.journal engine_at_rest
         ++ lifecycle (TxEmail.nextJobId engine_at_rest))%list
    ∧ TxEmail.emailQueue st' = []
    ∧ TxEmail.persistedQueue st' = TxEmail.persistedQueue engine_at_rest
    ∧ TxEmail.mailLog st' = TxEmail.mailLog engine_at_rest
    ∧ TxEmail.totalFailed st'
      = (TxEmail.totalFailed engine_at_rest
         + length (TxEmail.recipientsOf (TxEmail.One "a@x.com")))%nat.
Proof.
  apply (sendEmail_no_transport no_smtp_env (TxEmail.One "a@x.com") "Sujet"
           "Contenu" None [TxEmail.Accepted] engine_at_rest).
  - exact engine_at_rest_atRest.
  - vm_compute. discriminate.
  - vm_compute. reflexivity.
  - vm_compute. reflexivity.
Defined.

Example email_ok : Email.isValidEmail (Some "  Alice@Example.COM ") = true.
Proof. vm_compute. reflexivity. Qed.
Example email_bad1 : Email.isValidEmail (Some "not-an-email") = false.
Proof. vm_compute. reflexivity. Qed.
Example email_bad2 : Email.isValidEmail (Some "a@-x.com") = false.
Proof. vm_compute. reflexivity. Qed.
Example email_bad3 : Email.isValidEmail (Some "a@x") = false.
Proof. vm_compute. reflexivity. Qed.
Example email_part :
  Email.partitionEmails [Some "a@x.com"; Some "not-an-email"; None; Some "  "; Some ""; Some "B@x.com"]
  = {| Email.valid := ["a@x.com"; "b@x.com"]; Email.invalid := ["not-an-email"; ""] |}.
Proof. vm_compute. reflexivity. Qed.

Example mask1 : Audit.maskEmail (Some " test@example.com ") = "***@example.com".
Proof. vm_compute. reflexivity. Qed.
Example mask2 : Audit.maskEmail (Some "john") = "***".
Proof. vm_compute. reflexivity. Qed.
Example mask3 : Audit.maskEmail (Some "@x.y") = "@x.y".
Proof. vm_compute. reflexivity. Qed.
Example prog1 : Progress.computeDaoProgress
  {| Progress.numeroListe := "DAO-2025-001";
     Progress.tasks := Some [ {| Progress.id := 1; Progress.name := "a"; Progress.progress := Some 10%Z; Progress.isApplicable := true |};
       {| Progress.id := 2; Progress.name := "b"; Progress.progress := Some 30%Z; Progress.isApplicable := true |};
       {| Progress.id := 3; Progress.name := "c"; Progress.progress := Some 100%Z; Progress.isApplicable := false |} ] |} = 20%Z.
Proof. vm_compute. reflexivity. Qed.

Example temporary_ETIMEDOUT :
  TxEmail.isTemporarySmtpError "ETIMEDOUT" "Connection timeout" = true.
Proof. vm_compute. reflexivity. Qed.
Example temporary_421 :
  TxEmail.isTemporarySmtpError "421" "Service not available" = true.
Proof. vm_compute. reflexivity. Qed.
Example temporary_by_message :
  TxEmail.isTemporarySmtpError "554" "Please try again later" = true.
Proof. vm_compute. reflexivity. Qed.
Example permanent_550 :
  TxEmail.isTemporarySmtpError (TxEmail.errorCode mailbox_unavailable)
    (TxEmail.errorMessage mailbox_unavailable) = false.
Proof. vm_compute. reflexivity. Qed.
Example transport_primary :
  fst (TxEmail.getTransport (smtp_env None) [] engine_at_rest)
  = Some {| TxEmail.t_host := "smtp.example.com"; TxEmail.t_name := "primary" |}.
Proof. vm_compute. reflexivity. Qed.
Example transport_best_effort :
  fst (TxEmail.getTransport (smtp_env None) ["smtp.example.com"] engine_at_rest)
  = Some {| TxEmail.t_host := "smtp.example.com"; TxEmail.t_name := "primary" |}.
Proof. vm_compute. reflexivity. Qed.
Example safeMsg_504 :
  Store.safeMsg {| TxEmail.e_message := "upstream answered 504 (gateway)";
                   TxEmail.e_code := None; TxEmail.permanent := false;
                   TxEmail.summary := None |} = Store.MSG_504.
Proof. vm_compute. reflexivity. Qed.
Example safeMsg_other :
  Store.safeMsg {| TxEmail.e_message := "error 1504x";
                   TxEmail.e_code := None; TxEmail.permanent := false;
                   TxEmail.summary := None |} = Store.MSG_OTHER.
Proof. vm_compute. reflexivity. Qed.
Example dry_run_sends_all :
  ∃ st',
    TxEmail.sendEmail
      {| TxEmail.NODE_ENV := Some "test"; TxEmail.SMTP_DRY_RUN := None;
         TxEmail.SMTP_DISABLE := None; TxEmail.SMTP_MAX_CONCURRENT := None;
         TxEmail.SMTP_MAX_RETRY := None; TxEmail.SMTP_BATCH_SIZE := None;
         TxEmail.candidates := []; TxEmail.verify := fun _ => None |}
      two_recipients "Sujet" "Contenu" None [] engine_at_rest
    = Some (TxEmail.Returned, [], st')
    ∧ TxEmail.totalSent st' = 2%nat ∧ TxEmail.mailLog st' = [].
Proof. eexists. split; [vm_compute; reflexivity | by split]. Qed.

(** * Further properties *)

(** ** Normal forms of addresses *)

Section NormalForms.
Import Email.

Lemma isSpace_lowerChar c : Js.isSpace (Js.lowerChar c) = Js.isSpace c.
Proof. destruct c as [[] [] [] [] [] [] [] []]; reflexivity. Qed.

Lemma lowerChar_idem c : Js.lowerChar (Js.lowerChar c) = Js.lowerChar c.
Proof. destruct c as [[] [] [] [] [] [] [] []]; reflexivity. Qed.

Lemma trimStart_map f s :
  (∀ c, Js.isSpace (f c) = Js.isSpace c) →
  Js.trimStart (Js.mapString f s) = Js.mapString f (Js.trimStart s).
Proof.
  intros Hf. induction s as [|c s IH]; simpl; [reflexivity|].
  rewrite Hf. destruct (Js.isSpace c); [exact IH | reflexivity].
Qed.

Lemma trimEnd_map f s :
  (∀ c, Js.isSpace (f c) = Js.isSpace c) →
  Js.trimEnd (Js.mapString f s) = Js.mapString f (Js.trimEnd s).
Proof.
  intros Hf. induction s as [|c s IH]; simpl; [reflexivity|].
  rewrite IH. destruct (Js.trimEnd s); simpl; [|reflexivity].
  rewrite Hf. by destruct (Js.isSpace c).
Qed.

Lemma trimEnd_idem s : Js.trimEnd (Js.trimEnd s) = Js.trimEnd s.
Proof.
  assert (∀ c t, Js.trimEnd (String c t)
                 = match Js.trimEnd t with
                   | EmptyString =>
                       if Js.isSpace c then EmptyString else String c EmptyString
                   | r => String c r
                   end) as Hstep by reflexivity.
  induction s as [|c s IH]; [reflexivity|].
  rewrite (Hstep c s).
  destruct (Js.trimEnd s) as [|d r] eqn:E.
  - destruct (Js.isSpace c) eqn:Hc; [reflexivity|].
    rewrite Hstep. simpl. by rewrite Hc.
  - rewrite Hstep, IH. reflexivity.
Qed.

Lemma trimStart_clean s : startsClean (Js.trimStart s).
Proof.
  induction s as [|c s IH]; simpl; [done|].
  destruct (Js.isSpace c) eqn:E; [exact IH | exact E].
Qed.

Lemma trimEnd_clean s : startsClean s → startsClean (Js.trimEnd s).
Proof.
  destruct s as [|c s]; simpl; [done|]. intros Hc.
  destruct (Js.trimEnd s); [by rewrite Hc | exact Hc].
Qed.

Lemma trimStart_of_clean s : startsClean s → Js.trimStart s = s.
Proof. destruct s as [|c s]; simpl; [done|]. by intros ->. Qed.

Lemma trim_idem s : Js.trim (Js.trim s) = Js.trim s.
Proof.
  unfold Js.trim.
  rewrite (trimStart_of_clean (Js.trimEnd (Js.trimStart s))).
  - apply trimEnd_idem.
  - apply trimEnd_clean, trimStart_clean.
Qed.

Lemma toLowerCase_idem s : Js.toLowerCase (Js.toLowerCase s) = Js.toLowerCase s.
Proof.
  unfold Js.toLowerCase. induction s as [|c s IH]; simpl; [reflexivity|].
  by rewrite lowerChar_idem, IH.
Qed.

Lemma trim_toLowerCase s : Js.trim (Js.toLowerCase s) = Js.toLowerCase (Js.trim s).
Proof.
  unfold Js.trim, Js.toLowerCase.
  rewrite trimStart_map, trimEnd_map; auto using isSpace_lowerChar.
Qed.

Lemma truthy_toLowerCase s : Js.truthy (Js.toLowerCase s) = Js.truthy s.
Proof. by destruct s. Qed.

Lemma normalizeEmail_fixed v n :
  normalizeEmail v = Some n → normalizeEmail (Some n) = Some n.
Proof.
  intros H. destruct v as [s|]; simpl in H; [|discriminate].
  destruct (Js.truthy (Js.trim s)) eqn:Ht; [|discriminate].
  injection H as <-. simpl.
  rewrite trim_toLowerCase, trim_idem, truthy_toLowerCase, Ht.
  by rewrite toLowerCase_idem.
Qed.

Lemma validOf_accepted v x : In x (validOf v) → accepted x.
Proof.
  intros Hx. split; [|by eapply validOf_matches].
  unfold validOf in Hx. destruct (normalizeEmail v) as [n|] eqn:Hn; [|done].
  destruct (Re.matches EMAIL_REGEX n); [|done].
  destruct Hx as [<-|[]]. by eapply normalizeEmail_fixed.
Qed.

Lemma accepted_validOf x : accepted x → validOf (Some x) = [x] ∧ invalidOf (Some x) = [].
Proof.
  intros [Hn Hm]. unfold validOf, invalidOf. by rewrite Hn, Hm.
Qed.

Lemma partition_accepted l :
  Forall accepted l →
  flat_map validOf (map Some l) = l ∧ flat_map invalidOf (map Some l) = [].
Proof.
  induction 1 as [|x l Hx _ [IHv IHi]]; simpl; [done|].
  destruct (accepted_validOf x Hx) as [-> ->]. simpl. by rewrite IHv, IHi.
Qed.

Lemma valid_accepted inputs : Forall accepted (valid (partitionEmails inputs)).
Proof.
  destruct (partitionEmails_lists inputs) as [-> _].
  apply List.Forall_forall. intros x Hx.
  apply in_flat_map in Hx as (v & _ & Hx). by eapply validOf_accepted.
Qed.

End NormalForms.

(** X1.  [normalizeEmail] is idempotent: a normal form is its own
    normal form.  And [isValidEmail] judges a value by its normal form
    alone. *)
Theorem normalizeEmail_idempotent v :
  (∀ n, Email.normalizeEmail v = Some n → Email.normalizeEmail (Some n) = Some n)
  ∧ Email.isValidEmail v
    = match Email.normalizeEmail v with
      | Some n => Email.isValidEmail (Some n)
      | None => false
      end.
Proof.
  split; [intros n; apply normalizeEmail_fixed|].
  unfold Email.isValidEmail at 1.
  destruct (Email.normalizeEmail v) as [n|] eqn:Hn; [|reflexivity].
  unfold Email.isValidEmail. by rewrite (normalizeEmail_fixed v n Hn).
Qed.

Lemma normalizeEmail_idempotent_witness :
  Email.normalizeEmail (Some "alice@example.com") = Some "alice@example.com"
  ∧ Email.isValidEmail (Some "  Alice@Example.COM ")
    = Email.isValidEmail (Some "alice@example.com").
Proof.
  destruct (normalizeEmail_idempotent (Some "  Alice@Example.COM ")) as [H1 H2].
  split; [apply H1; reflexivity | exact H2].
Defined.

(** X2.  The two lists of [partitionEmails] agree with [isValidEmail]:
    a value of [valid] is in normal form and is accepted, a value of
    [invalid] is refused. *)
Theorem partitionEmails_agrees_with_isValidEmail inputs x :
  (In x (Email.valid (Email.partitionEmails inputs)) →
     Email.normalizeEmail (Some x) = Some x ∧ Email.isValidEmail (Some x) = true)
  ∧ (In x (Email.invalid (Email.partitionEmails inputs)) →
     Email.isValidEmail (Some x) = false).
Proof.
  destruct (partitionEmails_lists inputs) as [Hv Hi]. rewrite Hv, Hi. split.
  - intros Hx. apply in_flat_map in Hx as (v & _ & Hx).
    apply validOf_accepted in Hx as [Hn Hm].
    split; [exact Hn|]. unfold Email.isValidEmail. by rewrite Hn.
  - intros Hx. apply in_flat_map in Hx as (v & _ & Hx).
    unfold invalidOf in Hx. destruct (Email.normalizeEmail v) as [n|] eqn:Hn.
    + destruct (Re.matches Email.EMAIL_REGEX n) eqn:Hm; [done|].
      destruct Hx as [<-|[]]. unfold Email.isValidEmail.
      by rewrite (normalizeEmail_fixed v n Hn).
    + destruct v as [s|]; [|done]. destruct (Js.truthy s); [|done].
      destruct Hx as [<-|[]]. by rewrite (normalizeEmail_None s Hn).
Qed.

Lemma partitionEmails_agrees_with_isValidEmail_witness :
  let inputs := [Some " A@x.com"; Some "not-an-email"; Some "  "] in
  (Email.normalizeEmail (Some "a@x.com") = Some "a@x.com"
   ∧ Email.isValidEmail (Some "a@x.com") = true)
  ∧ Email.isValidEmail (Some "not-an-email") = false.
Proof.
  intros inputs. split.
  - apply (partitionEmails_agrees_with_isValidEmail inputs "a@x.com").
    vm_compute. by left.
  - apply (partitionEmails_agrees_with_isValidEmail inputs "not-an-email").
    vm_compute. by left.
Defined.

(** X3.  [partitionEmails] works value by value and keeps the order:
    the partition of a concatenation is the concatenation of the
    partitions. *)
Theorem partitionEmails_app a b :
  Email.valid (Email.partitionEmails (a ++ b))
  = (Email.valid (Email.partitionEmails a) ++ Email.valid (Email.partitionEmails b))%list
  ∧ Email.invalid (Email.partitionEmails (a ++ b))
    = (Email.invalid (Email.partitionEmails a)
       ++ Email.invalid (Email.partitionEmails b))%list.
Proof.
  destruct (partitionEmails_lists (a ++ b)) as [-> ->].
  destruct (partitionEmails_lists a) as [-> ->].
  destruct (partitionEmails_lists b) as [-> ->].
  by rewrite !flat_map_app.
Qed.

(** X4.  Filtering twice is filtering once: [partitionEmails] run on
    its own [valid] list gives that list back and refuses nothing. *)
Theorem partitionEmails_valid_fixed inputs :
  Email.partitionEmails (map Some (Email.valid (Email.partitionEmails inputs)))
  = {| Email.valid := Email.valid (Email.partitionEmails inputs);
       Email.invalid := [] |}.
Proof.
  destruct (partition_accepted _ (valid_accepted inputs)) as [Hv Hi].
  destruct (partitionEmails_lists
              (map Some (Email.valid (Email.partitionEmails inputs)))) as [Hv' Hi'].
  destruct (Email.partitionEmails (map Some _)) as [v i]. simpl in *.
  by rewrite Hv', Hi', Hv, Hi.
Qed.

(** ** The audit log as a window *)

Section AuditWindow.
Import Audit.

Lemma recordAutoUserEvent_take now entry store :
  recordAutoUserEvent now entry store = firstn CAPACITY (entryOf (now, entry) :: store).
Proof.
  unfold recordAutoUserEvent, entryOf. cbn [fst snd].
  destruct (Nat.ltb CAPACITY _) eqn:E; [reflexivity|].
  apply Nat.ltb_ge in E. by rewrite take_ge.
Qed.

Lemma take_app_take {A} (b : list A) : ∀ a n k,
  (n ≤ length a + k)%nat → firstn n (a ++ firstn k b) = firstn n (a ++ b).
Proof.
  induction a as [|x a IH]; intros n k Hn; simpl in *.
  - rewrite take_take. f_equal. lia.
  - destruct n as [|n]; [reflexivity|]. simpl. f_equal. apply IH. lia.
Qed.

Lemma run_window calls : ∀ store,
  (length store ≤ CAPACITY)%nat →
  run calls store = firstn CAPACITY (rev (map entryOf calls) ++ store).
Proof.
  unfold run. induction calls as [|c calls IH]; intros store Hs; simpl.
  - by rewrite take_ge.
  - rewrite IH by apply recordAutoUserEvent_length.
    destruct c as [now entry]. rewrite recordAutoUserEvent_take.
    rewrite take_app_take by lia. by rewrite <- app_assoc.
Qed.

End AuditWindow.

(** X5.  The audit log is a window on the calls: after any sequence of
    calls of [recordAutoUserEvent] on an empty log, it holds the entries
    of the 200 last calls, the latest first; the older ones are gone. *)
Theorem audit_log_window calls :
  Audit.run calls [] = firstn 200 (rev (map entryOf calls)).
Proof.
  rewrite run_window by (simpl; unfold Audit.CAPACITY; lia).
  by rewrite app_nil_r.
Qed.

(** X6.  [listAutoUserEvents limit] after the same calls answers the
    latest [max 1 (min limit 200)] entries: a limit of [0] still shows
    one entry, a limit above 200 shows 200; after
    [clearAutoUserEvents] it answers nothing. *)
Theorem listAutoUserEvents_window limit calls :
  Audit.listAutoUserEvents limit (Audit.run calls [])
  = firstn (Nat.max 1 (Nat.min limit 200)) (rev (map entryOf calls))
  ∧ Audit.listAutoUserEvents limit (Audit.clearAutoUserEvents (Audit.run calls [])) = [].
Proof.
  split.
  - unfold Audit.listAutoUserEvents.
    rewrite run_window by (simpl; unfold Audit.CAPACITY; lia).
    rewrite app_nil_r. unfold Audit.CAPACITY. rewrite take_take.
    f_equal. lia.
  - unfold Audit.listAutoUserEvents, Audit.clearAutoUserEvents. apply take_nil.
Qed.

(** ** Resolution of a transport *)

Section TransportFacts.
Import TxEmail.

Lemma tryTransport_usable env excl cfg :
  complete cfg = true →
  if usable env excl cfg
  then tryTransport env excl cfg = inr (metaOf cfg)
  else ∃ msg, tryTransport env excl cfg = inl msg.
Proof.
  intros Hc. unfold usable, tryTransport. rewrite Hc. simpl.
  destruct (bool_decide _); simpl; [by eexists|].
  destruct (verify env _); [by eexists | reflexivity].
Qed.

Lemma tryCandidates_spec env excl cands : ∀ errs first,
  match List.filter (usable env excl) cands with
  | c :: _ => tryCandidates env excl cands errs first = inl (metaOf c)
  | [] =>
      ∃ errs',
        tryCandidates env excl cands errs first
        = inr (errs',
               match first with
               | Some f => Some f
               | None => option_map metaOf (head (List.filter complete cands))
               end)
  end.
Proof.
  induction cands as [|cfg cands IH]; intros errs first; simpl.
  - exists errs. by destruct first.
  - destruct (complete cfg) eqn:Hc; simpl.
    + pose proof (tryTransport_usable env excl cfg Hc) as Hu.
      destruct (usable env excl cfg); [by rewrite Hu|].
      destruct Hu as [msg ->].
      specialize (IH (errs ++ [name cfg +:+ ": " +:+ msg])%list
                     (match first with
                      | Some _ => first
                      | None => Some (metaOf cfg)
                      end)).
      destruct (List.filter (usable env excl) cands); [|exact IH].
      destruct IH as [errs' ->]. exists errs'. by destruct first.
    + assert (usable env excl cfg = false) as -> by (unfold usable; by rewrite Hc).
      specialize (IH (errs ++ [name cfg +:+ ": incomplete"])%list
                     (match first with Some _ => first | None => None end)).
      destruct (List.filter (usable env excl) cands); [|exact IH].
      destruct IH as [errs' ->]. exists errs'. by destruct first.
Qed.

End TransportFacts.

(** X7.  Unless [SMTP_DISABLE] is set, [getTransport] answers the first
    candidate that is complete, not excluded and passes the probe, and
    then clears [lastTransportError]; when there is none it falls back
    on the first complete candidate, even if its host is excluded or
    its probe failed, and records the errors.  It answers nothing only
    when it is disabled or no candidate is complete. *)
Theorem getTransport_first_usable env excl st :
  (TxEmail.flag (TxEmail.SMTP_DISABLE env) = true →
     TxEmail.getTransport env excl st = (None, st))
  ∧ (TxEmail.flag (TxEmail.SMTP_DISABLE env) = false →
       fst (TxEmail.getTransport env excl st)
       = match List.filter (usable env excl) (TxEmail.candidates env) with
         | c :: _ => Some (TxEmail.metaOf c)
         | [] => option_map TxEmail.metaOf
                   (head (List.filter TxEmail.complete (TxEmail.candidates env)))
         end
       ∧ (TxEmail.lastTransportError (snd (TxEmail.getTransport env excl st)) = None
          ↔ List.filter (usable env excl) (TxEmail.candidates env) ≠ []))
  ∧ (fst (TxEmail.getTransport env excl st) = None
     ↔ TxEmail.flag (TxEmail.SMTP_DISABLE env) = true
       ∨ List.filter TxEmail.complete (TxEmail.candidates env) = []).
Proof.
  unfold TxEmail.getTransport.
  pose proof (tryCandidates_spec env excl (TxEmail.candidates env) [] None) as H.
  assert (List.filter (usable env excl) (TxEmail.candidates env) ≠ [] →
          List.filter TxEmail.complete (TxEmail.candidates env) ≠ []) as Hsub.
  { intros Hu Hc. apply Hu. clear -Hc.
    induction (TxEmail.candidates env) as [|c l IH]; simpl in *; [done|].
    destruct (TxEmail.complete c) eqn:E; [done|].
    assert (usable env excl c = false) as -> by (unfold usable; by rewrite E).
    by apply IH. }
  destruct (TxEmail.flag (TxEmail.SMTP_DISABLE env)).
  { split; [done|]. split; [done|]. simpl. split; [by left | done]. }
  split; [done|].
  destruct (List.filter (usable env excl) (TxEmail.candidates env)) as [|c l].
  - destruct H as [errs' ->].
    destruct (List.filter TxEmail.complete (TxEmail.candidates env)) as [|c' l'];
      simpl.
    + split; [intros _; split; [done | by split]|].
      split; [by right | done].
    + split; [intros _; split; [done | by split]|].
      split; [done | by intros [|]].
  - rewrite H. simpl. split; [intros _; split; [done | by split]|].
    split; [done|]. intros [|Hc]; [done|]. by apply Hsub in Hc.
Qed.

Lemma getTransport_first_usable_witness :
  let disabled :=
    {| TxEmail.NODE_ENV := None; TxEmail.SMTP_DRY_RUN := None;
       TxEmail.SMTP_DISABLE := Some "TRUE"; TxEmail.SMTP_MAX_CONCURRENT := None;
       TxEmail.SMTP_MAX_RETRY := None; TxEmail.SMTP_BATCH_SIZE := None;
       TxEmail.candidates := [smtp_primary]; TxEmail.verify := fun _ => None |} in
  TxEmail.getTransport disabled [] engine_at_rest = (None, engine_at_rest)
  ∧ fst (TxEmail.getTransport (smtp_env None) ["smtp.example.com"] engine_at_rest)
    = Some (TxEmail.metaOf smtp_primary)
  ∧ TxEmail.lastTransportError
      (snd (TxEmail.getTransport (smtp_env None) [] engine_at_rest)) = None.
Proof.
  intros disabled.
  destruct (getTransport_first_usable disabled [] engine_at_rest) as (H1 & _).
  destruct (getTransport_first_usable (smtp_env None) ["smtp.example.com"]
              engine_at_rest) as (_ & H2 & _).
  destruct (getTransport_first_usable (smtp_env None) [] engine_at_rest)
    as (_ & H3 & _).
  split; [apply H1; reflexivity|]. split.
  - destruct (H2 eq_refl) as [-> _]. reflexivity.
  - destruct (H3 eq_refl) as [_ Hiff]. apply Hiff. vm_compute. discriminate.
Defined.

(** ** What a delivery attempt does to the log, the counters and the
    summary *)

Section AttemptFacts.
Import TxEmail.

Lemma getTransport_frame env excl st :
  let st' := snd (getTransport env excl st) in
  mailLog st' = mailLog st ∧ emailEvents st' = emailEvents st
  ∧ totalSent st' = totalSent st ∧ totalFailed st' = totalFailed st.
Proof.
  unfold getTransport. destruct (flag (SMTP_DISABLE env)); [done|].
  destruct (tryCandidates env excl (candidates env) [] None) as [?|[? [?|]]]; done.
Qed.

Lemma listedFailed_snoc s f :
  fold_right Nat.add 0%nat
    (map (fun g => length (recipients g)) (errors s ++ [f]))
  = (listedFailed s + length (recipients f))%nat.
Proof.
  unfold listedFailed. induction (errors s) as [|g l IH]; simpl; [lia|].
  rewrite IH. lia.
Qed.

Lemma logEvent_capped ev st : (length (emailEvents (logEvent ev st)) ≤ 50)%nat.
Proof. simpl. unfold Js.unshiftCapped. rewrite length_take. lia. Qed.

Lemma isBatchOf_shape env rcpts c :
  isBatchOf env rcpts c →
  (1 ≤ length (bcc c) ≤ BATCH_SIZE env)%nat ∧ (∀ x, In x (bcc c) → In x rcpts).
Proof.
  intros (i & Hi & ->).
  destruct (batch_length rcpts (BATCH_SIZE env) i (BATCH_SIZE_pos env) Hi)
    as (Hlen & Heff & _).
  split; [rewrite Hlen; lia|].
  intros x Hx. apply list_elem_of_In. apply list_elem_of_In in Hx.
  eapply (subseteq_drop i). eapply (subseteq_take _). exact Hx.
Qed.

Lemma sendBatches_trace env rcpts subj : ∀ wire l st l' wire' st',
  sendBatches env rcpts subj wire l st = Some (l', wire', st') →
  ∃ calls,
    mailLog st' = (mailLog st ++ calls)%list
    ∧ length wire = (length calls + length wire')%nat
    ∧ Forall (isBatchOf env rcpts) calls
    ∧ totalSent st' = totalSent st
    ∧ totalFailed st' = totalFailed st
    ∧ ((length (emailEvents st) ≤ 50)%nat → (length (emailEvents st') ≤ 50)%nat)
    ∧ ((sent (acc l) ≤ index l)%nat → (sent (acc l') ≤ index l')%nat)
    ∧ (failed (acc l) = listedFailed (acc l) →
       failed (acc l') = listedFailed (acc l'))
    ∧ subject (acc l') = subject (acc l).
Proof.
  induction wire as [|answer wire IH]; intros l st l' wire' st' H;
    cbn [sendBatches] in H;
    destruct (Nat.ltb (index l) (length rcpts)) eqn:Hlt;
    try discriminate;
    try (injection H as <- <- <-; exists []; rewrite app_nil_r;
         by repeat split).
  apply Nat.ltb_lt in Hlt.
  destruct (batch_length rcpts (BATCH_SIZE env) (index l) (BATCH_SIZE_pos env) Hlt)
    as (Hlen & Heff & Hle).
  set (batch := firstn (Nat.min (BATCH_SIZE env) (length rcpts - index l))
                  (skipn (index l) rcpts)) in *.
  set (call := {| via := t_host (currentTransportMeta l); bcc := batch |}) in *.
  assert (isBatchOf env rcpts call) as Hcall by (by exists (index l)).
  destruct answer as [|err].
  - apply IH in H as (calls & Hm & Hw & Hb & Hs & Hf & He & Hsent & Hfail & Hsub).
    exists (call :: calls). simpl in *.
    split; [by rewrite Hm, <- app_assoc|]. split; [lia|].
    split; [by constructor|]. split; [done|]. split; [done|].
    split; [intros _; apply He; unfold Js.unshiftCapped; rewrite length_take; lia|].
    split; [intros ?; apply Hsent; rewrite Hlen; lia|]. done.
  - destruct (isTemporarySmtpError (errorCode err) (errorMessage err)).
    + match type of H with
      | context [getTransport ?e ?x ?s] =>
          pose proof (getTransport_frame e x s) as (Hg1 & Hg2 & Hg3 & Hg4);
          destruct (getTransport e x s) as [next st2]
      end.
      apply IH in H as (calls & Hm & Hw & Hb & Hs & Hf & He & Hsent & Hfail & Hsub).
      exists (call :: calls). simpl in *.
      split; [by rewrite Hm, Hg1, <- app_assoc|]. split; [lia|].
      split; [by constructor|].
      split; [by rewrite Hs, Hg3|]. split; [by rewrite Hf, Hg4|].
      split.
      { intros _. apply He. rewrite Hg2. unfold Js.unshiftCapped.
        rewrite length_take. lia. }
      split; [done|]. split; [|done].
      intros Hl. apply Hfail. unfold listedFailed at 1. simpl.
      rewrite (listedFailed_snoc (acc l)
                 {| code := errorCode err; message := errorMessage err;
                    recipients := batch |}). simpl. by rewrite Hl.
    + apply IH in H as (calls & Hm & Hw & Hb & Hs & Hf & He & Hsent & Hfail & Hsub).
      exists (call :: calls). simpl in *.
      split; [by rewrite Hm, <- app_assoc|]. split; [lia|].
      split; [by constructor|]. split; [done|]. split; [done|].
      split; [intros _; apply He; unfold Js.unshiftCapped; rewrite length_take; lia|].
      split; [intros ?; apply Hsent; lia|]. split; [|done].
      intros Hl. apply Hfail. unfold listedFailed at 1. simpl.
      rewrite (listedFailed_snoc (acc l)
                 {| code := errorCode err; message := errorMessage err;
                    recipients := batch |}). simpl. by rewrite Hl.
Qed.

Lemma deliverEmailJob_trace env rcpts subj ty wire st r wire' st' :
  deliverEmailJob env rcpts subj ty wire st = Some (r, wire', st') →
  ∃ calls s,
    mailLog st' = (mailLog st ++ calls)%list
    ∧ length wire = (length calls + length wire')%nat
    ∧ Forall (isBatchOf env rcpts) calls
    ∧ summaryOf r = Some s
    ∧ subject s = subj
    ∧ attempted s = length rcpts
    ∧ (sent s ≤ attempted s)%nat
    ∧ failed s = listedFailed s
    ∧ totalSent st' = (totalSent st + sent s)%nat
    ∧ totalFailed st' = (totalFailed st + failed s)%nat
    ∧ ((length (emailEvents st) ≤ 50)%nat → (length (emailEvents st') ≤ 50)%nat).
Proof.
  intros H. unfold deliverEmailJob in H.
  destruct (isDryRunEnabled env).
  { injection H as <- <- <-. eexists [], _. rewrite app_nil_r.
    split; [done|]. split; [done|]. split; [constructor|].
    split; [reflexivity|]. simpl. repeat split; try done; try lia.
    intros _. unfold Js.unshiftCapped. rewrite length_take. lia. }
  pose proof (getTransport_frame env [] st) as (Hg1 & Hg2 & Hg3 & Hg4).
  destruct (getTransport env [] st) as [[meta|] st1]; simpl in Hg1, Hg2, Hg3, Hg4.
  - destruct (sendBatches env rcpts subj wire _ st1) as [[[l w] st2]|] eqn:Es;
      [|discriminate].
    pose proof Es as Hinv.
    apply sendBatches_inv in Hinv as ((Hidx & Hatt & _) & _ & _).
    2:{ split; [simpl; lia|]. split; [done|]. split; [done|]. discriminate. }
    apply sendBatches_trace in Es
      as (calls & Hm & Hw & Hb & Hs & Hf & He & Hsent & Hfail & Hsub).
    simpl in Hsent, Hfail, Hsub.
    specialize (Hsent (Nat.le_refl _)). specialize (Hfail eq_refl).
    assert (∃ s, summaryOf r = Some s ∧ s = acc l
                 ∧ mailLog st' = mailLog st2 ∧ wire' = w
                 ∧ totalSent st' = (totalSent st2 + sent (acc l))%nat
                 ∧ totalFailed st' = (totalFailed st2 + failed (acc l))%nat
                 ∧ emailEvents st' = emailEvents st2) as (s & Hr & -> & Hm' & -> & Hts & Htf & Hev).
    { destruct (hasErrors l); [destruct (errors (acc l)) as [|p ?]|];
        injection H as <- <- <-; by eexists. }
    exists calls, (acc l). rewrite Hm', Hm, Hg1, Hts, Htf, Hs, Hf, Hg3, Hg4, Hev.
    repeat split; try done; try lia.
    intros Hle. apply He. by rewrite Hg2.
  - injection H as <- <- <-. eexists [], _. rewrite app_nil_r. simpl.
    split; [done|]. split; [done|]. split; [constructor|].
    split; [reflexivity|]. simpl. repeat split; try done; try lia.
    intros _. unfold Js.unshiftCapped. rewrite length_take. lia.
Qed.

End AttemptFacts.

(** X8.  Every call of [sendMail] made by a delivery attempt carries a
    batch of the job: a slice of the recipients of 1 to [BATCH_SIZE]
    addresses, none from outside the job; and the attempt calls
    [sendMail] once per answer that it takes from the transport. *)
Theorem deliverEmailJob_batches env rcpts subj ty wire st r wire' st' :
  TxEmail.deliverEmailJob env rcpts subj ty wire st = Some (r, wire', st') →
  ∃ calls,
    TxEmail.mailLog st' = (TxEmail.mailLog st ++ calls)%list
    ∧ length wire = (length calls + length wire')%nat
    ∧ ∀ c, In c calls →
        isBatchOf env rcpts c
        ∧ (1 ≤ length (TxEmail.bcc c) ≤ TxEmail.BATCH_SIZE env)%nat
        ∧ ∀ x, In x (TxEmail.bcc c) → In x rcpts.
Proof.
  intros H. apply deliverEmailJob_trace in H as (calls & s & Hm & Hw & Hb & _).
  exists calls. split; [done|]. split; [done|].
  intros c Hc. rewrite List.Forall_forall in Hb.
  split; [by apply Hb|]. apply isBatchOf_shape. by apply Hb.
Qed.

Lemma deliverEmailJob_batches_witness :
  ∃ r wire' st' calls,
    TxEmail.deliverEmailJob (smtp_env (Some 2)) ["a@x.com"; "b@x.com"; "c@x.com"]
      "Sujet" None [TxEmail.Accepted; TxEmail.Rejected timed_out; TxEmail.Accepted]
      engine_at_rest = Some (r, wire', st')
    ∧ TxEmail.mailLog st' = (TxEmail.mailLog engine_at_rest ++ calls)%list
    ∧ 3%nat = (length calls + length wire')%nat
    ∧ Forall (fun c => (1 ≤ length (TxEmail.bcc c) ≤ 2)%nat) calls.
Proof.
  eassert (TxEmail.deliverEmailJob (smtp_env (Some 2)) ["a@x.com"; "b@x.com"; "c@x.com"]
      "Sujet" None [TxEmail.Accepted; TxEmail.Rejected timed_out; TxEmail.Accepted]
      engine_at_rest = Some (_, _, _)) as H by (vm_compute; reflexivity).
  destruct (deliverEmailJob_batches _ _ _ _ _ _ _ _ _ H) as (calls & H1 & H2 & H3).
  eexists _, _, _, calls. split; [exact H|].
  split; [exact H1|]. split; [exact H2|].
  apply List.Forall_forall. intros c Hc. exact (proj1 (proj2 (H3 c Hc))).
Defined.

(** X9.  The counters of a summary: whatever a delivery attempt
    answers, a resolution or an error, it carries a summary for the
    subject of the job in which [attempted] is the number of
    recipients, [sent] does not exceed [attempted], and [failed] is the
    number of recipients listed by the failures in [errors]. *)
Theorem deliverEmailJob_summary env rcpts subj ty wire st r wire' st' :
  TxEmail.deliverEmailJob env rcpts subj ty wire st = Some (r, wire', st') →
  ∃ s, summaryOf r = Some s
    ∧ TxEmail.subject s = subj
    ∧ TxEmail.attempted s = length rcpts
    ∧ (TxEmail.sent s ≤ TxEmail.attempted s)%nat
    ∧ TxEmail.failed s = listedFailed s.
Proof.
  intros H. apply deliverEmailJob_trace in H
    as (calls & s & _ & _ & _ & Hr & Hsub & Ha & Hs & Hf & _).
  by exists s.
Qed.

Lemma deliverEmailJob_summary_witness :
  ∃ r wire' st' s,
    TxEmail.deliverEmailJob (smtp_env (Some 2)) ["a@x.com"; "b@x.com"; "c@x.com"]
      "Sujet" None [TxEmail.Accepted; TxEmail.Rejected mailbox_unavailable]
      engine_at_rest = Some (r, wire', st')
    ∧ summaryOf r = Some s
    ∧ TxEmail.subject s = "Sujet"
    ∧ TxEmail.attempted s = 3%nat
    ∧ (TxEmail.sent s ≤ TxEmail.attempted s)%nat
    ∧ TxEmail.failed s = listedFailed s.
Proof.
  eassert (TxEmail.deliverEmailJob (smtp_env (Some 2)) ["a@x.com"; "b@x.com"; "c@x.com"]
      "Sujet" None [TxEmail.Accepted; TxEmail.Rejected mailbox_unavailable]
      engine_at_rest = Some (_, _, _)) as H by (vm_compute; reflexivity).
  destruct (deliverEmailJob_summary _ _ _ _ _ _ _ _ _ H) as (s & H1).
  eexists _, _, _, s. split; [exact H | exact H1].
Defined.

(** X10.  The running counters and the diagnostic log: a delivery
    attempt adds to [totalSent] and [totalFailed] the [sent] and
    [failed] of the summary it answers, and keeps [emailEvents] within
    50 entries. *)
Theorem deliverEmailJob_counters env rcpts subj ty wire st r wire' st' :
  TxEmail.deliverEmailJob env rcpts subj ty wire st = Some (r, wire', st') →
  ∃ s, summaryOf r = Some s
    ∧ TxEmail.totalSent st' = (TxEmail.totalSent st + TxEmail.sent s)%nat
    ∧ TxEmail.totalFailed st' = (TxEmail.totalFailed st + TxEmail.failed s)%nat
    ∧ ((length (TxEmail.emailEvents st) ≤ 50)%nat →
       (length (TxEmail.emailEvents st') ≤ 50)%nat).
Proof.
  intros H. apply deliverEmailJob_trace in H
    as (calls & s & _ & _ & _ & Hr & _ & _ & _ & _ & Hts & Htf & He).
  by exists s.
Qed.

Lemma deliverEmailJob_counters_witness :
  ∃ r wire' st' s,
    TxEmail.deliverEmailJob (smtp_env (Some 2)) ["a@x.com"; "b@x.com"; "c@x.com"]
      "Sujet" None [TxEmail.Accepted; TxEmail.Rejected mailbox_unavailable]
      engine_at_rest = Some (r, wire', st')
    ∧ summaryOf r = Some s
    ∧ TxEmail.totalSent st' = (TxEmail.totalSent engine_at_rest + TxEmail.sent s)%nat
    ∧ TxEmail.totalFailed st'
      = (TxEmail.totalFailed engine_at_rest + TxEmail.failed s)%nat
    ∧ (length (TxEmail.emailEvents st') ≤ 50)%nat.
Proof.
  eassert (TxEmail.deliverEmailJob (smtp_env (Some 2)) ["a@x.com"; "b@x.com"; "c@x.com"]
      "Sujet" None [TxEmail.Accepted; TxEmail.Rejected mailbox_unavailable]
      engine_at_rest = Some (_, _, _)) as H by (vm_compute; reflexivity).
  destruct (deliverEmailJob_counters _ _ _ _ _ _ _ _ _ H) as (s & H1 & H2 & H3 & H4).
  eexists _, _, _, s. split; [exact H|]. repeat split; try done.
  apply H4. simpl. lia.
Defined.

(** ** The recipients that reach the queue *)

Section Enqueued.
Import TxEmail.






End Enqueued.



(** ** Transports that accept everything, or refuse everything *)

Section UniformWires.
Import TxEmail.

Lemma sendBatches_done env rcpts subj wire l st :
  (length rcpts ≤ index l)%nat →
  sendBatches env rcpts subj wire l st = Some (l, wire, st).
Proof.
  intros H. apply Nat.ltb_ge in H.
  destruct wire; cbn [sendBatches]; by rewrite H.
Qed.

Lemma drop_batch (rcpts : list string) i eff :
  skipn i rcpts = (firstn eff (skipn i rcpts) ++ skipn (i + eff) rcpts)%list.
Proof. by rewrite <- drop_drop, take_drop. Qed.

Lemma sendBatches_accepted_calls env rcpts subj : ∀ k l st rest,
  (length rcpts - index l ≤ k)%nat →
  ∃ l' wire' st' calls,
    sendBatches env rcpts subj (repeat Accepted k ++ rest)%list l st
    = Some (l', wire', st')
    ∧ hasErrors l' = hasErrors l
    ∧ mailLog st' = (mailLog st ++ calls)%list
    ∧ concat (map bcc calls) = skipn (index l) rcpts
    ∧ Forall (fun c => via c = t_host (currentTransportMeta l)) calls.
Proof.
  induction k as [|k IH]; intros l st rest Hk.
  - exists l, rest, st, []. rewrite sendBatches_done by lia.
    rewrite app_nil_r, drop_ge by lia. by repeat split.
  - destruct (Nat.ltb (index l) (length rcpts)) eqn:Hlt.
    + cbn [repeat app sendBatches]. rewrite Hlt.
      apply Nat.ltb_lt in Hlt.
      destruct (batch_length rcpts (BATCH_SIZE env) (index l) (BATCH_SIZE_pos env) Hlt)
        as (_ & Heff & _).
      match goal with
      | |- context [sendBatches _ _ _ _ ?l1 ?s1] =>
          destruct (IH l1 s1 rest) as (l' & w' & st' & calls & E & He & Hm & Hc & Hv);
            [simpl; lia|]
      end.
      eexists l', w', st', (_ :: calls). split; [exact E|].
      simpl in *. split; [done|]. split; [by rewrite Hm, <- app_assoc|].
      split; [|by constructor].
      rewrite Hc. symmetry. apply drop_batch.
    + apply Nat.ltb_ge in Hlt.
      exists l, (repeat Accepted (S k) ++ rest)%list, st, [].
      rewrite sendBatches_done by lia.
      rewrite app_nil_r, drop_ge by lia. by repeat split.
Qed.

Lemma sendBatches_rejected_calls env rcpts subj : ∀ errs l st rest,
  Forall permanentError errs →
  (length rcpts - index l ≤ length errs)%nat →
  ∃ l' wire' st' calls,
    sendBatches env rcpts subj (map Rejected errs ++ rest)%list l st
    = Some (l', wire', st')
    ∧ hasErrors l' = hasErrors l || Nat.ltb (index l) (length rcpts)
    ∧ hasPermanentFailure l'
      = hasPermanentFailure l || Nat.ltb (index l) (length rcpts)
    ∧ sent (acc l') = sent (acc l)
    ∧ failed (acc l') = (failed (acc l) + (length rcpts - index l))%nat
    ∧ mailLog st' = (mailLog st ++ calls)%list
    ∧ concat (map bcc calls) = skipn (index l) rcpts.
Proof.
  induction errs as [|err errs IH]; intros l st rest Hperm Hk.
  - simpl in Hk. exists l, rest, st, []. rewrite sendBatches_done by lia.
    assert (Nat.ltb (index l) (length rcpts) = false) as ->
      by (apply Nat.ltb_ge; lia).
    rewrite app_nil_r, drop_ge, !orb_false_r by lia.
    repeat split; try done. lia.
  - destruct (Nat.ltb (index l) (length rcpts)) eqn:Hlt.
    + cbn [map app sendBatches]. rewrite Hlt.
      apply Nat.ltb_lt in Hlt.
      destruct (batch_length rcpts (BATCH_SIZE env) (index l) (BATCH_SIZE_pos env) Hlt)
        as (Hlen & Heff & Hle).
      inversion Hperm as [|? ? Herr Hrest]; subst.
      unfold permanentError in Herr. rewrite Herr.
      match goal with
      | |- context [sendBatches _ _ _ _ ?l1 ?s1] =>
          destruct (IH l1 s1 rest Hrest)
            as (l' & w' & st' & calls & E & He & Hp & Hs & Hf & Hm & Hc);
            [simpl in *; lia|]
      end.
      eexists l', w', st', (_ :: calls). split; [exact E|].
      simpl in *. rewrite Hlen in Hf.
      rewrite He, Hp, Hs, Hf, Hm, Hc, !orb_true_r.
      repeat split; try done; try lia.
      * by rewrite <- app_assoc.
      * symmetry. apply drop_batch.
    + apply Nat.ltb_ge in Hlt.
      exists l, (map Rejected (err :: errs) ++ rest)%list, st, [].
      rewrite sendBatches_done by lia.
      rewrite app_nil_r, drop_ge, !orb_false_r by lia.
      repeat split; try done. lia.
Qed.

Lemma deliverWithRetry_resolved env job fuel attempt wire st s wire' st' :
  deliverEmailJob env (j_recipients job) (j_subject job) (type job) wire st
    = Some (inl s, wire', st') →
  deliverWithRetry fuel env job attempt wire st = Some (inl s, wire', st').
Proof. intros H. destruct fuel; cbn [deliverWithRetry]; by rewrite H. Qed.

End UniformWires.

(** X11.  When the dry run is off, a transport is resolved and the
    transport accepts every batch, a delivery attempt resolves with
    every recipient sent and no failure; the batches it sent, put end
    to end, are the recipients of the job: each address was handed to
    the transport once, in order, through the transport resolved.  The
    last transport error is cleared. *)
Theorem deliverEmailJob_all_accepted env rcpts subj ty st k rest meta :
  TxEmail.isDryRunEnabled env = false →
  fst (TxEmail.getTransport env [] st) = Some meta →
  (length rcpts ≤ k)%nat →
  ∃ s wire' st' calls,
    TxEmail.deliverEmailJob env rcpts subj ty
      (repeat TxEmail.Accepted k ++ rest)%list st = Some (inl s, wire', st')
    ∧ TxEmail.sent s = length rcpts
    ∧ TxEmail.failed s = 0%nat
    ∧ TxEmail.errors s = []
    ∧ TxEmail.mailLog st' = (TxEmail.mailLog st ++ calls)%list
    ∧ concat (map TxEmail.bcc calls) = rcpts
    ∧ Forall (fun c => TxEmail.via c = TxEmail.t_host meta) calls
    ∧ TxEmail.lastTransportError st' = None.
Proof.
  intros Hdry Ht Hk. unfold TxEmail.deliverEmailJob. rewrite Hdry.
  pose proof (getTransport_frame env [] st) as (Hg1 & _).
  destruct (TxEmail.getTransport env [] st) as [[m|] st1]; simpl in Ht, Hg1;
    [|discriminate].
  injection Ht as ->.
  edestruct (sendBatches_accepted_calls env rcpts subj k
               {| TxEmail.index := 0;
                  TxEmail.acc := {| TxEmail.subject := subj;
                                    TxEmail.attempted := length rcpts;
                                    TxEmail.sent := 0; TxEmail.failed := 0;
                                    TxEmail.errors := [] |};
                  TxEmail.hasErrors := false; TxEmail.hasPermanentFailure := false;
                  TxEmail.excludedHosts := []; TxEmail.currentTransportMeta := meta |}
               st1 rest) as (l' & w' & st' & calls & E & He & Hm & Hc & Hv);
    [simpl; lia|].
  rewrite E. simpl in He, Hc, Hv. rewrite He.
  apply sendBatches_inv in E as ((Hidx & _ & Hok & _) & Hend & _).
  2:{ split; [simpl; lia|]. split; [done|]. split; [done|]. discriminate. }
  destruct (Hok He) as (Hf & Herr & Hs).
  eexists _, _, _, calls. split; [reflexivity|]. simpl.
  rewrite Hm, Hg1. repeat split; try done. lia.
Qed.

Lemma deliverEmailJob_all_accepted_witness :
  ∃ s wire' st' calls,
    TxEmail.deliverEmailJob (smtp_env (Some 2)) ["a@x.com"; "b@x.com"; "c@x.com"]
      "Sujet" None (repeat TxEmail.Accepted 3 ++ [])%list engine_at_rest
    = Some (inl s, wire', st')
    ∧ TxEmail.sent s = 3%nat
    ∧ TxEmail.failed s = 0%nat
    ∧ TxEmail.errors s = []
    ∧ TxEmail.mailLog st' = (TxEmail.mailLog engine_at_rest ++ calls)%list
    ∧ concat (map TxEmail.bcc calls) = ["a@x.com"; "b@x.com"; "c@x.com"]
    ∧ Forall (fun c => TxEmail.via c = "smtp.example.com") calls
    ∧ TxEmail.lastTransportError st' = None.
Proof.
  apply (deliverEmailJob_all_accepted (smtp_env (Some 2))
           ["a@x.com"; "b@x.com"; "c@x.com"] "Sujet" None engine_at_rest 3 []
           {| TxEmail.t_host := "smtp.example.com"; TxEmail.t_name := "primary" |}).
  - vm_compute. reflexivity.
  - vm_compute. reflexivity.
  - simpl. lia.
Defined.

(** X12.  When the transport refuses every batch for good, a call of
    [sendEmail] on an engine at rest raises a permanent error whose
    summary has nothing sent and every recipient failed.  Each batch
    was tried once and then skipped: the batches handed to the
    transport, put end to end, are the recipients, so that neither a
    batch nor the job as a whole was tried again. *)
Theorem sendEmail_all_rejected env to subj bod ty st errs rest meta :
  Spec.atRest st →
  TxEmail.isDryRunEnabled env = false →
  fst (TxEmail.getTransport env [] st) = Some meta →
  TxEmail.recipientsOf to ≠ [] →
  Forall permanentError errs →
  (length (TxEmail.recipientsOf to) ≤ length errs)%nat →
  ∃ e s wire' st' calls,
    TxEmail.sendEmail env to subj bod ty
      (map TxEmail.Rejected errs ++ rest)%list st
    = Some (TxEmail.Raised e, wire', st')
    ∧ TxEmail.permanent e = true
    ∧ TxEmail.summary e = Some s
    ∧ TxEmail.sent s = 0%nat
    ∧ TxEmail.failed s = length (TxEmail.recipientsOf to)
    ∧ TxEmail.attempted s = length (TxEmail.recipientsOf to)
    ∧ TxEmail.mailLog st' = (TxEmail.mailLog st ++ calls)%list
    ∧ concat (map TxEmail.bcc calls) = TxEmail.recipientsOf to.
Proof.
  intros Hrest Hdry Ht Hne Hperm Hlen.
  set (rcpts := TxEmail.recipientsOf to) in *.
  set (subj' := if Js.truthy (Js.trim subj) then Js.trim subj else TxEmail.DEFAULT_SUBJECT).
  set (st0 := claimed rcpts subj' bod ty st).
  assert (∃ e s w st1 calls,
            TxEmail.deliverEmailJob env rcpts subj' ty
              (map TxEmail.Rejected errs ++ rest)%list st0 = Some (inr e, w, st1)
            ∧ TxEmail.permanent e = true ∧ TxEmail.summary e = Some s
            ∧ TxEmail.sent s = 0%nat ∧ TxEmail.failed s = length rcpts
            ∧ TxEmail.attempted s = length rcpts
            ∧ TxEmail.mailLog st1 = (TxEmail.mailLog st ++ calls)%list
            ∧ concat (map TxEmail.bcc calls) = rcpts)
    as (e & s & w & st1 & calls & Hd & Hp & Hs & Hsent & Hf & Ha & Hm & Hc).
  { unfold TxEmail.deliverEmailJob. rewrite Hdry.
    pose proof (getTransport_frame env [] st0) as (Hg1 & _).
    rewrite (getTransport_fst env [] st st0) in Ht.
    destruct (TxEmail.getTransport env [] st0) as [[m|] st1]; simpl in Ht, Hg1;
      [|discriminate].
    edestruct (sendBatches_rejected_calls env rcpts subj' errs
                 {| TxEmail.index := 0;
                    TxEmail.acc := {| TxEmail.subject := subj';
                                      TxEmail.attempted := length rcpts;
                                      TxEmail.sent := 0; TxEmail.failed := 0;
                                      TxEmail.errors := [] |};
                    TxEmail.hasErrors := false; TxEmail.hasPermanentFailure := false;
                    TxEmail.excludedHosts := []; TxEmail.currentTransportMeta := m |}
                 st1 rest Hperm)
      as (l' & w' & st' & calls & E & He & Hp & Hs & Hf & Hm & Hc); [simpl; lia|].
    rewrite E. simpl in He, Hp, Hs, Hf, Hc.
    assert (Nat.ltb 0 (length rcpts) = true) as Hpos
      by (apply Nat.ltb_lt; destruct rcpts; [done | simpl; lia]).
    rewrite Hpos in He, Hp. rewrite He.
    apply sendBatches_inv in E as ((_ & Hatt & _ & Hko) & _ & _).
    2:{ split; [simpl; lia|]. split; [done|]. split; [done|]. discriminate. }
    destruct (Hko He) as (_ & Herr).
    destruct (TxEmail.errors (TxEmail.acc l')) as [|p ps] eqn:Ee; [done|].
    eexists _, _, _, _, calls. split; [reflexivity|]. simpl.
    rewrite Hm, Hg1. repeat split; try done. lia. }
  pose proof (deliverWithRetry_permanent env (jobOf rcpts subj' bod ty st)
                (TxEmail.MAX_RETRY env) 1 _ st0 e w st1 Hd Hp) as Hretry.
  assert (queues st1 = queues st0) as Hq
    by (by apply deliverEmailJob_result in Hd as [_ ?]).
  destruct (released_state rcpts subj' bod ty st (inr e) st1 Hrest Hq)
    as (_ & _ & _ & _ & _ & H6 & _).
  exists e, s, w, (released (TxEmail.nextJobId st) (inr e) st1), calls.
  split.
  - unfold TxEmail.sendEmail. fold rcpts. fold subj'.
    destruct (Nat.eqb (length rcpts) 0) eqn:E.
    { apply Nat.eqb_eq in E. by destruct rcpts. }
    rewrite (enqueueEmailJob_atRest _ _ _ _ _ _ _ Hrest).
    fold st0. rewrite Hretry, Hs. reflexivity.
  - rewrite H6. by repeat split.
Qed.

Lemma sendEmail_all_rejected_witness :
  ∃ e s wire' st' calls,
    TxEmail.sendEmail (smtp_env (Some 1)) two_recipients "Sujet" "Contenu" None
      (map TxEmail.Rejected [mailbox_unavailable; mailbox_unavailable] ++ [])%list
      engine_at_rest
    = Some (TxEmail.Raised e, wire', st')
    ∧ TxEmail.permanent e = true
    ∧ TxEmail.summary e = Some s
    ∧ TxEmail.sent s = 0%nat
    ∧ TxEmail.failed s = length (TxEmail.recipientsOf two_recipients)
    ∧ TxEmail.attempted s = length (TxEmail.recipientsOf two_recipients)
    ∧ TxEmail.mailLog st' = (TxEmail.mailLog engine_at_rest ++ calls)%list
    ∧ concat (map TxEmail.bcc calls) = TxEmail.recipientsOf two_recipients.
Proof.
  apply (sendEmail_all_rejected (smtp_env (Some 1)) two_recipients "Sujet" "Contenu"
           None engine_at_rest [mailbox_unavailable; mailbox_unavailable] []
           {| TxEmail.t_host := "smtp.example.com"; TxEmail.t_name := "primary" |}).
  - exact engine_at_rest_atRest.
  - vm_compute. reflexivity.
  - vm_compute. reflexivity.
  - vm_compute. discriminate.
  - repeat constructor.
  - vm_compute. lia.
Defined.

(** X13.  In a dry run ([NODE_ENV] is [test], or [SMTP_DRY_RUN] is
    set) a call of [sendEmail] with a valid recipient on an engine at
    rest returns whatever the transports are: the job goes through both
    queues and is resolved with every recipient sent, [totalSent] grows
    by their number, and neither the transport nor its answers are
    touched. *)
Theorem sendEmail_dry_run env to subj bod ty wire st :
  Spec.atRest st →
  TxEmail.isDryRunEnabled env = true →
  TxEmail.recipientsOf to ≠ [] →
  ∃ s st',
    TxEmail.sendEmail env to subj bod ty wire st = Some (TxEmail.Returned, wire, st')
    ∧ TxEmail.settlement (TxEmail.nextJobId st) (TxEmail.settled st') = Some (inl s)
    ∧ TxEmail.sent s = length (TxEmail.recipientsOf to)
    ∧ TxEmail.failed s = 0%nat
    ∧ TxEmail.mailLog st' = TxEmail.mailLog st
    ∧ TxEmail.totalSent st'
      = (TxEmail.totalSent st + length (TxEmail.recipientsOf to))%nat
    ∧ TxEmail.totalFailed st' = TxEmail.totalFailed st
    ∧ TxEmail.journal st'
      = (TxEmail.journal st ++ lifecycle (TxEmail.nextJobId st))%list
    ∧ TxEmail.emailQueue st' = []
    ∧ TxEmail.persistedQueue st' = TxEmail.persistedQueue st.
Proof.
  intros Hrest Hdry Hne.
  set (rcpts := TxEmail.recipientsOf to) in *.
  set (subj' := if Js.truthy (Js.trim subj) then Js.trim subj else TxEmail.DEFAULT_SUBJECT).
  set (st0 := claimed rcpts subj' bod ty st).
  set (sm := {| TxEmail.subject := subj'; TxEmail.attempted := length rcpts;
                TxEmail.sent := length rcpts; TxEmail.failed := 0;
                TxEmail.errors := [] |}).
  set (st1 := TxEmail.logEvent
                {| TxEmail.ev_subject := subj'; TxEmail.toCount := length rcpts;
                   TxEmail.success := true; TxEmail.error := None |}
                (TxEmail.addStats (length rcpts) 0 st0)).
  assert (TxEmail.deliverEmailJob env rcpts subj' ty wire st0 = Some (inl sm, wire, st1))
    as Hd by (unfold TxEmail.deliverEmailJob; rewrite Hdry; reflexivity).
  pose proof (deliverWithRetry_resolved env (jobOf rcpts subj' bod ty st)
                (TxEmail.MAX_RETRY env) 1 _ st0 _ _ _ Hd) as Hretry.
  assert (queues st1 = queues st0) as Hq by reflexivity.
  destruct (released_state rcpts subj' bod ty st (inl sm) st1 Hrest Hq)
    as (H1 & H2 & H3 & H4 & H5 & H6 & H7 & H8).
  exists sm, (released (TxEmail.nextJobId st) (inl sm) st1). split.
  - unfold TxEmail.sendEmail. fold rcpts. fold subj'.
    destruct (Nat.eqb (length rcpts) 0) eqn:E.
    { apply Nat.eqb_eq in E. by destruct rcpts. }
    rewrite (enqueueEmailJob_atRest _ _ _ _ _ _ _ Hrest).
    fold st0. rewrite Hretry. reflexivity.
  - rewrite H5, H6, H7, H8. by repeat split.
Qed.

Lemma sendEmail_dry_run_witness :
  let env := {| TxEmail.NODE_ENV := Some "Test"; TxEmail.SMTP_DRY_RUN := None;
                TxEmail.SMTP_DISABLE := None; TxEmail.SMTP_MAX_CONCURRENT := None;
                TxEmail.SMTP_MAX_RETRY := None; TxEmail.SMTP_BATCH_SIZE := None;
                TxEmail.candidates := []; TxEmail.verify := fun _ => None |} in
  ∃ s st',
    TxEmail.sendEmail env two_recipients "Sujet" "Contenu" None
      [TxEmail.Rejected timed_out] engine_at_rest
    = Some (TxEmail.Returned, [TxEmail.Rejected timed_out], st')
    ∧ TxEmail.settlement (TxEmail.nextJobId engine_at_rest) (TxEmail.settled st')
      = Some (inl s)
    ∧ TxEmail.sent s = length (TxEmail.recipientsOf two_recipients)
    ∧ TxEmail.failed s = 0%nat
    ∧ TxEmail.mailLog st' = TxEmail.mailLog engine_at_rest
    ∧ TxEmail.totalSent st'
      = (TxEmail.totalSent engine_at_rest
         + length (TxEmail.recipientsOf two_recipients))%nat
    ∧ TxEmail.totalFailed st' = TxEmail.totalFailed engine_at_rest
    ∧ TxEmail.journal st'
      = (TxEmail.journal engine_at_rest
         ++ lifecycle (TxEmail.nextJobId engine_at_rest))%list
    ∧ TxEmail.emailQueue st' = []
    ∧ TxEmail.persistedQueue st' = TxEmail.persistedQueue engine_at_rest.
Proof.
  intros env.
  apply (sendEmail_dry_run env two_recipients "Sujet" "Contenu" None
           [TxEmail.Rejected timed_out] engine_at_rest).
  - exact engine_at_rest_atRest.
  - vm_compute. reflexivity.
  - vm_compute. discriminate.
Defined.

(** ** Escaping of a plain body *)

Section HtmlFacts.
Import Html.

Lemma occurs_append c a b : occurs c (a +:+ b) = occurs c a || occurs c b.
Proof.
  induction a as [|d a IH]; [reflexivity|].
  change (String d a +:+ b) with (String d (a +:+ b)). simpl.
  by rewrite IH, orb_assoc.
Qed.

Lemma replaceAll_occurs c d by_ s :
  occurs c by_ = false →
  occurs c (replaceAll d by_ s) = if Ascii.eqb c d then false else occurs c s.
Proof.
  intros Hby. induction s as [|e s IH]; simpl.
  - by destruct (Ascii.eqb c d).
  - destruct (Ascii.eqb e d) eqn:Eed.
    + rewrite occurs_append, Hby, IH. simpl.
      apply Ascii.eqb_eq in Eed. subst e.
      rewrite (Ascii.eqb_sym d c). by destruct (Ascii.eqb c d).
    + simpl. rewrite IH.
      destruct (Ascii.eqb c d) eqn:Ecd; [|reflexivity].
      apply Ascii.eqb_eq in Ecd. subst d. by rewrite Eed.
Qed.

Lemma replaceAll_absent d by_ s : occurs d s = false → replaceAll d by_ s = s.
Proof.
  induction s as [|e s IH]; simpl; [done|].
  destruct (Ascii.eqb e d); simpl; [done|]. intros H. by rewrite IH.
Qed.

End HtmlFacts.

(** X14.  The escaping of [buildEmailHtml]: the escaped text of a
    plain body holds neither [<] nor [>], whatever the body; a body
    without [&], [<] and [>] is left as it is. *)
Theorem safeText_has_no_markup body :
  occurs "<" (Html.safeText body) = false
  ∧ occurs ">" (Html.safeText body) = false
  ∧ (occurs "&" body = false → occurs "<" body = false → occurs ">" body = false →
     Html.safeText body = body).
Proof.
  unfold Html.safeText. split; [|split].
  - rewrite replaceAll_occurs by reflexivity. simpl.
    by rewrite replaceAll_occurs by reflexivity.
  - by rewrite replaceAll_occurs by reflexivity.
  - intros Ha Hl Hg. by rewrite (replaceAll_absent "&"), (replaceAll_absent "<"),
      (replaceAll_absent ">").
Qed.

Lemma safeText_has_no_markup_witness :
  occurs "<" (Html.safeText "<b>Tom & Jerry</b>") = false
  ∧ occurs ">" (Html.safeText "<b>Tom & Jerry</b>") = false
  ∧ Html.safeText "Bonjour Alice" = "Bonjour Alice".
Proof.
  destruct (safeText_has_no_markup "<b>Tom & Jerry</b>") as (H1 & H2 & _).
  destruct (safeText_has_no_markup "Bonjour Alice") as (_ & _ & H3).
  split; [exact H1|]. split; [exact H2|]. apply H3; reflexivity.
Defined.

(** ** Classification of a reply code *)

Section ClassFacts.
Import TxEmail.

Lemma isTemporarySmtpError_by_code code message :
  isTemporarySmtpError code message
  = if negb (Js.truthy (Js.toUpperCase (Js.trim code)))
    then Re.search RE_NO_CODE message
    else codeIsTemporary code || Re.search RE_TEMPORARY message.
Proof.
  unfold isTemporarySmtpError, codeIsTemporary.
  destruct (negb (Js.truthy (Js.toUpperCase (Js.trim code)))); [reflexivity|].
  destruct (bool_decide _); [reflexivity|].
  destruct (Re.matches RE_4XX _); [reflexivity|].
  by destruct (String.eqb _ "421").
Qed.

Lemma replyCodes_checked : forallb replyCodeChecked (seq 100 900) = true.
Proof. vm_compute. reflexivity. Qed.

End ClassFacts.

(** X15.  An error of the transport that carries a three-digit
    [responseCode] is classified by that code, the [code] field being
    ignored: a reply 4xx is temporary whatever its message, any other
    reply is temporary only when its message says so (temporary,
    timeout, try again, later, rate limit). *)
Theorem responseCode_classification n code msg :
  (100 ≤ n ≤ 999)%nat →
  let err := {| TxEmail.responseCode := Some n; TxEmail.smtpCode := code;
                TxEmail.smtpMessage := msg |} in
  TxEmail.errorCode err = TxEmail.decimal n
  ∧ TxEmail.isTemporarySmtpError (TxEmail.errorCode err) (TxEmail.errorMessage err)
    = is4xx n || Re.search TxEmail.RE_TEMPORARY (TxEmail.errorMessage err).
Proof.
  intros Hn err.
  assert (TxEmail.errorCode err = TxEmail.decimal n) as Hc.
  { unfold TxEmail.errorCode. simpl. destruct n; [lia | reflexivity]. }
  split; [exact Hc|]. rewrite Hc, isTemporarySmtpError_by_code.
  pose proof replyCodes_checked as H.
  rewrite forallb_forall in H. specialize (H n).
  unfold replyCodeChecked in H.
  apply andb_true_iff in H as [Ht He]; [|apply in_seq; lia].
  apply Bool.eqb_prop in He. by rewrite Ht, He.
Qed.

Lemma responseCode_classification_witness :
  TxEmail.errorCode mailbox_unavailable = TxEmail.decimal 550
  ∧ TxEmail.isTemporarySmtpError (TxEmail.errorCode mailbox_unavailable)
      (TxEmail.errorMessage mailbox_unavailable)
    = is4xx 550
      || Re.search TxEmail.RE_TEMPORARY (TxEmail.errorMessage mailbox_unavailable).
Proof.
  apply (responseCode_classification 550 (Some "EENVELOPE")
           "550 5.1.1 mailbox unavailable").
  lia.
Defined.

(** ** The drainer in a dry run *)

Section DrainFacts.
Import TxEmail.

Lemma removePersistedJob_frame jobId st :
  let st' := removePersistedJob jobId st in
  emailQueue st' = emailQueue st ∧ isProcessingQueue st' = isProcessingQueue st
  ∧ settled st' = settled st ∧ totalSent st' = totalSent st
  ∧ mailLog st' = mailLog st.
Proof.
  unfold removePersistedJob. by destruct (list_find _ _) as [[? ?]|].
Qed.

Lemma runJobs_dry env wire : ∀ jobs st,
  isDryRunEnabled env = true →
  ∃ st', runJobs env jobs wire st = Some (wire, st')
    ∧ emailQueue st' = emailQueue st
    ∧ isProcessingQueue st' = isProcessingQueue st
    ∧ settled st' = (settled st ++ drySettlements jobs)%list
    ∧ totalSent st' = (totalSent st + dryTotal jobs)%nat
    ∧ mailLog st' = mailLog st.
Proof.
  intros jobs st Hdry. revert st.
  induction jobs as [|job jobs IH]; intros st; simpl.
  - exists st. rewrite app_nil_r.
    repeat split; try done; try (unfold dryTotal; simpl; lia).
  - unfold runJob.
    eassert (deliverEmailJob env (j_recipients job) (j_subject job) (type job) wire st
             = Some (inl (drySummary job), wire, _)) as Hd
      by (unfold deliverEmailJob; rewrite Hdry; reflexivity).
    rewrite (deliverWithRetry_resolved env job (MAX_RETRY env) 1 _ _ _ _ _ Hd).
    match goal with
    | |- context [removePersistedJob ?i ?s] =>
        pose proof (removePersistedJob_frame i s) as (H1 & H2 & H3 & H4 & H5);
        destruct (IH (removePersistedJob i s)) as (st' & E & I1 & I2 & I3 & I4 & I5)
    end.
    exists st'. split; [exact E|]. simpl in *.
    rewrite I1, I2, I3, I4, I5, H1, H2, H3, H4, H5.
    repeat split; try done.
    + by rewrite <- app_assoc.
    + unfold dryTotal. simpl. lia.
Qed.

Lemma dryTotal_app a b : dryTotal (a ++ b) = (dryTotal a + dryTotal b)%nat.
Proof.
  unfold dryTotal. induction a as [|j a IH]; simpl; [done|]. rewrite IH. lia.
Qed.

Lemma drain_dry env wire : ∀ fuel st,
  isDryRunEnabled env = true →
  (length (emailQueue st) ≤ fuel)%nat →
  ∃ st', drain fuel env wire st = Some (wire, st')
    ∧ emailQueue st' = []
    ∧ isProcessingQueue st' = isProcessingQueue st
    ∧ settled st' = (settled st ++ drySettlements (emailQueue st))%list
    ∧ totalSent st' = (totalSent st + dryTotal (emailQueue st))%nat
    ∧ mailLog st' = mailLog st.
Proof.
  intros fuel st Hdry. revert st.
  induction fuel as [|fuel IH]; intros st Hlen.
  - destruct (emailQueue st) as [|j q] eqn:Eq; [|simpl in Hlen; lia].
    exists st. simpl. rewrite Eq, app_nil_r.
    repeat split; try done; try (unfold dryTotal; simpl; lia).
  - cbn [drain]. destruct (emailQueue st) as [|j q] eqn:Eq.
    + exists st. rewrite app_nil_r.
      repeat split; try done; try (unfold dryTotal; simpl; lia).
    + set (M := MAX_CONCURRENT env).
      assert (1 ≤ M)%nat as HM by (destruct (MAX_CONCURRENT_pos env) as [m Hm]; lia).
      match goal with
      | |- context [runJobs env ?jobs wire ?s1] =>
          destruct (runJobs_dry env wire jobs s1 Hdry)
            as (st2 & E & H1 & H2 & H3 & H4 & H5)
      end.
      rewrite E.
      assert (emailQueue st2 = skipn M (j :: q)) as H1' by exact H1.
      assert (isProcessingQueue st2 = isProcessingQueue st) as H2' by exact H2.
      assert (settled st2 = (settled st ++ drySettlements (firstn M (j :: q)))%list)
        as H3' by exact H3.
      assert (totalSent st2 = (totalSent st + dryTotal (firstn M (j :: q)))%nat)
        as H4' by exact H4.
      assert (mailLog st2 = mailLog st) as H5' by exact H5.
      destruct (IH st2) as (st' & E' & I1 & I2 & I3 & I4 & I5).
      { rewrite H1', length_drop. simpl in *. lia. }
      exists st'. split; [exact E'|].
      rewrite I2, I3, I4, I5, H1', H2', H3', H4', H5'.
      repeat split; try done.
      * rewrite <- app_assoc. f_equal. unfold drySettlements.
        by rewrite <- map_app, take_drop.
      * by rewrite <- Nat.add_assoc, <- dryTotal_app, take_drop.
Qed.

End DrainFacts.

(** X16.  In a dry run the drainer, when it is not already running,
    empties the in-memory queue whatever its length and
    [MAX_CONCURRENT]: every job is resolved with all its recipients
    sent, the jobs are settled in the order of the queue, and the
    transport is not called.  A call made while the drainer is running
    does nothing. *)
Theorem processQueue_dry_run_fifo env wire st :
  TxEmail.isDryRunEnabled env = true →
  (TxEmail.isProcessingQueue st = true →
     TxEmail.processQueue env wire st = Some (wire, st))
  ∧ (TxEmail.isProcessingQueue st = false →
     ∃ st', TxEmail.processQueue env wire st = Some (wire, st')
       ∧ TxEmail.emailQueue st' = []
       ∧ TxEmail.isProcessingQueue st' = false
       ∧ TxEmail.settled st'
         = (TxEmail.settled st ++ drySettlements (TxEmail.emailQueue st))%list
       ∧ TxEmail.totalSent st'
         = (TxEmail.totalSent st + dryTotal (TxEmail.emailQueue st))%nat
       ∧ TxEmail.mailLog st' = TxEmail.mailLog st).
Proof.
  intros Hdry. unfold TxEmail.processQueue. split; [by intros ->|].
  intros ->.
  destruct (drain_dry env wire (length (TxEmail.emailQueue st))
              (TxEmail.withProcessing true st) Hdry (Nat.le_refl _))
    as (st' & E & H1 & H2 & H3 & H4 & H5).
  rewrite E. exists (TxEmail.withProcessing false st'). by repeat split.
Qed.

Lemma processQueue_dry_run_fifo_witness :
  ∃ st', TxEmail.processQueue dry_run_env [TxEmail.Rejected timed_out] three_queued
         = Some ([TxEmail.Rejected timed_out], st')
    ∧ TxEmail.emailQueue st' = []
    ∧ TxEmail.isProcessingQueue st' = false
    ∧ TxEmail.settled st'
      = (TxEmail.settled three_queued
         ++ drySettlements (TxEmail.emailQueue three_queued))%list
    ∧ TxEmail.totalSent st'
      = (TxEmail.totalSent three_queued
         + dryTotal (TxEmail.emailQueue three_queued))%nat
    ∧ TxEmail.mailLog st' = TxEmail.mailLog three_queued.
Proof.
  destruct (processQueue_dry_run_fifo dry_run_env [TxEmail.Rejected timed_out]
              three_queued) as [_ H]; [reflexivity|].
  apply H. reflexivity.
Defined.

(** ** Lists without duplicates *)

Section Dedupe.

Lemma dedupe_In_iff seen xs x :
  In x (Js.dedupe seen xs) ↔ In x xs ∧ ¬ In x seen.
Proof.
  split; [apply dedupe_In|].
  revert seen. induction xs as [|y xs IH]; intros seen [Hin Hs]; simpl in *; [done|].
  destruct (bool_decide (y ∈ seen)) eqn:E.
  - apply bool_decide_eq_true in E. apply list_elem_of_In in E.
    destruct Hin as [<-|Hin]; [done|]. by apply IH.
  - destruct (decide (y = x)) as [->|Hne]; [by left|]. right.
    destruct Hin as [?|Hin]; [done|]. apply IH. split; [done|].
    by intros [?|?].
Qed.

Lemma dedupe_fixed xs : ∀ seen,
  List.NoDup xs → (∀ x, In x xs → ¬ In x seen) → Js.dedupe seen xs = xs.
Proof.
  induction xs as [|y xs IH]; intros seen Hnd Hs; simpl; [done|].
  inversion Hnd as [|? ? Hy Hnd']; subst.
  destruct (bool_decide (y ∈ seen)) eqn:E.
  - apply bool_decide_eq_true in E. apply list_elem_of_In in E.
    exfalso. eapply Hs; [by left | done].
  - f_equal. apply IH; [done|]. intros x Hx [<-|Hx']; [done|].
    eapply Hs; [by right | done].
Qed.

Lemma uniq_fixed xs : List.NoDup xs → Js.uniq xs = xs.
Proof. intros H. apply dedupe_fixed; [done|]. by intros ? _ []. Qed.

Lemma dedupe_snoc xs a : ∀ seen,
  Js.dedupe seen (xs ++ [a])
  = (Js.dedupe seen xs
     ++ (if bool_decide (a ∈ seen ∨ a ∈ xs) then [] else [a]))%list.
Proof.
  induction xs as [|y xs IH]; intros seen; simpl.
  - rewrite <- (bool_decide_ext (a ∈ seen) (a ∈ seen ∨ a ∈ @nil string));
      [by destruct (bool_decide (a ∈ seen))|].
    rewrite elem_of_nil. tauto.
  - destruct (bool_decide (y ∈ seen)) eqn:E.
    + rewrite IH. f_equal. apply bool_decide_eq_true in E.
      rewrite (bool_decide_ext (a ∈ seen ∨ a ∈ xs) (a ∈ seen ∨ a ∈ y :: xs));
        [done|].
      rewrite elem_of_cons. split; [tauto|]. intros [?|[->|?]]; tauto.
    + rewrite IH. simpl.
      rewrite (bool_decide_ext (a ∈ y :: seen ∨ a ∈ xs) (a ∈ seen ∨ a ∈ y :: xs));
        [done|].
      rewrite !elem_of_cons. tauto.
Qed.

Lemma setAdd_uniq a xs :
  List.NoDup xs → Js.uniq (xs ++ [a]) = Mirror.setAdd a xs.
Proof.
  intros Hnd. unfold Js.uniq. rewrite dedupe_snoc.
  fold (Js.uniq xs). rewrite (uniq_fixed xs Hnd). unfold Mirror.setAdd.
  rewrite (bool_decide_ext (a ∈ @nil string ∨ a ∈ xs) (a ∈ xs))
    by (rewrite elem_of_nil; tauto).
  destruct (bool_decide (a ∈ xs)); [by rewrite app_nil_r | done].
Qed.

Lemma setAdd_In a xs y : In y (Mirror.setAdd a xs) ↔ y = a ∨ In y xs.
Proof.
  unfold Mirror.setAdd. destruct (bool_decide (a ∈ xs)) eqn:E.
  - apply bool_decide_eq_true in E. apply list_elem_of_In in E.
    split; [tauto|]. by intros [->|?].
  - rewrite in_app_iff. simpl. split; [intros [?|[<-|[]]]; tauto|].
    intros [->|?]; [right; by left | by left].
Qed.

Lemma setAdd_NoDup a xs : List.NoDup xs → List.NoDup (Mirror.setAdd a xs).
Proof.
  intros Hnd. unfold Mirror.setAdd. destruct (bool_decide (a ∈ xs)) eqn:E; [done|].
  apply bool_decide_eq_false in E. rewrite list_elem_of_In in E.
  apply List.NoDup_app; [done| |].
  - repeat constructor. by intros [].
  - intros x Hx [<-|[]]. done.
Qed.

Lemma uniq_accepted xs : Forall accepted xs → Forall accepted (Js.uniq xs).
Proof.
  intros H. apply List.Forall_forall. intros x Hx.
  apply dedupe_In in Hx as [Hx _]. rewrite List.Forall_forall in H. by apply H.
Qed.

Lemma recipientsOf_accepted xs :
  Forall accepted xs → List.NoDup xs →
  TxEmail.recipientsOf (TxEmail.Many (map Some xs)) = xs.
Proof.
  intros Ha Hnd. unfold TxEmail.recipientsOf. simpl.
  destruct (partitionEmails_lists (map Some xs)) as [-> _].
  destruct (partition_accepted xs Ha) as [-> _]. by apply uniq_fixed.
Qed.

End Dedupe.

(** X17.  [emailAllUsers]: the addresses that reach the queue are the
    valid addresses of the users, each once, followed by the address of
    [ADMIN_EMAIL] when it passes the grammar and is not a user's
    already.  An [ADMIN_EMAIL] that [emailAllUsers] appends without
    checking it is dropped by [sendEmail]. *)
Theorem emailAllUsers_recipients users adminEnv :
  let final :=
    TxEmail.recipientsOf
      (TxEmail.Many (map Some (Bulk.emailAllUsersList users adminEnv))) in
  final
  = match Email.normalizeEmail (Some (Js.orElse adminEnv "")) with
    | Some admin =>
        if Re.matches Email.EMAIL_REGEX admin
        then Mirror.setAdd admin (Bulk.getAllUserEmails users)
        else Bulk.getAllUserEmails users
    | None => Bulk.getAllUserEmails users
    end
  ∧ List.NoDup final
  ∧ Forall accepted final.
Proof.
  intros final.
  assert (Forall accepted (Bulk.getAllUserEmails users)
          ∧ List.NoDup (Bulk.getAllUserEmails users)) as [Ha Hnd].
  { unfold Bulk.getAllUserEmails. destruct users as [emails|].
    - split; [apply uniq_accepted, valid_accepted | apply dedupe_NoDup].
    - split; constructor. }
  assert (final
          = match Email.normalizeEmail (Some (Js.orElse adminEnv "")) with
            | Some admin =>
                if Re.matches Email.EMAIL_REGEX admin
                then Mirror.setAdd admin (Bulk.getAllUserEmails users)
                else Bulk.getAllUserEmails users
            | None => Bulk.getAllUserEmails users
            end) as Hfinal.
  { subst final. unfold Bulk.emailAllUsersList.
    destruct (Email.normalizeEmail (Some (Js.orElse adminEnv ""))) as [admin|] eqn:Hn;
      [|by apply recipientsOf_accepted].
    unfold TxEmail.recipientsOf. simpl.
    destruct (partitionEmails_lists
                (map Some (Bulk.getAllUserEmails users ++ [admin]))) as [-> _].
    rewrite map_app, flat_map_app.
    destruct (partition_accepted _ Ha) as [Hv _].
    unfold Email.raw in *. rewrite Hv. simpl.
    unfold validOf. rewrite (normalizeEmail_fixed _ _ Hn).
    destruct (Re.matches Email.EMAIL_REGEX admin) eqn:Hm; simpl.
    - by apply setAdd_uniq.
    - rewrite app_nil_r. by apply uniq_fixed. }
  split; [exact Hfinal|]. rewrite Hfinal.
  destruct (Email.normalizeEmail (Some (Js.orElse adminEnv ""))) as [admin|] eqn:Hn;
    [|done].
  destruct (Re.matches Email.EMAIL_REGEX admin) eqn:Hm; [|done].
  split; [by apply setAdd_NoDup|].
  apply List.Forall_forall. intros x Hx. apply setAdd_In in Hx as [->|Hx].
  - split; [by eapply normalizeEmail_fixed | done].
  - rewrite List.Forall_forall in Ha. by apply Ha.
Qed.

(** ** Recipients of a mirrored notification *)

Section MirrorFacts.
Import Mirror.

Lemma validEmails_accepted xs : Forall accepted (validEmails xs).
Proof.
  apply List.Forall_forall. intros e He. unfold validEmails in He.
  apply in_flat_map in He as (x & _ & He).
  destruct (Email.normalizeEmail x) as [n|] eqn:Hn; [|done].
  destruct (Email.isValidEmail (Some n)) eqn:Hv; [|done].
  destruct He as [<-|[]].
  pose proof (normalizeEmail_fixed _ _ Hn) as Hf.
  split; [exact Hf|]. unfold Email.isValidEmail in Hv. by rewrite Hf in Hv.
Qed.

Lemma collectTeamEmails_accepted team :
  Forall accepted (collectTeamEmails team) ∧ List.NoDup (collectTeamEmails team).
Proof.
  destruct team as [members|]; simpl.
  - split; [apply uniq_accepted, validEmails_accepted | apply dedupe_NoDup].
  - split; constructor.
Qed.

Lemma resolveStep_emails getUserById acc id :
  Forall accepted (emails acc) → List.NoDup (emails acc) →
  Forall accepted (emails (resolveStep getUserById acc id))
  ∧ List.NoDup (emails (resolveStep getUserById acc id)).
Proof.
  intros Ha Hnd. unfold resolveStep.
  destruct (negb (Js.truthy id)); [done|].
  destruct (getUserById id) as [email| |]; try done.
  destruct (Email.normalizeEmail email) as [n|] eqn:Hn; [|done].
  destruct (Email.isValidEmail (Some n)) eqn:Hv; [|done]. simpl.
  split; [|by apply setAdd_NoDup].
  apply List.Forall_forall. intros x Hx. apply setAdd_In in Hx as [->|Hx].
  - pose proof (normalizeEmail_fixed _ _ Hn) as Hf.
    split; [exact Hf|]. unfold Email.isValidEmail in Hv. by rewrite Hf in Hv.
  - rewrite List.Forall_forall in Ha. by apply Ha.
Qed.

Lemma resolve_emails getUserById ids : ∀ acc,
  Forall accepted (emails acc) → List.NoDup (emails acc) →
  Forall accepted (emails (fold_left (resolveStep getUserById) ids acc))
  ∧ List.NoDup (emails (fold_left (resolveStep getUserById) ids acc)).
Proof.
  induction ids as [|id ids IH]; intros acc Ha Hnd; simpl; [done|].
  destruct (resolveStep_emails getUserById acc id Ha Hnd). by apply IH.
Qed.

End MirrorFacts.

(** X18.  The addresses that [mirrorEmail] gathers, for a notification
    to all as for one to a list of users, are in normal form, pass the
    grammar and occur once; [sendEmail] therefore enqueues them exactly
    as given, dropping and merging nothing.  For a list of users the
    second filtering by [partitionEmails] removes nothing. *)
Theorem mirror_recipients_accepted users team adminEnv getUserById ids :
  let b := Mirror.broadcastRecipients users team adminEnv in
  let t := Mirror.targetedRecipients getUserById ids team in
  (Forall accepted b ∧ List.NoDup b
   ∧ TxEmail.recipientsOf (TxEmail.Many (map Some b)) = b)
  ∧ (Forall accepted t ∧ List.NoDup t
     ∧ TxEmail.recipientsOf (TxEmail.Many (map Some t)) = t
     ∧ t = Js.uniq (Mirror.emails (Mirror.resolveRecipientEmails getUserById ids)
                    ++ Mirror.collectTeamEmails team)).
Proof.
  intros b t.
  destruct (collectTeamEmails_accepted team) as [Hta Htn].
  assert (Forall accepted b ∧ List.NoDup b) as [Hba Hbn].
  { subst b. unfold Mirror.broadcastRecipients.
    set (combined := Js.uniq _).
    assert (Forall accepted combined ∧ List.NoDup combined) as [Hca Hcn].
    { split; [|apply dedupe_NoDup]. apply uniq_accepted, Forall_app.
      split; [apply validEmails_accepted | exact Hta]. }
    destruct (Email.normalizeEmail (Some (Js.orElse adminEnv ""))) as [admin|] eqn:Hn;
      [|done].
    destruct (Email.isValidEmail (Some admin)) eqn:Hv; [|done].
    split; [|by apply setAdd_NoDup].
    apply List.Forall_forall. intros x Hx. apply setAdd_In in Hx as [->|Hx].
    - pose proof (normalizeEmail_fixed _ _ Hn) as Hf.
      split; [exact Hf|]. unfold Email.isValidEmail in Hv. by rewrite Hf in Hv.
    - rewrite List.Forall_forall in Hca. by apply Hca. }
  split; [split; [done | split; [done | by apply recipientsOf_accepted]]|].
  destruct (resolve_emails getUserById ids
              {| Mirror.emails := []; Mirror.invalid := []; Mirror.missing := [] |})
    as [Hra Hrn]; [constructor | constructor|].
  fold (Mirror.resolveRecipientEmails getUserById ids) in Hra, Hrn.
  set (merged := Js.uniq (Mirror.emails (Mirror.resolveRecipientEmails getUserById ids)
                          ++ Mirror.collectTeamEmails team)).
  assert (Forall accepted merged ∧ List.NoDup merged) as [Hma Hmn].
  { split; [|apply dedupe_NoDup]. apply uniq_accepted, Forall_app. by split. }
  assert (t = merged) as ->.
  { subst t. unfold Mirror.targetedRecipients. fold merged.
    destruct (partitionEmails_lists (map Some merged)) as [-> _].
    by destruct (partition_accepted merged Hma) as [-> _]. }
  split; [done|]. split; [done|]. split; [by apply recipientsOf_accepted | done].
Qed.

(** ** Resolution of the recipients of a notification *)

Section ResolveFacts.
Import Mirror.

Lemma resolveStep_grows getUserById acc id :
  (∀ x, In x (emails acc) → In x (emails (resolveStep getUserById acc id)))
  ∧ (∀ x, In x (invalid acc) → In x (invalid (resolveStep getUserById acc id)))
  ∧ (∀ x, In x (missing acc) → In x (missing (resolveStep getUserById acc id))).
Proof.
  unfold resolveStep. destruct (negb (Js.truthy id)); [done|].
  destruct (getUserById id) as [email| |]; simpl; try done.
  - destruct (Email.normalizeEmail email) as [n|]; simpl.
    + destruct (Email.isValidEmail (Some n)); simpl.
      * split; [|done]. intros x Hx. apply setAdd_In. by right.
      * split; [done|]. split; [|done]. intros x Hx. apply in_app_iff. by left.
    + split; [done|]. split; [|done]. intros x Hx. apply in_app_iff. by left.
  - split; [done|]. split; [done|]. intros x Hx. apply in_app_iff. by left.
Qed.

Lemma resolve_grows getUserById ids : ∀ acc,
  (∀ x, In x (emails acc) → In x (emails (fold_left (resolveStep getUserById) ids acc)))
  ∧ (∀ x, In x (invalid acc) → In x (invalid (fold_left (resolveStep getUserById) ids acc)))
  ∧ (∀ x, In x (missing acc) → In x (missing (fold_left (resolveStep getUserById) ids acc))).
Proof.
  induction ids as [|id ids IH]; intros acc; simpl; [done|].
  destruct (resolveStep_grows getUserById acc id) as (H1 & H2 & H3).
  destruct (IH (resolveStep getUserById acc id)) as (I1 & I2 & I3).
  repeat split; eauto.
Qed.

Lemma resolveStep_placed getUserById acc id :
  Js.truthy id = true → placed getUserById id (resolveStep getUserById acc id).
Proof.
  intros Ht. unfold placed, resolveStep. rewrite Ht. simpl.
  destruct (getUserById id) as [email| |]; simpl; try done.
  - destruct (Email.normalizeEmail email) as [n|]; simpl.
    + destruct (Email.isValidEmail (Some n)); simpl.
      * apply setAdd_In. by left.
      * apply in_app_iff. right. by left.
    + apply in_app_iff. right. by left.
  - apply in_app_iff. right. by left.
Qed.

Lemma placed_grows getUserById id r r' :
  (∀ x, In x (emails r) → In x (emails r')) →
  (∀ x, In x (invalid r) → In x (invalid r')) →
  (∀ x, In x (missing r) → In x (missing r')) →
  placed getUserById id r → placed getUserById id r'.
Proof.
  intros H1 H2 H3. unfold placed.
  destruct (getUserById id) as [email| |]; auto.
  destruct (Email.normalizeEmail email) as [n|]; auto.
  destruct (Email.isValidEmail (Some n)); auto.
Qed.

Lemma resolve_placed getUserById ids : ∀ acc id,
  In id ids → Js.truthy id = true →
  placed getUserById id (fold_left (resolveStep getUserById) ids acc).
Proof.
  induction ids as [|i ids IH]; intros acc id Hin Ht; simpl; [done|].
  destruct Hin as [->|Hin]; [|by apply IH].
  destruct (resolve_grows getUserById ids (resolveStep getUserById acc id))
    as (H1 & H2 & H3).
  eapply placed_grows; eauto. by apply resolveStep_placed.
Qed.

Lemma resolve_missing getUserById ids : ∀ acc,
  missing (fold_left (resolveStep getUserById) ids acc)
  = (missing acc
     ++ List.filter (fun id => Js.truthy id && isNotFound (getUserById id)) ids)%list.
Proof.
  induction ids as [|id ids IH]; intros acc; simpl; [by rewrite app_nil_r|].
  rewrite IH. unfold resolveStep.
  destruct (Js.truthy id); simpl; [|done].
  destruct (getUserById id) as [email| |]; simpl; try done.
  - destruct (Email.normalizeEmail email) as [n|]; [|done].
    by destruct (Email.isValidEmail (Some n)).
  - by rewrite <- app_assoc.
Qed.

Lemma resolve_provenance getUserById ids : ∀ acc e,
  In e (emails (fold_left (resolveStep getUserById) ids acc)) →
  In e (emails acc)
  ∨ ∃ id email, In id ids ∧ getUserById id = Found email
      ∧ Email.normalizeEmail email = Some e.
Proof.
  induction ids as [|id ids IH]; intros acc e He; simpl in *; [by left|].
  apply IH in He as [He|(i & email & Hi & Hf & Hn)].
  - unfold resolveStep in He. destruct (negb (Js.truthy id)); [by left|].
    destruct (getUserById id) as [email| |] eqn:Hf; try (by left).
    destruct (Email.normalizeEmail email) as [n|] eqn:Hn; [|by left].
    destruct (Email.isValidEmail (Some n)); [|by left].
    simpl in He. apply setAdd_In in He as [->|He]; [|by left].
    right. exists id, email. split; [by left | done].
  - right. exists i, email. split; [by right | done].
Qed.

End ResolveFacts.

(** X19.  [resolveRecipientEmails] places every recipient id that is
    not empty: with its normal address in [emails] when the user is
    found and the address valid, with the stored address in [invalid]
    when it is not, in [missing] when there is no such user; an id whose
    lookup throws is skipped.  [missing] lists the unknown ids in
    order, and every address of [emails] is valid, occurs once and is
    the normal address of a user found. *)
Theorem resolveRecipientEmails_places getUserById ids :
  let r := Mirror.resolveRecipientEmails getUserById ids in
  (∀ id, In id ids → Js.truthy id = true → placed getUserById id r)
  ∧ Mirror.missing r
    = List.filter (fun id => Js.truthy id && isNotFound (getUserById id)) ids
  ∧ Forall accepted (Mirror.emails r)
  ∧ List.NoDup (Mirror.emails r)
  ∧ (∀ e, In e (Mirror.emails r) →
       ∃ id email, In id ids ∧ getUserById id = Mirror.Found email
         ∧ Email.normalizeEmail email = Some e).
Proof.
  intros r. subst r. unfold Mirror.resolveRecipientEmails.
  split; [intros id; apply resolve_placed|].
  split; [by rewrite resolve_missing|].
  destruct (resolve_emails getUserById ids
              {| Mirror.emails := []; Mirror.invalid := []; Mirror.missing := [] |})
    as [Ha Hn]; [constructor | constructor|].
  split; [done|]. split; [done|].
  intros e He. by apply resolve_provenance in He as [[]|?].
Qed.

Lemma resolveRecipientEmails_places_witness :
  let r := Mirror.resolveRecipientEmails directory ["u1"; ""; "u2"; "u9"; "u3"; "u1"] in
  placed directory "u1" r ∧ placed directory "u2" r ∧ placed directory "u9" r
  ∧ Mirror.emails r = ["alice@example.com"]
  ∧ Mirror.missing r = ["u9"]
  ∧ ∃ id email, In id ["u1"; ""; "u2"; "u9"; "u3"; "u1"]
      ∧ directory id = Mirror.Found email
      ∧ Email.normalizeEmail email = Some "alice@example.com".
Proof.
  intros r.
  destruct (resolveRecipientEmails_places directory
              ["u1"; ""; "u2"; "u9"; "u3"; "u1"]) as (Hp & Hm & _ & _ & Hprov).
  split; [apply Hp; [by left | reflexivity]|].
  split; [apply Hp; [right; right; by left | reflexivity]|].
  split; [apply Hp; [right; right; right; by left | reflexivity]|].
  split; [vm_compute; reflexivity|]. split; [exact Hm|].
  apply Hprov. vm_compute. by left.
Defined.

(** ** [retryAsync] *)

Section RetryFacts.
Import Mirror.

Lemma retryFrom_spec attempts : ∀ script i r calls waits,
  retryFrom attempts i script = Some (r, calls, waits) →
  (i + calls ≤ Nat.max attempts i)%nat
  ∧ (calls ≤ length script)%nat
  ∧ ((i < attempts)%nat → (1 ≤ calls)%nat)
  ∧ waits = map backoff (seq i (calls - 1))
  ∧ (∀ k, (k < calls - 1)%nat →
       ∃ e, script !! k = Some (Fails e) ∧ TxEmail.permanent e = false)
  ∧ match r with
    | Resolved => script !! (calls - 1)%nat = Some Succeeds ∧ (1 ≤ calls)%nat
    | Threw (Some e) =>
        script !! (calls - 1)%nat = Some (Fails e) ∧ (1 ≤ calls)%nat
        ∧ (TxEmail.permanent e = true ∨ (i + calls)%nat = attempts)
    | Threw None => (attempts ≤ i)%nat ∧ calls = 0%nat
    end.
Proof.
  induction script as [|a script IH]; intros i r calls waits H;
    cbn [retryFrom] in H; destruct (Nat.ltb i attempts) eqn:Hlt;
    try discriminate;
    try (apply Nat.ltb_ge in Hlt; injection H as <- <- <-; simpl;
         repeat split; try lia; intros; lia).
  apply Nat.ltb_lt in Hlt. destruct a as [|e].
  { injection H as <- <- <-. simpl.
    repeat split; first [lia | done | intros; lia]. }
  destruct (TxEmail.permanent e) eqn:Hp; simpl in H.
  { injection H as <- <- <-. simpl.
    split; [lia|]. split; [lia|]. split; [lia|]. split; [done|].
    split; [intros; lia|]. split; [done|]. split; [lia | by left]. }
  destruct (Nat.eqb i (attempts - 1)) eqn:Hi.
  { apply Nat.eqb_eq in Hi. injection H as <- <- <-. simpl.
    split; [lia|]. split; [lia|]. split; [lia|]. split; [done|].
    split; [intros; lia|]. split; [done|]. split; [lia | right; lia]. }
  apply Nat.eqb_neq in Hi.
  destruct (retryFrom attempts (S i) script) as [[[r' c'] w']|] eqn:E;
    [|discriminate].
  injection H as <- <- <-.
  apply IH in E as (H1 & H2 & H3 & H4 & H5 & H6).
  assert (1 ≤ c')%nat as Hc by (apply H3; lia).
  split; [lia|]. split; [simpl; lia|]. split; [lia|].
  split.
  { rewrite H4. replace (S c' - 1)%nat with (S (c' - 1)) by lia. reflexivity. }
  split.
  { intros k Hk. destruct k as [|k]; [by exists e|].
    simpl. apply H5. lia. }
  replace (S c' - 1)%nat with (S (c' - 1)) by lia. simpl.
  destruct r' as [|[e'|]].
  - destruct H6. split; [done | lia].
  - destruct H6 as (? & ? & Hor). split; [done|]. split; [lia|].
    destruct Hor; [by left | right; lia].
  - lia.
Qed.

Lemma retryFrom_settles attempts : ∀ script i,
  (attempts - i ≤ length script)%nat →
  ∃ x, retryFrom attempts i script = Some x.
Proof.
  induction script as [|a script IH]; intros i Hlen; cbn [retryFrom];
    destruct (Nat.ltb i attempts) eqn:Hlt; try (by eexists).
  - apply Nat.ltb_lt in Hlt. simpl in Hlen. lia.
  - apply Nat.ltb_lt in Hlt. destruct a as [|e]; [by eexists|].
    destruct (_ || _); [by eexists|].
    destruct (IH (S i)) as [[[r c] w] ->]; [simpl in Hlen; lia|]. by eexists.
Qed.

Lemma backoff_bounds i : (200 ≤ backoff i ≤ 2000)%nat.
Proof.
  unfold backoff. pose proof (Nat.pow_nonzero 2 i). 
  assert (1 ≤ 2 ^ i)%nat by lia. lia.
Qed.

End RetryFacts.

(** X20.  Given the outcomes of as many calls as [attempts],
    [retryAsync] settles.  It calls the function at most [attempts]
    times and at least once when [attempts] is positive; every call
    before the last failed with an error that is not permanent; the
    last one either succeeded, or failed with the error that is thrown,
    which is permanent unless all the attempts are used up: a permanent
    failure is never retried.  The waits between the calls are 200 ms,
    400 ms, ... doubled each time and never above 2000 ms. *)
Theorem retryAsync_bounds attempts script :
  (attempts ≤ length script)%nat →
  ∃ r calls waits,
    Mirror.retryAsync attempts script = Some (r, calls, waits)
    ∧ (calls ≤ attempts)%nat
    ∧ ((0 < attempts)%nat → (1 ≤ calls)%nat)
    ∧ waits = map Mirror.backoff (seq 0 (calls - 1))
    ∧ Forall (fun w => (200 ≤ w ≤ 2000)%nat) waits
    ∧ (∀ k, (k < calls - 1)%nat →
         ∃ e, script !! k = Some (Mirror.Fails e) ∧ TxEmail.permanent e = false)
    ∧ match r with
      | Mirror.Resolved => script !! (calls - 1)%nat = Some Mirror.Succeeds
      | Mirror.Threw (Some e) =>
          script !! (calls - 1)%nat = Some (Mirror.Fails e)
          ∧ (TxEmail.permanent e = true ∨ calls = attempts)
      | Mirror.Threw None => attempts = 0%nat
      end.
Proof.
  intros Hlen.
  destruct (retryFrom_settles attempts script 0) as [[[r calls] waits] H]; [lia|].
  exists r, calls, waits. split; [exact H|].
  apply retryFrom_spec in H as (H1 & H2 & H3 & H4 & H5 & H6).
  split; [lia|]. split; [done|]. split; [done|].
  split.
  { rewrite H4. apply List.Forall_forall. intros w Hw.
    apply in_map_iff in Hw as (i & <- & _). apply backoff_bounds. }
  split; [done|].
  destruct r as [|[e|]].
  - by destruct H6.
  - destruct H6 as (? & ? & Hor). split; [done|]. destruct Hor; [by left | right; lia].
  - lia.
Qed.

Lemma retryAsync_bounds_witness :
  let script := [Mirror.Fails temporary_error; Mirror.Fails temporary_error;
                 Mirror.Succeeds] in
  ∃ r calls waits,
    Mirror.retryAsync 3 script = Some (r, calls, waits)
    ∧ (calls ≤ 3)%nat
    ∧ waits = map Mirror.backoff (seq 0 (calls - 1))
    ∧ Forall (fun w => (200 ≤ w ≤ 2000)%nat) waits.
Proof.
  intros script.
  destruct (retryAsync_bounds 3 script) as (r & calls & waits & H & H1 & _ & H3 & H4 & _);
    [simpl; lia|].
  exists r, calls, waits. split; [exact H|]. split; [exact H1|].
  split; [exact H3 | exact H4].
Defined.

(** X21.  The notification that the [catch] block of [mirrorEmail]
    emits is itself exempt from mirroring, so that a failing mirror
    cannot feed itself; it is a [system] notification for all, unread,
    at the head of the store, and its message is one of three fixed
    texts: the text of the provider's error is not shown. *)
Theorem error_notification_exempt interval broadcastAll f st item st' :
  Store.onMirrorFailure interval broadcastAll f st = (Some item, st') →
  Mirror.skipEmailMirror item = true
  ∧ Store.type item = Store.system
  ∧ Store.recipients item = Store.All
  ∧ Store.readBy item = ∅
  ∧ In (Store.message item) [Store.MSG_QUOTA; Store.MSG_504; Store.MSG_OTHER]
  ∧ head (Store.notifications st') = Some item.
Proof.
  unfold Store.onMirrorFailure.
  destruct (Store.shouldNotifyEmailError _ _ _ _) as [go st1].
  destruct go; simpl; [|discriminate].
  intros [= <- <-]. simpl.
  split.
  { unfold Mirror.skipEmailMirror, Store.errorData. simpl.
    by destruct (TxEmail.summary (Store.f_error f)). }
  split; [done|]. split; [by destruct broadcastAll|]. split; [done|].
  split.
  { unfold Store.safeMsg.
    destruct (_ || _); [by left|]. destruct (_ || _); [right; by left|].
    right; right; by left. }
  by destruct (Nat.ltb Store.MAX_ITEMS _).
Qed.

Lemma error_notification_exempt_witness :
  ∃ item st',
    Store.onMirrorFailure 600000 false (mirror_failure "554" 1700000000000)
      (store_of []) = (Some item, st')
    ∧ Mirror.skipEmailMirror item = true
    ∧ Store.type item = Store.system
    ∧ Store.recipients item = Store.All
    ∧ Store.readBy item = ∅
    ∧ In (Store.message item) [Store.MSG_QUOTA; Store.MSG_504; Store.MSG_OTHER]
    ∧ head (Store.notifications st') = Some item.
Proof.
  eexists _, _.
  eassert (Store.onMirrorFailure 600000 false (mirror_failure "554" 1700000000000)
             (store_of []) = (Some _, _)) as H by reflexivity.
  split; [exact H|].
  exact (error_notification_exempt _ _ _ _ _ _ H).
Defined.

(** ** Runs of the notification store *)

Section StoreRuns.
Import Store.

Lemma In_take {A} (x : A) n : ∀ l, In x (take n l) → In x l.
Proof.
  induction n as [|n IH]; intros [|y l]; simpl; try done.
  intros [->|H]; [by left | right; by apply IH].
Qed.

Lemma In_insert {A} (x y : A) k : ∀ l, In x (<[k:=y]> l) → x = y ∨ In x l.
Proof.
  induction k as [|k IH]; intros [|z l]; simpl; try tauto.
  - intros [<-|H]; [by left | right; by right].
  - intros [<-|H]; [right; by left|].
    destruct (IH l H) as [->|?]; [by left | right; by right].
Qed.

Lemma add_capped b i t n st :
  (length (notifications (snd (add b i t n st))) ≤ MAX_ITEMS)%nat.
Proof.
  unfold add. cbn [snd notifications].
  destruct (Nat.ltb MAX_ITEMS _) eqn:E.
  - rewrite length_take. lia.
  - by apply Nat.ltb_ge in E.
Qed.

Lemma add_In b i t n st x :
  In x (notifications (snd (add b i t n st))) →
  x = fst (add b i t n st) ∨ In x (notifications st).
Proof.
  unfold add. cbn [fst snd notifications].
  destruct (Nat.ltb MAX_ITEMS _); [intros H; apply In_take in H|intros H];
    (destruct H as [<-|H]; [by left | by right]).
Qed.

Lemma add_readers b i t n st :
  readersAreRecipients st → readersAreRecipients (snd (add b i t n st)).
Proof.
  intros Hst m u Hin Hu. apply add_In in Hin as [->|Hin]; [|by apply Hst].
  simpl in Hu. set_solver.
Qed.

Lemma markRead_length u nid st :
  length (notifications (snd (markRead u nid st))) = length (notifications st).
Proof.
  destruct (markRead_cases u nid st) as [->|(k & n & _ & _ & _ & _ & ->)]; [done|].
  simpl. apply length_insert.
Qed.

Lemma addReader_readers u n v :
  isRecipient u n = true →
  (v ∈ readBy n → isRecipient v n = true) →
  v ∈ readBy (addReader u n) → isRecipient v (addReader u n) = true.
Proof.
  intros Hu Hn Hv. simpl in Hv. change (isRecipient v n = true).
  apply elem_of_union in Hv as [Hv|Hv]; [|by apply Hn].
  apply elem_of_singleton in Hv. by subst.
Qed.

Lemma markRead_readers u nid st :
  readersAreRecipients st → readersAreRecipients (snd (markRead u nid st)).
Proof.
  intros Hst.
  destruct (markRead_cases u nid st) as [->|(k & n & Hk & _ & Hr & _ & ->)]; [done|].
  intros m v Hin Hv. simpl in Hin. apply In_insert in Hin as [->|Hin]; [|by apply Hst].
  apply addReader_readers; try done. apply Hst.
  apply list_elem_of_In. by eapply list_elem_of_lookup_2.
Qed.

Lemma markAllRead_readers u st :
  readersAreRecipients st → readersAreRecipients (snd (markAllRead u st)).
Proof.
  intros Hst m v Hin Hv. rewrite markAllRead_spec in Hin. simpl in Hin.
  apply in_map_iff in Hin as (n & <- & Hin). unfold markIfUnread in *.
  destruct (Spec.unreadBy u n) eqn:E; [|by apply Hst].
  apply addReader_readers; try done; [|by apply Hst].
  unfold Spec.unreadBy in E. by apply andb_true_iff in E as [? _].
Qed.

Lemma onMirrorFailure_store iv b f st :
  notifications (snd (onMirrorFailure iv b f st)) = notifications st
  ∨ ∃ d st1, notifications st1 = notifications st
      ∧ snd (onMirrorFailure iv b f st) = snd (add b (f_newId f) (f_stamp f) d st1).
Proof.
  unfold onMirrorFailure, shouldNotifyEmailError.
  destruct (_ && _); simpl; [by left|].
  right.
  exists {| d_type := system; d_title := "Erreur d'envoi d'email";
            d_message := safeMsg (f_error f);
            d_data := Some (errorData (f_error f)); d_recipients := All |},
         {| notifications := notifications st;
            lastEmailErrorNotificationAt := f_now f;
            lastEmailErrorNotificationCode := Some (codeOf (f_error f)) |}.
  by split.
Qed.

Lemma call_invariants c st :
  readersAreRecipients st →
  (length (notifications st) ≤ MAX_ITEMS)%nat →
  readersAreRecipients (call c st)
  ∧ (length (notifications (call c st)) ≤ MAX_ITEMS)%nat.
Proof.
  intros Hr Hl. destruct c as [b i t n|u i|u| |iv b f]; simpl.
  - split; [by apply add_readers | apply add_capped].
  - split; [by apply markRead_readers | by rewrite markRead_length].
  - split; [by apply markAllRead_readers|].
    rewrite markAllRead_spec. simpl. by rewrite length_map.
  - split; [by intros ? ? []|]. unfold MAX_ITEMS. lia.
  - destruct (onMirrorFailure_store iv b f st) as [E|(d & st1 & E1 & E)].
    + split; [|by rewrite E]. intros m v Hin. rewrite E in Hin. by apply Hr.
    + rewrite E. split; [|apply add_capped].
      apply add_readers. intros m v Hin. rewrite E1 in Hin. by apply Hr.
Qed.

End StoreRuns.

(** X22.  Whatever calls are made on the store ([add], [markRead],
    [markAllRead], [clearAll], notifications of a mirroring failure),
    in whatever order, it never holds more than [MAX_ITEMS] = 1000
    notifications, and nobody is recorded as a reader of a notification
    without being one of its recipients. *)
Theorem store_invariants cs st :
  readersAreRecipients st →
  (length (Store.notifications st) ≤ Store.MAX_ITEMS)%nat →
  readersAreRecipients (calls cs st)
  ∧ (length (Store.notifications (calls cs st)) ≤ 1000)%nat.
Proof.
  revert st. induction cs as [|c cs IH]; intros st Hr Hl; simpl; [done|].
  destruct (call_invariants c st Hr Hl) as [Hr' Hl']. by apply IH.
Qed.

Lemma store_invariants_witness :
  let run := calls [CallAdd false "n4" "2025-01-02T00:00:00.000Z" welcome;
                    CallMarkRead "alice" "n4"; CallMarkRead "bob" "n4";
                    CallMarkAllRead "bob";
                    CallMirrorFailure 600000 false (mirror_failure "554" 1700000000000)]
               three_notes in
  readersAreRecipients run
  ∧ (length (Store.notifications run) ≤ 1000)%nat.
Proof.
  intros run. apply (store_invariants _ three_notes).
  - intros n u Hin Hu. simpl in Hin.
    destruct Hin as [<-|[<-|[<-|[]]]]; simpl in Hu;
      [set_solver | set_solver |].
    apply elem_of_singleton in Hu. subst u. reflexivity.
  - simpl. unfold Store.MAX_ITEMS. lia.
Defined.

(** ** Reading, user by user *)

Section Reading.
Import Store.

Lemma addReader_twice u n : addReader u (addReader u n) = addReader u n.
Proof.
  unfold addReader. simpl. f_equal. apply leibniz_equiv. set_solver.
Qed.

Lemma isRecipient_addReader v u n : isRecipient v (addReader u n) = isRecipient v n.
Proof. reflexivity. Qed.

Lemma unreadBy_addReader_other u v n :
  u ≠ v → Spec.unreadBy v (addReader u n) = Spec.unreadBy v n.
Proof.
  intros Hne. unfold Spec.unreadBy. rewrite isRecipient_addReader. f_equal. f_equal.
  apply bool_decide_ext. simpl. set_solver.
Qed.

Lemma toClient_addReader_other u v n :
  u ≠ v → Listing.toClient v (addReader u n) = Listing.toClient v n.
Proof.
  intros Hne. unfold Listing.toClient. simpl. f_equal.
  apply bool_decide_ext. set_solver.
Qed.

Lemma unreadBy_addReader u n : Spec.unreadBy u (addReader u n) = false.
Proof.
  unfold Spec.unreadBy. apply andb_false_iff. right. apply negb_false_iff.
  apply bool_decide_eq_true. simpl. set_solver.
Qed.

Lemma map_insert_same {A B} (h : A → B) l k n n' :
  l !! k = Some n → h n' = h n → map h (<[k:=n']> l) = map h l.
Proof.
  intros Hk Hh. change (h <$> <[k:=n']> l = h <$> l).
  rewrite list_fmap_insert, Hh. apply list_insert_id.
  by rewrite list_lookup_fmap, Hk.
Qed.

Lemma count_by_map {A} (P : A → bool) : ∀ l l',
  map P l = map P l' → length (List.filter P l) = length (List.filter P l').
Proof.
  induction l as [|x l IH]; intros [|y l'] H; simpl in *; try done.
  injection H as Hxy Hl. rewrite Hxy. destruct (P y); simpl; by rewrite (IH l').
Qed.

Lemma find_inserted (l : list ServerNotification) k n n' nid :
  l !! k = Some n → id n = nid → id n' = nid →
  (∀ j m, l !! j = Some m → (j < k)%nat → id m ≠ nid) →
  list_find (fun m => id m = nid) (<[k:=n']> l) = Some (k, n').
Proof.
  intros Hk Hn Hn' Hfirst. apply list_find_Some. split.
  - apply list_lookup_insert_eq. by eapply lookup_lt_Some.
  - split; [done|]. intros j m Hj Hlt.
    rewrite list_lookup_insert_ne in Hj by lia. by eapply Hfirst.
Qed.

End Reading.

(** X23.  [markRead] is idempotent: a second call with the same user
    and identifier answers as the first and leaves the store as the
    first left it. *)
Theorem markRead_idempotent u nid st :
  Store.markRead u nid (snd (Store.markRead u nid st)) = Store.markRead u nid st.
Proof.
  destruct (markRead_cases u nid st) as [E|(k & n & Hk & Hid & Hr & Hfirst & E)];
    rewrite E; simpl; [exact E|].
  unfold Store.markRead. simpl.
  rewrite (find_inserted _ k n (Store.addReader u n) nid Hk Hid Hid Hfirst).
  rewrite isRecipient_addReader, Hr. simpl.
  by rewrite addReader_twice, list_insert_insert_eq.
Qed.

(** X24.  What one user reads changes nothing for another: after
    [markRead] or [markAllRead] by [u], every other user [v] is shown
    the same notifications with the same [read] flags, and has as many
    unread ones as before. *)
Theorem reading_is_per_user u v nid st :
  u ≠ v →
  let st1 := snd (Store.markRead u nid st) in
  let st2 := snd (Store.markAllRead u st) in
  map (Listing.toClient v) (Store.notifications st1)
  = map (Listing.toClient v) (Store.notifications st)
  ∧ map (Store.isRecipient v) (Store.notifications st1)
    = map (Store.isRecipient v) (Store.notifications st)
  ∧ fst (Store.markAllRead v st1) = fst (Store.markAllRead v st)
  ∧ map (Listing.toClient v) (Store.notifications st2)
    = map (Listing.toClient v) (Store.notifications st)
  ∧ map (Store.isRecipient v) (Store.notifications st2)
    = map (Store.isRecipient v) (Store.notifications st)
  ∧ fst (Store.markAllRead v st2) = fst (Store.markAllRead v st).
Proof.
  intros Hne st1 st2. subst st1 st2. rewrite !markAllRead_spec. simpl.
  assert (∀ n, Spec.unreadBy v (markIfUnread u n) = Spec.unreadBy v n) as Hun.
  { intros n. unfold markIfUnread. destruct (Spec.unreadBy u n); [|done].
    by apply unreadBy_addReader_other. }
  assert (∀ n, Listing.toClient v (markIfUnread u n) = Listing.toClient v n) as Htc.
  { intros n. unfold markIfUnread. destruct (Spec.unreadBy u n); [|done].
    by apply toClient_addReader_other. }
  assert (∀ n, Store.isRecipient v (markIfUnread u n) = Store.isRecipient v n) as Hrc.
  { intros n. unfold markIfUnread. by destruct (Spec.unreadBy u n). }
  destruct (markRead_cases u nid st) as [E|(k & n & Hk & Hid & Hr & Hfirst & E)];
    rewrite E; simpl.
  - split; [done|]. split; [done|]. split; [done|].
    rewrite !map_map.
    split; [by apply map_ext|]. split; [by apply map_ext|].
    apply count_by_map. rewrite map_map. by apply map_ext.
  - split; [by apply (map_insert_same _ _ k n); [|apply toClient_addReader_other]|].
    split; [by apply (map_insert_same _ _ k n)|].
    split; [apply count_by_map;
            by apply (map_insert_same _ _ k n); [|apply unreadBy_addReader_other]|].
    rewrite !map_map.
    split; [by apply map_ext|]. split; [by apply map_ext|].
    apply count_by_map. rewrite map_map. by apply map_ext.
Qed.

Lemma reading_is_per_user_witness :
  let st1 := snd (Store.markRead "bob" "n2" three_notes) in
  let st2 := snd (Store.markAllRead "bob" three_notes) in
  map (Listing.toClient "alice") (Store.notifications st1)
  = map (Listing.toClient "alice") (Store.notifications three_notes)
  ∧ map (Store.isRecipient "alice") (Store.notifications st1)
    = map (Store.isRecipient "alice") (Store.notifications three_notes)
  ∧ fst (Store.markAllRead "alice" st1) = fst (Store.markAllRead "alice" three_notes)
  ∧ map (Listing.toClient "alice") (Store.notifications st2)
    = map (Listing.toClient "alice") (Store.notifications three_notes)
  ∧ map (Store.isRecipient "alice") (Store.notifications st2)
    = map (Store.isRecipient "alice") (Store.notifications three_notes)
  ∧ fst (Store.markAllRead "alice" st2) = fst (Store.markAllRead "alice" three_notes).
Proof.
  apply (reading_is_per_user "bob" "alice" "n2" three_notes). discriminate.
Defined.

(** X25.  When [markRead] answers [true], the number that
    [markAllRead] would return for the same user drops by one if the
    notification marked, the first with that identifier, was unread by
    the user, and is unchanged if the user had read it already. *)
Theorem markRead_lowers_unread u nid st :
  fst (Store.markRead u nid st) = true →
  ∃ k n, Store.notifications st !! k = Some n
    ∧ Store.id n = nid
    ∧ fst (Store.markAllRead u st)
      = (fst (Store.markAllRead u (snd (Store.markRead u nid st)))
         + (if bool_decide (u ∈ Store.readBy n) then 0 else 1))%nat.
Proof.
  intros Ht.
  destruct (markRead_cases u nid st) as [E|(k & n & Hk & Hid & Hr & Hfirst & E)];
    rewrite E in *; [discriminate|].
  exists k, n. split; [done|]. split; [done|].
  rewrite !markAllRead_spec. simpl.
  rewrite insert_take_drop by (by eapply lookup_lt_Some).
  rewrite <- (take_drop_middle _ _ _ Hk) at 1.
  rewrite !List.filter_app. simpl.
  rewrite unreadBy_addReader. unfold Spec.unreadBy at 2. rewrite Hr. simpl.
  rewrite !length_app.
  destruct (bool_decide (u ∈ Store.readBy n)); simpl; lia.
Qed.

Lemma markRead_lowers_unread_witness :
  ∃ k n, Store.notifications three_notes !! k = Some n
    ∧ Store.id n = "n2"
    ∧ fst (Store.markAllRead "bob" three_notes)
      = (fst (Store.markAllRead "bob" (snd (Store.markRead "bob" "n2" three_notes)))
         + (if bool_decide ("bob" ∈ Store.readBy n) then 0 else 1))%nat.
Proof.
  apply (markRead_lowers_unread "bob" "n2" three_notes). reflexivity.
Defined.

(** ** What a user is shown *)

Section ListingFacts.
Import Store.

Variable sort : list ServerNotification → list ServerNotification.
Hypothesis sort_permutes : ∀ l, Permutation (sort l) l.

Lemma listed_from u st c :
  In c (Listing.listForUser sort u st) →
  ∃ n, In n (notifications st) ∧ isRecipient u n = true ∧ c = Listing.toClient u n.
Proof.
  unfold Listing.listForUser. intros H.
  apply in_map_iff in H as (n & <- & H). apply In_take in H.
  apply (Permutation_in _ (sort_permutes _)) in H.
  apply filter_In in H as [Hin Hr]. by exists n.
Qed.

Lemma listed_all u st n :
  (length (List.filter (isRecipient u) (notifications st)) ≤ 200)%nat →
  In n (notifications st) → isRecipient u n = true →
  In (Listing.toClient u n) (Listing.listForUser sort u st).
Proof.
  intros Hlen Hin Hr. unfold Listing.listForUser. apply in_map.
  rewrite take_ge.
  - apply (Permutation_in _ (Permutation_sym (sort_permutes _))).
    by apply filter_In.
  - by rewrite (Permutation_length (sort_permutes _)).
Qed.

End ListingFacts.

(** X26.  Whatever order the sort leaves, [listForUser] returns at
    most 200 notifications, each the client view of a stored
    notification of which the user is a recipient, with no other
    notification and with [read] telling whether the user is among its
    readers; when the user has at most 200 notifications, all of them
    are listed; and after [markAllRead] by the user, every notification
    listed for that user is read. *)
Theorem listForUser_shows sort u st :
  (∀ l, Permutation (sort l) l) →
  (length (Listing.listForUser sort u st) ≤ 200)%nat
  ∧ (∀ c, In c (Listing.listForUser sort u st) →
       ∃ n, In n (Store.notifications st) ∧ Store.isRecipient u n = true
         ∧ c = Listing.toClient u n
         ∧ Listing.read c = bool_decide (u ∈ Store.readBy n))
  ∧ ((length (List.filter (Store.isRecipient u) (Store.notifications st)) ≤ 200)%nat →
       ∀ n, In n (Store.notifications st) → Store.isRecipient u n = true →
         In (Listing.toClient u n) (Listing.listForUser sort u st))
  ∧ (∀ c, In c (Listing.listForUser sort u (snd (Store.markAllRead u st))) →
       Listing.read c = true).
Proof.
  intros Hsort. split.
  { unfold Listing.listForUser. rewrite length_map, length_take. lia. }
  split.
  { intros c Hc. apply (listed_from sort Hsort) in Hc as (n & Hin & Hr & ->).
    by exists n. }
  split; [intros Hlen n; by apply listed_all|].
  intros c Hc. apply (listed_from sort Hsort) in Hc as (n & Hin & Hr & ->).
  rewrite markAllRead_spec in Hin. simpl in Hin.
  apply in_map_iff in Hin as (m & <- & Hin).
  pose proof (unreadBy_markIfUnread u m) as Hun. unfold Spec.unreadBy in Hun.
  rewrite Hr in Hun. simpl in Hun. apply negb_false_iff in Hun. exact Hun.
Qed.

Lemma listForUser_shows_witness :
  let sort := fun l : list Store.ServerNotification => rev l in
  (length (Listing.listForUser sort "alice" three_notes) ≤ 200)%nat
  ∧ In (Listing.toClient "alice" (note "n3" Store.All ∅))
       (Listing.listForUser sort "alice" three_notes)
  ∧ length (Listing.listForUser sort "alice" three_notes) = 2%nat.
Proof.
  intros sort.
  destruct (listForUser_shows sort "alice" three_notes) as (H1 & _ & H3 & _).
  { intros l. apply Permutation_sym, Permutation_rev. }
  split; [exact H1|]. split; [|reflexivity].
  apply H3; [vm_compute; lia | by left | reflexivity].
Defined.

Section AddFacts.
Import Store.

Lemma add_shape broadcastAll newId now d st :
  let item := fst (add broadcastAll newId now d st) in
  notifications (snd (add broadcastAll newId now d st))
  = item :: take 999 (notifications st)
  ∧ id item = newId
  ∧ readBy item = ∅
  ∧ recipients item = (if broadcastAll then All else d_recipients d).
Proof.
  intros item. subst item. unfold add. cbn [fst snd notifications].
  split; [|done].
  destruct (Nat.ltb _ _) eqn:E; [reflexivity|].
  apply Nat.ltb_ge in E. simpl in E. unfold MAX_ITEMS in E.
  f_equal. symmetry. apply take_ge. lia.
Qed.

Lemma markRead_head u st item rest :
  notifications st = item :: rest →
  fst (markRead u (id item) st) = isRecipient u item
  ∧ notifications (snd (markRead u (id item) st))
    = (if isRecipient u item then addReader u item else item) :: rest.
Proof.
  intros Hl. unfold markRead. rewrite Hl.
  assert (list_find (fun n => id n = id item) (item :: rest) = Some (0%nat, item)) as ->.
  { apply list_find_Some. split; [done|]. split; [done|]. intros; lia. }
  destruct (isRecipient u item); simpl; [done|]. by rewrite Hl.
Qed.

End AddFacts.

(** X27.  [add] puts the new notification at the head of the store and
    drops what lies beyond the 1000th place.  A [markRead] with the new
    identifier then answers whether the user is one of its recipients,
    and marks the new notification even when an older one has the same
    identifier.  With [EMAIL_BROADCAST_ALL] set every user is a
    recipient, whatever recipients were asked for; otherwise the
    recipients are those asked for. *)
Theorem add_then_markRead broadcastAll newId now d st u :
  let item := fst (Store.add broadcastAll newId now d st) in
  let st' := snd (Store.add broadcastAll newId now d st) in
  Store.notifications st'
  = take 1000 (item :: Store.notifications st)
  ∧ Store.readBy item = ∅
  ∧ Store.recipients item
    = (if broadcastAll then Store.All else Store.d_recipients d)
  ∧ fst (Store.markRead u newId st') = Store.isRecipient u item
  ∧ Store.notifications (snd (Store.markRead u newId st'))
    = (if Store.isRecipient u item then Store.addReader u item else item)
      :: take 999 (Store.notifications st).
Proof.
  intros item st'. subst item st'.
  destruct (add_shape broadcastAll newId now d st) as (Hl & Hid & Hrb & Hrc).
  split; [by rewrite Hl|]. split; [exact Hrb|]. split; [exact Hrc|].
  rewrite <- Hid at 1 2. by apply markRead_head.
Qed.

(** X28.  A [broadcast] reaches every user: whoever the user, the new
    notification is one of theirs and unread, a [markRead] with its
    identifier answers [true], and [markAllRead] counts it together
    with the unread notifications among the 999 latest of before; as
    long as the store held fewer than 1000 notifications, the number
    of unread notifications of every user grows by one. *)
Theorem broadcast_reaches_everyone broadcastAll newId now ty title message data st u :
  let item := fst (Listing.broadcast broadcastAll newId now ty title message data st) in
  let st' := snd (Listing.broadcast broadcastAll newId now ty title message data st) in
  Spec.unreadBy u item = true
  ∧ Listing.read (Listing.toClient u item) = false
  ∧ fst (Store.markRead u newId st') = true
  ∧ fst (Store.markAllRead u st')
    = S (length (List.filter (Spec.unreadBy u) (take 999 (Store.notifications st))))
  ∧ ((length (Store.notifications st) < 1000)%nat →
     fst (Store.markAllRead u st') = S (fst (Store.markAllRead u st))).
Proof.
  intros item st'. subst item st'. unfold Listing.broadcast.
  set (d := {| Store.d_type := ty; Store.d_recipients := Store.All |}).
  destruct (add_shape broadcastAll newId now d st) as (Hl & Hid & Hrb & Hrc).
  set (item := fst (Store.add broadcastAll newId now d st)) in *.
  set (st' := snd (Store.add broadcastAll newId now d st)) in *.
  clearbody item st'.
  assert (Store.isRecipient u item = true) as Hr.
  { unfold Store.isRecipient. rewrite Hrc. by destruct broadcastAll. }
  assert (bool_decide (u ∈ Store.readBy item) = false) as Hnr.
  { apply bool_decide_eq_false. rewrite Hrb. apply not_elem_of_empty. }
  assert (Spec.unreadBy u item = true) as Hun.
  { unfold Spec.unreadBy. by rewrite Hr, Hnr. }
  split; [exact Hun|].
  split; [exact Hnr|].
  split.
  { rewrite <- Hid. destruct (markRead_head u st' item _ Hl) as [-> _]. exact Hr. }
  rewrite !markAllRead_spec. cbn [fst]. rewrite Hl.
  cbn [List.filter]. rewrite Hun. split; [reflexivity|].
  intros Hlt. simpl. by rewrite take_ge by lia.
Qed.

Lemma broadcast_reaches_everyone_witness :
  let st' := snd (Listing.broadcast false "n4" "2025-01-02T00:00:00.000Z"
                    Store.dao_updated "DAO mis à jour" "DAO-2025-001" None
                    three_notes) in
  fst (Store.markAllRead "alice" st') = S (fst (Store.markAllRead "alice" three_notes))
  ∧ fst (Store.markRead "alice" "n4" st') = true.
Proof.
  intros st'.
  destruct (broadcast_reaches_everyone false "n4" "2025-01-02T00:00:00.000Z"
              Store.dao_updated "DAO mis à jour" "DAO-2025-001" None
              three_notes "alice") as (_ & _ & H3 & _ & H5).
  split; [apply H5; simpl; lia | exact H3].
Defined.
